(** * go-secrets: a verification development

    A shallow embedding of the core of the [secrets] package (tag parser,
    fragment extractor, cached provider, resolver engine and watcher) and
    the properties established about it.

    Go strings are byte sequences: they are modelled by [string] (a list
    of 8-bit [ascii]).  Go errors are modelled by the inductive [error];
    a function returning [(T, error)] returns a sum [T + error]. *)

From Stdlib Require Import ZArith List Bool Ascii String Lia DecimalString.
From Stdlib Require DecimalPos.
From stdpp Require Import base option gmap strings list.

Open Scope string_scope.
Open Scope list_scope.
Open Scope Z_scope.

#[global] Arguments String.append !s1 s2 : simpl nomatch.

Set Warnings "-register-all".

(* ================================================================= *)
(** ** Errors *)

Module Errors.

(** The error values built by the package.  [ErrField] is
    [fmt.Errorf("secrets: field %s: %w", field, cause)]. *)
Inductive error : Type :=
| ErrNotFound
| ErrProvider (msg : string)
| ErrProviderWrap (msg : string) (cause : error)
| ErrSyntax (fn str : string)
| ErrRange (fn str : string)
| ErrEmptyTag
| ErrUnknownOption (opt : string)
| ErrEmptyKey (raw : string)
| ErrInvalidJSON (cause : error)
| ErrFragmentNotFound (path : string)
| ErrFragmentIndex (path part : string)
| ErrFragmentRange (path : string) (idx len : Z)
| ErrFragmentScalar (path typeName : string)
| ErrFragmentMarshal (path : string) (cause : error)
| ErrField (field : string) (cause : error)
| ErrNoDefaultProvider (field key : string)
| ErrUnknownProvider (field scheme uri : string)
| ErrConversion (field typeName raw : string) (cause : error)
| ErrUnsupportedType (field typeName : string)
| ErrVersioningNotSupported (field provider : string)
| ErrDst (msg : string).

(** [errors.Is(err, ErrNotFound)]: follow the [Unwrap] chain. *)
Fixpoint is_not_found (e : error) : bool :=
  match e with
  | ErrNotFound => true
  | ErrProviderWrap _ c => is_not_found c
  | ErrInvalidJSON c => is_not_found c
  | ErrFragmentMarshal _ c => is_not_found c
  | ErrField _ c => is_not_found c
  | ErrConversion _ _ _ c => is_not_found c
  | _ => false
  end.

(** The field an error value names. *)
Definition error_field (e : error) : option string :=
  match e with
  | ErrField f _ | ErrNoDefaultProvider f _ | ErrUnknownProvider f _ _
  | ErrConversion f _ _ _ | ErrUnsupportedType f _ | ErrVersioningNotSupported f _ => Some f
  | _ => None
  end.

Definition is_err {A : Type} (r : A + error) : bool :=
  match r with inl _ => false | inr _ => true end.

End Errors.
Export Errors.

(* ================================================================= *)
(** ** The parts of Go's [strings] and [strconv] the package uses *)

Module GoStrings.

(** [s[:n]] and [s[n:]]. *)
Fixpoint str_take (n : nat) (s : string) : string :=
  match n, s with
  | S n', String a s' => String a (str_take n' s')
  | _, _ => ""
  end.

Fixpoint str_drop (n : nat) (s : string) : string :=
  match n, s with
  | S n', String _ s' => str_drop n' s'
  | _, _ => s
  end.

(** [strings.HasPrefix] and [strings.TrimPrefix]. *)
Fixpoint HasPrefix (s prefix : string) {struct prefix} : bool :=
  match prefix, s with
  | "", _ => true
  | String p prefix', String a s' => Ascii.eqb a p && HasPrefix s' prefix'
  | String _ _, "" => false
  end.

Definition TrimPrefix (s prefix : string) : string :=
  if HasPrefix s prefix then str_drop (String.length prefix) s else s.

(** [strings.Index]: position of the first occurrence, [None] for -1. *)
Fixpoint Index (s sep : string) : option nat :=
  if HasPrefix s sep then Some 0%nat
  else match s with
       | "" => None
       | String _ s' => S <$> Index s' sep
       end.

(** [strings.LastIndex] for a one-byte separator. *)
Fixpoint LastIndex (s : string) (c : ascii) : option nat :=
  match s with
  | "" => None
  | String a s' =>
      match LastIndex s' c with
      | Some i => Some (S i)
      | None => if Ascii.eqb a c then Some 0%nat else None
      end
  end.

(** [strings.Cut]: [(before, after, found)]. *)
Definition Cut (s sep : string) : string * string * bool :=
  match Index s sep with
  | Some i => (str_take i s, str_drop (i + String.length sep) s, true)
  | None => (s, "", false)
  end.

(** [strings.Split] for a one-byte separator: the first piece and the
    remaining pieces. *)
Fixpoint split_at (c : ascii) (s : string) : string * list string :=
  match s with
  | "" => ("", [])
  | String a s' =>
      let '(h, t) := split_at c s' in
      if Ascii.eqb a c then ("", h :: t) else (String a h, t)
  end.

Definition Split (s : string) (c : ascii) : list string :=
  let '(h, t) := split_at c s in h :: t.

(** [strings.Join]. *)
Fixpoint Join (l : list string) (sep : string) : string :=
  match l with
  | [] => ""
  | [x] => x
  | x :: l' => x +:+ sep +:+ Join l' sep
  end.

(** [strings.TrimSpace]: the white space of [unicode.IsSpace] in its
    UTF-8 encoding: the six ASCII characters, U+0085 and U+00A0 (two
    bytes), and U+1680, U+2000..U+200A, U+2028, U+2029, U+202F, U+205F,
    U+3000 (three bytes). *)
Definition byte_is (a : ascii) (n : nat) : bool := Nat.eqb (nat_of_ascii a) n.

Definition is_space1 (a : ascii) : bool :=
  existsb (byte_is a) [9; 10; 11; 12; 13; 32]%nat.

Definition is_space2 (a b : ascii) : bool :=
  byte_is a 194 && (byte_is b 133 || byte_is b 160).

Definition is_space3 (a b c : ascii) : bool :=
  (byte_is a 225 && byte_is b 154 && byte_is c 128) ||
  (byte_is a 226 && byte_is b 128 &&
     ((Nat.leb 128 (nat_of_ascii c) && Nat.leb (nat_of_ascii c) 138) ||
      byte_is c 168 || byte_is c 169 || byte_is c 175)) ||
  (byte_is a 226 && byte_is b 129 && byte_is c 159) ||
  (byte_is a 227 && byte_is b 128 && byte_is c 128).

(** Strip leading white space; [flip] reads the bytes of a character in
    reverse, for use on a reversed string. *)
Fixpoint trim_leading (flip : bool) (s : string) : string :=
  match s with
  | "" => ""
  | String a s1 =>
      if is_space1 a then trim_leading flip s1
      else
        match s1 with
        | "" => s
        | String b s2 =>
            if (if flip then is_space2 b a else is_space2 a b) then trim_leading flip s2
            else
              match s2 with
              | "" => s
              | String c s3 =>
                  if (if flip then is_space3 c b a else is_space3 a b c)
                  then trim_leading flip s3
                  else s
              end
        end
  end.

Fixpoint str_rev (s : string) : string :=
  match s with
  | "" => ""
  | String a s' => str_rev s' +:+ String a ""
  end.

Definition TrimSpace (s : string) : string :=
  str_rev (trim_leading true (str_rev (trim_leading false s))).

End GoStrings.
Export GoStrings.

(* ================================================================= *)
(** ** tag.go *)

Module Tag.

Record parsedTag : Type := mkTag {
  Scheme : string;
  Key : string;
  Fragment : string;
  Optional : bool;
  Version : string
}.

Definition emptyTag : parsedTag := mkTag "" "" "" false "".

(** The option loop of [parseTag]. *)
Fixpoint parseOptions (opts : list string) (t : parsedTag) : parsedTag + error :=
  match opts with
  | [] => inl t
  | opt :: rest =>
      if String.eqb opt "optional" then
        parseOptions rest (mkTag (Scheme t) (Key t) (Fragment t) true (Version t))
      else if HasPrefix opt "version=" then
        parseOptions rest
          (mkTag (Scheme t) (Key t) (Fragment t) (Optional t) (TrimPrefix opt "version="))
      else inr (ErrUnknownOption opt)
  end.

Definition parseTag (raw : string) : parsedTag + error :=
  if String.eqb raw "" then inr ErrEmptyTag
  else
    match Split raw "," with
    | [] => inr ErrEmptyTag
    | uri :: opts =>
        match parseOptions opts emptyTag with
        | inr e => inr e
        | inl t =>
            let '(frag, uri) :=
              match LastIndex uri "#" with
              | Some idx => (str_drop (S idx) uri, str_take idx uri)
              | None => (Fragment t, uri)
              end in
            let '(scheme, key) :=
              match Cut uri "://" with
              | (scheme, rest, true) => (scheme, rest)
              | (_, _, false) => (Scheme t, uri)
              end in
            if String.eqb key "" then inr (ErrEmptyKey raw)
            else inl (mkTag scheme key frag (Optional t) (Version t))
        end
    end.

(** The three components [parseTag] computes from the URI part. *)
Definition uri_components (uri : string) : string * string * string :=
  let '(frag, body) :=
    match LastIndex uri "#" with
    | Some idx => (str_drop (S idx) uri, str_take idx uri)
    | None => ("", uri)
    end in
  let '(scheme, key) :=
    match Cut body "://" with
    | (scheme, rest, true) => (scheme, rest)
    | (_, _, false) => ("", body)
    end in
  (scheme, key, frag).

(** [parsedTag.URI]. *)
Definition URI (t : parsedTag) : string :=
  if negb (String.eqb (Scheme t) "") then Scheme t +:+ "://" +:+ Key t else Key t.

End Tag.
Export Tag.

(** *** The tag grammar in the words of its description

    [tag := uri (',' option)*], [uri := (scheme '://')? key ('#' fragment)?].
    These relations restate the grammar declaratively; they are compared
    with [parseTag] below. *)

Module TagSpec.

Definition has_byte (c : ascii) (s : string) : Prop :=
  exists a b, s = a +:+ String c b.

Definition occurs (sep s : string) : Prop :=
  exists a b, s = a +:+ sep +:+ b.

(** The fragment is whatever follows the last [#]. *)
Inductive split_fragment (uri : string) : string -> string -> Prop :=
| sf_absent : ~ has_byte "#" uri -> split_fragment uri uri ""
| sf_present body frag :
    uri = body +:+ String "#" frag -> ~ has_byte "#" frag ->
    split_fragment uri body frag.

(** The scheme is the text before the first [://]. *)
Inductive split_scheme (body : string) : string -> string -> Prop :=
| ss_absent : ~ occurs "://" body -> split_scheme body "" body
| ss_present scheme key :
    body = scheme +:+ "://" +:+ key ->
    (forall a b, body = a +:+ "://" +:+ b -> (String.length scheme <= String.length a)%nat) ->
    split_scheme body scheme key.

Definition tag_shape (uri scheme key frag : string) : Prop :=
  exists body, split_fragment uri body frag /\ split_scheme body scheme key.

Definition known_option (o : string) : Prop :=
  o = "optional" \/ exists v, o = "version=" +:+ v.

End TagSpec.
Export TagSpec.

(* ================================================================= *)
(** ** strconv *)

Module Strconv.

Definition digit_of (a : ascii) : option Z :=
  let n := Z.of_nat (nat_of_ascii a) in
  if (48 <=? n) && (n <=? 57) then Some (n - 48) else None.

Fixpoint parse_digits (s : string) (acc : Z) : option Z :=
  match s with
  | "" => Some acc
  | String a s' =>
      match digit_of a with
      | Some d => parse_digits s' (10 * acc + d)
      | None => None
      end
  end.

(** A non-empty run of decimal digits (base 10 given explicitly, so no
    underscores and no base prefix). *)
Definition parse_unsigned (s : string) : option Z :=
  match s with
  | "" => None
  | _ => parse_digits s 0
  end.

(** [strconv.ParseUint(s, 10, bits)]. *)
Definition ParseUint (s : string) (bits : Z) : Z + error :=
  match parse_unsigned s with
  | None => inr (ErrSyntax "ParseUint" s)
  | Some n => if n <? 2 ^ bits then inl n else inr (ErrRange "ParseUint" s)
  end.

(** [strconv.ParseInt(s, 10, bits)]: an optional sign, then digits. *)
Definition parse_signed (fn : string) (s : string) (bits : Z) : Z + error :=
  let '(neg, body) :=
    match s with
    | String "+" s' => (false, s')
    | String "-" s' => (true, s')
    | _ => (false, s)
    end in
  match parse_unsigned body with
  | None => inr (ErrSyntax fn s)
  | Some un =>
      if neg then
        if un <=? 2 ^ (bits - 1) then inl (- un) else inr (ErrRange fn s)
      else
        if un <? 2 ^ (bits - 1) then inl un else inr (ErrRange fn s)
  end.

Definition ParseInt (s : string) (bits : Z) : Z + error := parse_signed "ParseInt" s bits.

(** [strconv.Atoi]: [int] is 64 bits wide. *)
Definition Atoi (s : string) : Z + error := parse_signed "Atoi" s 64.

(** [strconv.FormatInt(n, 10)] and [strconv.FormatUint(n, 10)]. *)
Definition FormatInt (n : Z) : string := NilZero.string_of_int (Z.to_int n).
Definition FormatUint (n : Z) : string := NilZero.string_of_int (Z.to_int n).

(** [strconv.FormatBool] and [strconv.ParseBool]. *)
Definition FormatBool (b : bool) : string := if b then "true" else "false".

Definition ParseBool (str : string) : bool + error :=
  if existsb (String.eqb str) ["1"; "t"; "T"; "true"; "TRUE"; "True"] then inl true
  else if existsb (String.eqb str) ["0"; "f"; "F"; "false"; "FALSE"; "False"] then inl false
  else inr (ErrSyntax "ParseBool" str).

End Strconv.
Export Strconv.

(* ================================================================= *)
(** ** The standard library taken as given

    [float64] arithmetic, the shortest-decimal float printer and the
    float and duration parsers are not part of the package; they are
    parameters of the development. *)

Class StdLib : Type := {
  float64 : Type;
  float64_zero : float64;
  (** [v == w] *)
  float64_eqb : float64 -> float64 -> bool;
  (** [int64(v)] and [float64(n)] *)
  float64_to_int64 : float64 -> Z;
  float64_of_int64 : Z -> float64;
  (** [strconv.FormatFloat(v, 'f', -1, 64)] and [strconv.ParseFloat(s, bits)] *)
  FormatFloat : float64 -> string;
  ParseFloat : string -> Z -> float64 + error;
  (** [time.ParseDuration] and [time.Duration.String] *)
  ParseDuration : string -> Z + error;
  DurationString : Z -> string
}.

(* ================================================================= *)
(** ** fragment.go *)

Module Fragment.

Section WithStdLib.
Context `{StdLib}.

(** What [json.Unmarshal] produces in an [any]: [nil], [bool], [float64],
    [string], [[]any] and [map[string]any].  The map is kept as the list
    of its bindings. *)
Inductive json : Type :=
| JNull
| JBool (b : bool)
| JNumber (v : float64)
| JString (s : string)
| JArray (elems : list json)
| JObject (members : list (string * json)).

(** [v[part]] on a [map[string]any]. *)
Fixpoint member (part : string) (m : list (string * json)) : option json :=
  match m with
  | [] => None
  | (k, v) :: m' => if String.eqb k part then Some v else member part m'
  end.

(** The [%T] of a decoded value. *)
Definition json_type_name (v : json) : string :=
  match v with
  | JNull => "<nil>"
  | JBool _ => "bool"
  | JNumber _ => "float64"
  | JString _ => "string"
  | JArray _ => "[]interface {}"
  | JObject _ => "map[string]interface {}"
  end.

End WithStdLib.

(** [encoding/json], taken as given. *)
Class JSONLib `{StdLib} : Type := {
  Unmarshal : string -> json + error;
  Marshal : json -> string + error
}.

Section WithJSON.
Context `{JSONLib}.

(** The loop over the path segments. *)
Fixpoint walk (path : string) (parts : list string) (current : json) : json + error :=
  match parts with
  | [] => inl current
  | part :: rest =>
      match current with
      | JObject v =>
          match member part v with
          | None => inr (ErrFragmentNotFound path)
          | Some val => walk path rest val
          end
      | JArray v =>
          match Atoi part with
          | inr _ => inr (ErrFragmentIndex path part)
          | inl idx =>
              if (idx <? 0) || (idx >=? Z.of_nat (length v)) then
                inr (ErrFragmentRange path idx (Z.of_nat (length v)))
              else
                match nth_error v (Z.to_nat idx) with
                | Some val => walk path rest val
                | None => inr (ErrFragmentRange path idx (Z.of_nat (length v)))
                end
          end
      | _ => inr (ErrFragmentScalar path (json_type_name current))
      end
  end.

(** The final conversion of the addressed value to bytes. *)
Definition render (path : string) (current : json) : string + error :=
  match current with
  | JString v => inl v
  | JNumber v =>
      if float64_eqb v (float64_of_int64 (float64_to_int64 v))
      then inl (FormatInt (float64_to_int64 v))
      else inl (FormatFloat v)
  | JBool v => inl (FormatBool v)
  | JNull => inl "null"
  | v =>
      match Marshal v with
      | inr err => inr (ErrFragmentMarshal path err)
      | inl b => inl b
      end
  end.

Definition extractFragment (data : string) (path : string) : string + error :=
  match Unmarshal data with
  | inr err => inr (ErrInvalidJSON err)
  | inl root =>
      match walk path (Split path ".") root with
      | inr e => inr e
      | inl current => render path current
      end
  end.

End WithJSON.

End Fragment.
Export Fragment.

(** *** The fragment path in the words of its description *)

Module FragmentSpec.

Section WithStdLib.
Context `{StdLib}.







Definition is_scalar (v : json) : Prop :=
  match v with
  | JObject _ | JArray _ => False
  | _ => True
  end.


End WithStdLib.

Section WithJSON.
Context `{JSONLib}.



End WithJSON.

End FragmentSpec.
Export FragmentSpec.


(* ================================================================= *)
(** ** secrets.go: the provider contract *)

Module Providers.

(** A provider answers [Get]; it answers [GetVersion] when it implements
    [VersionedProvider] ([None] when it does not).  A call returns the
    bytes or the error. *)
Record Provider : Type := mkProvider {
  Get : string -> string + error;
  GetVersion : option (string -> string -> string + error)
}.

(** A call made to a provider. *)
Inductive call : Type :=
| CallGet (key : string)
| CallGetVersion (key version : string).

End Providers.
Export Providers.

(* ================================================================= *)
(** ** The cached provider

    The clock is read by [get] (to test freshness) and again by [set] (to
    compute the expiry); both readings are inputs.  Times and durations
    are integers (nanoseconds). *)

Module Cache.

Record cacheEntry : Type := mkEntry {
  data : string;
  expires : Z
}.

Record CachedProvider : Type := mkCached {
  provider : Provider;
  ttl : Z;
  entries : gmap string cacheEntry
}.

Definition NewCachedProvider (p : Provider) (ttl : Z) : CachedProvider :=
  mkCached p ttl ∅.

(** [c.get(key)]: a miss when there is no entry or [time.Now().After(entry.expires)]. *)
Definition CachedProvider_get (c : CachedProvider) (now : Z) (key : string) : option string :=
  match entries c !! key with
  | None => None
  | Some entry => if now >? expires entry then None else Some (data entry)
  end.

(** [c.set(key, data)]. *)
Definition CachedProvider_set (c : CachedProvider) (now : Z) (key data : string)
  : CachedProvider :=
  mkCached (provider c) (ttl c) (<[key := mkEntry data (now + ttl c)]> (entries c)).

(** The NUL-separated cache key of a versioned entry. *)
Definition cacheKey (key version : string) : string :=
  key +:+ String Ascii.zero "" +:+ version.

(** [Get] and [GetVersion] return the result, the provider afterwards and
    the calls made to the underlying provider. *)
Definition CachedProvider_Get (c : CachedProvider) (now now' : Z) (key : string)
  : (string + error) * CachedProvider * list call :=
  match CachedProvider_get c now key with
  | Some data => (inl data, c, [])
  | None =>
      match Get (provider c) key with
      | inr err => (inr err, c, [CallGet key])
      | inl data => (inl data, CachedProvider_set c now' key data, [CallGet key])
      end
  end.

Definition CachedProvider_GetVersion (c : CachedProvider) (now now' : Z)
           (key version : string)
  : (string + error) * CachedProvider * list call :=
  match GetVersion (provider c) with
  | None => (inr (ErrVersioningNotSupported "" "cached"), c, [])
  | Some getVersion =>
      match CachedProvider_get c now (cacheKey key version) with
      | Some data => (inl data, c, [])
      | None =>
          match getVersion key version with
          | inr err => (inr err, c, [CallGetVersion key version])
          | inl data =>
              (inl data, CachedProvider_set c now' (cacheKey key version) data,
               [CallGetVersion key version])
          end
      end
  end.

(** [Clear]. *)
Definition CachedProvider_Clear (c : CachedProvider) : CachedProvider :=
  mkCached (provider c) (ttl c) ∅.

End Cache.

(** *** The cache contract as it is described *)

Module CacheSpec.
Import Cache.

(** "[Get] returns from cache when an entry exists and [now < expiry];
    otherwise it calls through." *)
Definition fresh_before_expiry (c : CachedProvider) (now : Z) (key : string) : Prop :=
  exists entry, entries c !! key = Some entry /\ now < expires entry.

Definition calls_through_unless_before_expiry : Prop :=
  forall c now now' key,
    ~ fresh_before_expiry c now key ->
    snd (CachedProvider_Get c now now' key) = [CallGet key].

(** "Versioned and unversioned entries never collide." *)
Definition versioned_keys_never_collide : Prop :=
  forall key key' version, key <> cacheKey key' version.

End CacheSpec.


(* ================================================================= *)
(** ** Record types and values, as [reflect] presents them

    A record type is a finite tree: a struct type lists its fields, each
    with its name, whether it is embedded, whether it is exported, the
    value of its [secret] tag if it has one, and its type.  [TText] is a
    named type whose kind is not [Struct] and whose pointer implements
    [encoding.TextUnmarshaler] ([net.IP]); a struct type is a [TStruct]
    whether or not its pointer implements it ([time.Time]), since the
    walker looks at the kind only, and [implementsTextUnmarshaler] tells
    which struct types do.  [TDuration] is [time.Duration]; [TBytes] is
    [[]byte]. *)

Module Reflect.

Record sfield (T : Type) : Type := mkField {
  fname : string;
  fanon : bool;
  fexported : bool;
  ftag : option string;
  ftype : T
}.
Arguments mkField {T} _ _ _ _ _.
Arguments fname {T} _.
Arguments fanon {T} _.
Arguments fexported {T} _.
Arguments ftag {T} _.
Arguments ftype {T} _.

Inductive gotype : Type :=
| TString
| TBool
| TInt (bits : Z)
| TDuration
| TUint (bits : Z)
| TFloat (bits : Z)
| TBytes
| TSlice (elem : gotype)
| TText (name : string)
| TPtr (elem : gotype)
| TStruct (name : string) (fields : list (sfield gotype))
| TOther (name : string).

(** [t.Kind() == reflect.Struct] and [t.Kind() == reflect.Pointer]. *)
Definition is_struct (t : gotype) : bool :=
  match t with TStruct _ _ => true | _ => false end.

Definition is_pointer (t : gotype) : bool :=
  match t with TPtr _ => true | _ => false end.

(** Identity of types ([f0.Type == f1.Type]). *)
Fixpoint gotype_eqb (a b : gotype) {struct a} : bool :=
  match a, b with
  | TString, TString | TBool, TBool | TDuration, TDuration | TBytes, TBytes => true
  | TInt n, TInt m | TUint n, TUint m | TFloat n, TFloat m => Z.eqb n m
  | TSlice x, TSlice y | TPtr x, TPtr y => gotype_eqb x y
  | TText n, TText m | TOther n, TOther m => String.eqb n m
  | TStruct n fs, TStruct m gs =>
      String.eqb n m &&
      (fix fields_eqb (fs gs : list (sfield gotype)) {struct fs} : bool :=
         match fs, gs with
         | [], [] => true
         | f :: fs', g :: gs' =>
             String.eqb (fname f) (fname g) && Bool.eqb (fanon f) (fanon g) &&
             Bool.eqb (fexported f) (fexported g) &&
             match ftag f, ftag g with
             | None, None => true
             | Some x, Some y => String.eqb x y
             | _, _ => false
             end &&
             gotype_eqb (ftype f) (ftype g) && fields_eqb fs' gs'
         | _, _ => false
         end) fs gs
  | _, _ => false
  end.

(** [t.String()], used in error values only. *)
Fixpoint type_name (t : gotype) : string :=
  match t with
  | TString => "string"
  | TBool => "bool"
  | TInt bits => "int" +:+ FormatInt bits
  | TDuration => "time.Duration"
  | TUint bits => "uint" +:+ FormatInt bits
  | TFloat bits => "float" +:+ FormatInt bits
  | TBytes => "[]uint8"
  | TSlice e => "[]" +:+ type_name e
  | TText n => n
  | TPtr e => "*" +:+ type_name e
  | TStruct n _ => n
  | TOther n => n
  end.

(** [hasSecretTags]: the struct type, or a struct nested in it directly
    or behind one pointer, has a [secret]-tagged field. *)
Fixpoint hasSecretTags (t : gotype) : bool :=
  match t with
  | TStruct _ fs =>
      existsb
        (fun f =>
           match ftag f with
           | Some _ => true
           | None =>
               match ftype f with
               | TPtr ft => is_struct ft && hasSecretTags ft
               | ft => is_struct ft && hasSecretTags (ftype f)
               end
           end) fs
  | _ => false
  end.

(** [isVersionedType]: a struct of exactly two fields, [Current] and
    [Previous], of the same type. *)
Definition isVersionedType (t : gotype) : bool :=
  match t with
  | TStruct _ [f0; f1] =>
      String.eqb (fname f0) "Current" && String.eqb (fname f1) "Previous" &&
      gotype_eqb (ftype f0) (ftype f1)
  | _ => false
  end.

(** A place inside a record: field selections and pointer dereferences
    from the root. *)
Inductive step : Type :=
| Fld (i : nat)
| Deref.

Definition path : Type := list step.

Section WithStdLib.
Context `{StdLib}.

Inductive value : Type :=
| VString (s : string)
| VBool (b : bool)
| VInt (n : Z)
| VUint (n : Z)
| VFloat (v : float64)
| VBytes (b : string)
| VText (state : string)
| VNil
| VPtr (pointee : value)
| VStruct (fields : list value)
| VOther.

(** The zero value of a type ([reflect.New(t).Elem()]). *)
Fixpoint zero (t : gotype) : value :=
  match t with
  | TString => VString ""
  | TBool => VBool false
  | TInt _ | TDuration => VInt 0
  | TUint _ => VUint 0
  | TFloat _ => VFloat float64_zero
  | TBytes => VBytes ""
  | TSlice _ => VOther
  | TText _ => VText ""
  | TPtr _ => VNil
  | TStruct _ fs => VStruct (List.map (fun f => zero (ftype f)) fs)
  | TOther _ => VOther
  end.

(** Reading and updating the value at a place. *)
Fixpoint lookup_path (p : path) (v : value) : option value :=
  match p with
  | [] => Some v
  | Fld i :: p' =>
      match v with
      | VStruct vs => match vs !! i with Some w => lookup_path p' w | None => None end
      | _ => None
      end
  | Deref :: p' =>
      match v with
      | VPtr w => lookup_path p' w
      | _ => None
      end
  end.

Fixpoint update_path (p : path) (f : value -> value) (v : value) : value :=
  match p with
  | [] => f v
  | Fld i :: p' =>
      match v with
      | VStruct vs => VStruct (alter (update_path p' f) i vs)
      | _ => v
      end
  | Deref :: p' =>
      match v with
      | VPtr w => VPtr (update_path p' f w)
      | _ => v
      end
  end.

End WithStdLib.

End Reflect.
Export Reflect.

(** *** [encoding.TextUnmarshaler], taken as given

    Which struct types implement it through their pointer (by the name of
    the type); [UnmarshalText] of a type that implements it, a [TText] or
    such a struct: from the receiver's value and the text to its new value
    and the error; and the bytes [valueToBytes] gives for a value of the
    [TText] of that name, which depend on the kind of the type: the
    content of a string, byte slice, boolean or number, and the type
    between angle brackets for any other kind. *)
Class TextLib `{StdLib} : Type := {
  implementsTextUnmarshaler : string -> bool;
  UnmarshalText : gotype -> value -> string -> value * option error;
  TextBytes : string -> value -> string
}.


(* ================================================================= *)
(** ** The resolver

    A provider is taken to answer a given key (and version) the same way
    throughout one [Resolve]; the fetches, which the code runs
    concurrently under a semaphore, each write a distinct entry of the
    result map, so the map is built here in plan order. *)

Module Resolver.

Record resolverConfig : Type := mkConfig {
  defaultProvider : option Provider;
  providers : gmap string Provider;
  parallelism : Z
}.

(** [fieldValue] is the place of the field's storage in the record and
    [fieldType] the type of that storage ([fieldValue.Type()]). *)
Record fieldInfo : Type := mkFieldInfo {
  fieldName : string;
  fieldValue : path;
  fieldType : gotype;
  tag : parsedTag;
  provider : Provider;
  providerName : string;
  isVersioned : bool
}.

Record fetchKey : Type := mkKey {
  uri : string;
  version : string
}.

Definition fetchKey_String (fk : fetchKey) : string :=
  if negb (String.eqb (version fk) "") then uri fk +:+ "@" +:+ version fk else uri fk.

Record fetchSpec : Type := mkSpec {
  key : fetchKey;
  fi : fieldInfo;
  spec_version : string
}.

Definition walk_acc : Type := list fieldInfo * list error.

(** The provider implements [VersionedProvider]. *)
Definition is_versioned_provider (p : Provider) : bool :=
  match GetVersion p with Some _ => true | None => false end.

(** The body of the first loop of [collectFields] for a field that is
    not an embedded struct. *)
Definition collect_tagged (cfg : resolverConfig) (here : path) (i : nat)
           (field : sfield gotype) (acc : walk_acc) : walk_acc :=
  if negb (fexported field) then acc
  else
    match ftag field with
    | None => acc
    | Some tagStr =>
        match parseTag tagStr with
        | inr err => (acc.1, acc.2 ++ [ErrField (fname field) err])
        | inl tag =>
            let bound : Provider * string + error :=
              if negb (String.eqb (Scheme tag) "") then
                match providers cfg !! Scheme tag with
                | None => inr (ErrUnknownProvider (fname field) (Scheme tag) (URI tag))
                | Some p => inl (p, Scheme tag)
                end
              else
                match defaultProvider cfg with
                | None => inr (ErrNoDefaultProvider (fname field) (Key tag))
                | Some p => inl (p, "default")
                end in
            match bound with
            | inr e => (acc.1, acc.2 ++ [e])
            | inl (provider, providerName) =>
                let versioned := isVersionedType (ftype field) in
                if versioned && negb (is_versioned_provider provider) then
                  (acc.1, acc.2 ++ [ErrVersioningNotSupported (fname field) providerName])
                else
                  (acc.1 ++ [mkFieldInfo (fname field) (here ++ [Fld i]) (ftype field)
                                         tag provider providerName versioned],
                   acc.2)
            end
        end
    end.

Definition has_tag (field : sfield gotype) : bool :=
  match ftag field with Some _ => true | None => false end.

Section WithStdLib.
Context `{StdLib}.

Section Passes.
Variable cfg : resolverConfig.
Variable rec : gotype -> path -> value -> walk_acc -> value * walk_acc.
Variable here : path.

(** First loop: embedded structs are walked in place, tagged fields are
    collected. *)
Fixpoint first_pass (fs : list (sfield gotype)) (i : nat) (vs : list value)
         (acc : walk_acc) {struct fs} : list value * walk_acc :=
  match fs with
  | [] => (vs, acc)
  | field :: fs' =>
      if fanon field && is_struct (ftype field) then
        match vs !! i with
        | Some fv =>
            let '(fv', acc') := rec (ftype field) (here ++ [Fld i]) fv acc in
            first_pass fs' (S i) (<[i := fv']> vs) acc'
        | None => first_pass fs' (S i) vs acc
        end
      else first_pass fs' (S i) vs (collect_tagged cfg here i field acc)
  end.

(** Second loop: exported, non-embedded fields without a tag; a nil
    pointer to a struct is allocated, and a struct with tagged fields
    in its subtree is walked. *)
Fixpoint second_pass (fs : list (sfield gotype)) (i : nat) (vs : list value)
         (acc : walk_acc) {struct fs} : list value * walk_acc :=
  match fs with
  | [] => (vs, acc)
  | field :: fs' =>
      if fanon field || negb (fexported field) || has_tag field then
        second_pass fs' (S i) vs acc
      else
        match ftype field with
        | TPtr elemType =>
            match vs !! i with
            | Some VNil =>
                if is_struct elemType then
                  if hasSecretTags elemType then
                    let '(w, acc') :=
                      rec elemType (here ++ [Fld i; Deref]) (zero elemType) acc in
                    second_pass fs' (S i) (<[i := VPtr w]> vs) acc'
                  else second_pass fs' (S i) (<[i := VPtr (zero elemType)]> vs) acc
                else second_pass fs' (S i) vs acc
            | Some (VPtr actualVal) =>
                if is_struct elemType && hasSecretTags elemType then
                  let '(w, acc') := rec elemType (here ++ [Fld i; Deref]) actualVal acc in
                  second_pass fs' (S i) (<[i := VPtr w]> vs) acc'
                else second_pass fs' (S i) vs acc
            | _ => second_pass fs' (S i) vs acc
            end
        | actualType =>
            if is_struct actualType && hasSecretTags (ftype field) then
              match vs !! i with
              | Some actualVal =>
                  let '(w, acc') := rec (ftype field) (here ++ [Fld i]) actualVal acc in
                  second_pass fs' (S i) (<[i := w]> vs) acc'
              | None => second_pass fs' (S i) vs acc
              end
            else second_pass fs' (S i) vs acc
        end
  end.

End Passes.

(** [collectFields] on the struct of type [t] stored at [here]. *)
Fixpoint collectFields (cfg : resolverConfig) (t : gotype) (here : path)
         (sv : value) (acc : walk_acc) {struct t} : value * walk_acc :=
  match t with
  | TStruct _ fs =>
      match sv with
      | VStruct vs =>
          let '(vs1, acc1) := first_pass cfg (collectFields cfg) here fs 0%nat vs acc in
          let '(vs2, acc2) := second_pass (collectFields cfg) here fs 0%nat vs1 acc1 in
          (VStruct vs2, acc2)
      | _ => (sv, acc)
      end
  | _ => (sv, acc)
  end.

End WithStdLib.

(** *** Phase 2: the fetch plan *)

(** [if !seen[k.String()] { seen[...] = true; specs = append(specs, ...) }] *)
Definition plan_key (k : fetchKey) (fi : fieldInfo) (version : string)
           (st : gset string * list fetchSpec) : gset string * list fetchSpec :=
  if decide (fetchKey_String k ∈ st.1) then st
  else ({[fetchKey_String k]} ∪ st.1, st.2 ++ [mkSpec k fi version]).

Definition plan_field (st : gset string * list fetchSpec) (fi : fieldInfo)
  : gset string * list fetchSpec :=
  let uri := URI (tag fi) in
  if isVersioned fi then
    plan_key (mkKey uri "previous") fi "previous" (plan_key (mkKey uri "") fi "" st)
  else
    plan_key (mkKey uri (Version (tag fi))) fi (Version (tag fi)) st.

Definition plan (fields : list fieldInfo) : gset string * list fetchSpec :=
  fold_left plan_field fields (∅, []).

(** The body of one fetch: the call it makes, if any, and its result. *)
Definition fetch_call (spec : fetchSpec) : option (Provider * call) :=
  if negb (String.eqb (spec_version spec) "") then
    match GetVersion (provider (fi spec)) with
    | None => None
    | Some _ =>
        Some (provider (fi spec), CallGetVersion (Key (tag (fi spec))) (spec_version spec))
    end
  else Some (provider (fi spec), CallGet (Key (tag (fi spec)))).

Definition fetch (spec : fetchSpec) : string + error :=
  if negb (String.eqb (spec_version spec) "") then
    match GetVersion (provider (fi spec)) with
    | None =>
        inr (ErrVersioningNotSupported (fieldName (fi spec)) (providerName (fi spec)))
    | Some getVersion => getVersion (Key (tag (fi spec))) (spec_version spec)
    end
  else Get (provider (fi spec)) (Key (tag (fi spec))).

(** [results[spec.key.String()] = &fetchResult{...}] for every spec. *)
Definition fetch_all (specs : list fetchSpec) : gmap string (string + error) :=
  fold_left (fun results spec => <[fetchKey_String (key spec) := fetch spec]> results)
            specs ∅.

Section WithJSON.
Context `{JSONLib} `{text : !TextLib}.

(** *** Phase 3: conversion and assignment *)

(** [setField]: the new content of the storage and the error. *)
Fixpoint setField (ft : gotype) (fv : value) (fieldName raw : string)
  : value * option error :=
  match ft with
  | TPtr elem =>
      match setField elem (zero elem) fieldName raw with
      | (_, Some err) => (fv, Some err)
      | (v, None) => (VPtr v, None)
      end
  | TText _ =>
      match UnmarshalText ft fv raw with
      | (fv', Some err) => (fv', Some (ErrConversion fieldName (type_name ft) raw err))
      | (fv', None) => (fv', None)
      end
  | TString => (VString raw, None)
  | TBytes => (VBytes raw, None)
  | TSlice _ => (fv, Some (ErrUnsupportedType fieldName (type_name ft)))
  | TBool =>
      match ParseBool (TrimSpace raw) with
      | inr err => (fv, Some (ErrConversion fieldName (type_name ft) raw err))
      | inl b => (VBool b, None)
      end
  | TDuration =>
      match ParseDuration (TrimSpace raw) with
      | inr err => (fv, Some (ErrConversion fieldName (type_name ft) raw err))
      | inl d => (VInt d, None)
      end
  | TInt bits =>
      match ParseInt (TrimSpace raw) bits with
      | inr err => (fv, Some (ErrConversion fieldName (type_name ft) raw err))
      | inl n => (VInt n, None)
      end
  | TUint bits =>
      match ParseUint (TrimSpace raw) bits with
      | inr err => (fv, Some (ErrConversion fieldName (type_name ft) raw err))
      | inl n => (VUint n, None)
      end
  | TFloat bits =>
      match ParseFloat (TrimSpace raw) bits with
      | inr err => (fv, Some (ErrConversion fieldName (type_name ft) raw err))
      | inl n => (VFloat n, None)
      end
  | TStruct name _ =>
      if implementsTextUnmarshaler name then
        match UnmarshalText ft fv raw with
        | (fv', Some err) => (fv', Some (ErrConversion fieldName (type_name ft) raw err))
        | (fv', None) => (fv', None)
        end
      else (fv, Some (ErrUnsupportedType fieldName (type_name ft)))
  | TOther _ => (fv, Some (ErrUnsupportedType fieldName (type_name ft)))
  end.

(** [setField] applied to the storage at a place of the record. *)
Definition set_at (dst : value) (p : path) (ft : gotype) (fieldName raw : string)
  : value * option error :=
  let old := default (zero ft) (lookup_path p dst) in
  let '(new, err) := setField ft old fieldName raw in
  (update_path p (fun _ => new) dst, err).

(** The type of field [i] of a struct type ([fieldValue.Field(i).Type()]). *)
Definition field_type (t : gotype) (i : nat) : gotype :=
  match t with
  | TStruct _ fs => default (TOther "") (ftype <$> fs !! i)
  | _ => TOther ""
  end.

(** Fragment extraction when the tag has a fragment. *)
Definition extracted (tag : parsedTag) (data : string) : string + error :=
  if negb (String.eqb (Fragment tag) "") then extractFragment data (Fragment tag)
  else inl data.

(** One iteration of the assignment loop.  [None] stands for the nil
    dereference of a missing entry of the result map. *)
Definition assign_field (results : gmap string (string + error))
           (st : value * list error) (fi : fieldInfo) : option (value * list error) :=
  let '(dst, assignErrs) := st in
  let uri := URI (tag fi) in
  if isVersioned fi then
    match results !! fetchKey_String (mkKey uri "") with
    | None => None
    | Some currentResult =>
        match currentResult with
        | inr err =>
            if Optional (tag fi) && is_not_found err then Some st
            else Some (dst, assignErrs ++ [ErrField (fieldName fi) err])
        | inl data =>
            match extracted (tag fi) data with
            | inr fragErr => Some (dst, assignErrs ++ [ErrField (fieldName fi) fragErr])
            | inl currentVal =>
                match set_at dst (fieldValue fi ++ [Fld 0%nat])
                             (field_type (fieldType fi) 0)
                             (fieldName fi +:+ ".Current") currentVal with
                | (dst1, Some err) => Some (dst1, assignErrs ++ [err])
                | (dst1, None) =>
                    match results !! fetchKey_String (mkKey uri "previous") with
                    | None => None
                    | Some (inr err) =>
                        if negb (is_not_found err)
                        then Some (dst1, assignErrs ++ [ErrField (fieldName fi) err])
                        else Some (dst1, assignErrs)
                    | Some (inl pdata) =>
                        match extracted (tag fi) pdata with
                        | inr fragErr =>
                            Some (dst1, assignErrs ++ [ErrField (fieldName fi) fragErr])
                        | inl previousVal =>
                            match set_at dst1 (fieldValue fi ++ [Fld 1%nat])
                                         (field_type (fieldType fi) 1)
                                         (fieldName fi +:+ ".Previous") previousVal with
                            | (dst2, Some err) => Some (dst2, assignErrs ++ [err])
                            | (dst2, None) => Some (dst2, assignErrs)
                            end
                        end
                    end
                end
            end
        end
    end
  else
    match results !! fetchKey_String (mkKey uri (Version (tag fi))) with
    | None => None
    | Some result =>
        match result with
        | inr err =>
            if Optional (tag fi) && is_not_found err then Some st
            else Some (dst, assignErrs ++ [ErrField (fieldName fi) err])
        | inl data =>
            match extracted (tag fi) data with
            | inr fragErr => Some (dst, assignErrs ++ [ErrField (fieldName fi) fragErr])
            | inl value =>
                match set_at dst (fieldValue fi) (fieldType fi) (fieldName fi) value with
                | (dst1, Some err) => Some (dst1, assignErrs ++ [err])
                | (dst1, None) => Some (dst1, assignErrs)
                end
            end
        end
    end.

Fixpoint assign (results : gmap string (string + error)) (fields : list fieldInfo)
         (st : value * list error) : option (value * list error) :=
  match fields with
  | [] => Some st
  | fi :: rest =>
      match assign_field results st fi with
      | None => None
      | Some st' => assign results rest st'
      end
  end.

(** [Resolve]: the record afterwards and the joined errors ([] is the
    nil error); [None] stands for a panic.  [dst] is a value of type [t]. *)
Definition Resolve (cfg : resolverConfig) (t : gotype) (dst : value)
  : option (value * list error) :=
  match t, dst with
  | TPtr elemType, VPtr elem =>
      if negb (is_struct elemType)
      then Some (dst, [ErrDst "secrets: dst must point to a struct"])
      else
        let '(elem1, (fields, collectErrs)) :=
          collectFields cfg elemType [] elem ([], []) in
        if negb (Nat.eqb (length collectErrs) 0) && Nat.eqb (length fields) 0
        then Some (VPtr elem1, collectErrs)
        else
          let specs := (plan fields).2 in
          let results := fetch_all specs in
          match assign results fields (elem1, []) with
          | None => None
          | Some (elem2, assignErrs) => Some (VPtr elem2, collectErrs ++ assignErrs)
          end
  | _, _ => Some (dst, [ErrDst "secrets: dst must be a non-nil pointer"])
  end.

End WithJSON.

End Resolver.
Export Resolver.


(* ================================================================= *)
(** ** A small instance, for running the model on concrete inputs

    Numbers are integers, floats and durations are not parsed, and the
    decoder knows two documents and the encoder one array. *)

Module Demo.

#[export] Instance demoStdLib : StdLib := {|
  float64 := Z;
  float64_zero := 0;
  float64_eqb := Z.eqb;
  float64_to_int64 := fun v => v;
  float64_of_int64 := fun n => n;
  FormatFloat := fun _ => "";
  ParseFloat := fun _ _ => inr (ErrSyntax "ParseFloat" "");
  ParseDuration := fun _ => inr (ErrSyntax "ParseDuration" "");
  DurationString := fun _ => ""
|}.

#[export] Instance demoText : TextLib := {|
  implementsTextUnmarshaler := fun name => String.eqb name "time.Time";
  UnmarshalText := fun _ _ raw => (VText raw, None);
  TextBytes := fun _ v => match v with VText st => st | _ => "" end
|}.

Definition quoted (s : string) : string :=
  String (ascii_of_nat 34) "" +:+ s +:+ String (ascii_of_nat 34) "".

(** [{"a":"1","b":"2"}] *)
Definition doc_shared : string :=
  "{" +:+ quoted "a" +:+ ":" +:+ quoted "1" +:+ "," +:+ quoted "b" +:+ ":" +:+ quoted "2" +:+ "}".

(** [{"host":"db.example.com","port":5432,"ssl":true,"tags":["x","y"]}] *)
Definition doc_db : string :=
  "{" +:+ quoted "host" +:+ ":" +:+ quoted "db.example.com" +:+ "," +:+
  quoted "port" +:+ ":5432," +:+ quoted "ssl" +:+ ":true," +:+
  quoted "tags" +:+ ":[" +:+ quoted "x" +:+ "," +:+ quoted "y" +:+ "]}".

#[export] Instance demoJSON : JSONLib := {|
  Unmarshal := fun data =>
    if String.eqb data doc_shared then
      inl (JObject [("a", JString "1"); ("b", JString "2")])
    else if String.eqb data doc_db then
      inl (JObject [("host", JString "db.example.com"); ("port", JNumber 5432);
                    ("ssl", JBool true); ("tags", JArray [JString "x"; JString "y"])])
    else inr (ErrSyntax "json.Unmarshal" data);
  Marshal := fun v =>
    match v with
    | JArray [JString "x"; JString "y"] =>
        inl ("[" +:+ quoted "x" +:+ "," +:+ quoted "y" +:+ "]")
    | _ => inr (ErrSyntax "json.Marshal" "")
    end
|}.

(** A provider backed by a table of keys, and a versioned one backed by
    two tables. *)
Fixpoint table_get (table : list (string * string)) (key : string) : string + error :=
  match table with
  | [] => inr (ErrProviderWrap key ErrNotFound)
  | (k, v) :: rest => if String.eqb k key then inl v else table_get rest key
  end.

Definition plain_provider (table : list (string * string)) : Provider :=
  mkProvider (table_get table) None.

Definition versioned_provider (current : list (string * string))
           (versions : list (string * string)) : Provider :=
  mkProvider (table_get current)
             (Some (fun key version => table_get versions (key +:+ "@" +:+ version))).

Definition tagged (name : string) (t : gotype) (tag : string) : sfield gotype :=
  mkField name false true (Some tag) t.

Definition untagged (name : string) (t : gotype) : sfield gotype :=
  mkField name false true None t.

Definition Versioned (t : gotype) : gotype :=
  TStruct "secrets.Versioned" [untagged "Current" t; untagged "Previous" t].

End Demo.
Export Demo.


(* ================================================================= *)
(** ** Places of a record: vocabulary for the walker's invariants *)

Module Places.

Definition prefix_of (p q : path) : Prop := exists r, q = p ++ r.

(** [q] lies strictly below [p]. *)
Definition strictly_below (p q : path) : Prop := exists r, r <> [] /\ q = p ++ r.

(** Two places hold separate storage: neither contains the other. *)
Definition incomparable (p q : path) : Prop := ~ prefix_of p q /\ ~ prefix_of q p.

Inductive disjoint_paths : list path -> Prop :=
| disjoint_nil : disjoint_paths []
| disjoint_cons p l :
    Forall (incomparable p) l -> disjoint_paths l -> disjoint_paths (p :: l).

Section WithStdLib.
Context `{StdLib}.

(** The storage at [p] is a non-nil pointer. *)
Definition non_nil_at (p : path) (v : value) : Prop :=
  exists w, lookup_path p v = Some (VPtr w).

End WithStdLib.

End Places.
Export Places.


(* ================================================================= *)
(** ** What the walker adds to its accumulator *)

Module WalkerSpec.

Section WithStdLib.
Context `{StdLib}.

(** The storage of the tasks [new], where it exists in [sv], holds the
    same value in [sv']. *)
Definition keeps_tasks (here : path) (sv sv' : value) (new : list fieldInfo) : Prop :=
  forall fi r v,
    In fi new -> fieldValue fi = here ++ r ->
    lookup_path r sv = Some v -> lookup_path r sv' = Some v.

(** A walker invoked at [here] appends field tasks whose storage lies
    strictly below [here], pairwise apart, and appends errors; it does
    not write to the storage of the tasks it collects. *)
Definition walker_ok (W : path -> value -> walk_acc -> value * walk_acc) : Prop :=
  forall here sv acc sv' acc',
    W here sv acc = (sv', acc') ->
    exists new errs,
      acc' = (acc.1 ++ new, acc.2 ++ errs) /\
      Forall (fun fi => strictly_below here (fieldValue fi)) new /\
      disjoint_paths (List.map fieldValue new) /\
      keeps_tasks here sv sv' new.

(** Where a task collected by the first loop from field [k] is stored:
    inside the embedded struct, or at the tagged field itself. *)
Definition from_first (here : path) (k : nat) (f : sfield gotype) (p : path) : Prop :=
  (fanon f && is_struct (ftype f) = true /\ strictly_below (here ++ [Fld k]) p) \/
  (fanon f && is_struct (ftype f) = false /\ has_tag f = true /\ p = here ++ [Fld k]).

(** The struct type the second loop may walk for a field of type [t]. *)
Definition walked_type (t : gotype) : gotype :=
  match t with TPtr e => e | _ => t end.

(** Where a task collected by the second loop from field [k] is stored. *)
Definition from_second (here : path) (k : nat) (f : sfield gotype) (p : path) : Prop :=
  fanon f = false /\ has_tag f = false /\ strictly_below (here ++ [Fld k]) p /\
  hasSecretTags (walked_type (ftype f)) = true.

(** The fields the second loop looks into. *)
Definition plain_untagged (f : sfield gotype) : Prop :=
  fanon f = false /\ fexported f = true /\ ftag f = None.

End WithStdLib.

End WalkerSpec.
Export WalkerSpec.


(* ================================================================= *)
(** ** Vocabulary for the fetch plan *)

Module PlanSpec.

(** The result-map keys the assignment loop reads for a task. *)
Definition needed_keys (fi : fieldInfo) : list string :=
  let uri := URI (tag fi) in
  if isVersioned fi
  then [fetchKey_String (mkKey uri ""); fetchKey_String (mkKey uri "previous")]
  else [fetchKey_String (mkKey uri (Version (tag fi)))].

(** The map key of a planned fetch. *)
Definition spec_key (spec : fetchSpec) : string := fetchKey_String (key spec).

(** The key of the fetch whose failure with not-found an [optional] tag
    forgives. *)
Definition current_key (fi : fieldInfo) : string :=
  fetchKey_String (mkKey (URI (tag fi)) (if isVersioned fi then "" else Version (tag fi))).

(** The plan's invariant: [seen] holds exactly the keys of the planned
    fetches, and no key is planned twice. *)
Definition plan_inv (st : gset string * list fetchSpec) : Prop :=
  (forall k, k ∈ st.1 <-> In k (List.map spec_key st.2)) /\
  List.NoDup (List.map spec_key st.2).

End PlanSpec.
Export PlanSpec.


(* ================================================================= *)
(** ** Vocabulary for the assignment loop *)

Module AssignSpec.

Section WithStdLib.
Context `{StdLib}.

(** [dst'] differs from [dst] at most in the storage at or below [p]. *)
Definition written_below (p : path) (dst dst' : value) : Prop :=
  (forall q, incomparable p q -> lookup_path q dst' = lookup_path q dst) /\
  (forall q, ~ prefix_of p q -> non_nil_at q dst -> non_nil_at q dst').

End WithStdLib.

(** The names under which the assignment loop reports a task's errors. *)
Definition task_names (fi : fieldInfo) : list string :=
  [fieldName fi; fieldName fi +:+ ".Current"; fieldName fi +:+ ".Previous"].

Definition attributed (fi : fieldInfo) (e : error) : Prop :=
  exists name, error_field e = Some name /\ In name (task_names fi).

End AssignSpec.
Export AssignSpec.


(* ================================================================= *)
(** ** watcher.go

    One polling cycle, run as the poll worker runs it; the event channel
    is its buffer (oldest event first) with the capacity [Watch] gives it.
    The locks and the reader on the other end of the channel are outside
    this model. *)

Module Watcher.

Record ChangeEvent : Type := mkEvent {
  Field : string;
  Key : string;
  Provider : string;
  OldValue : string;
  NewValue : string
}.

Record fieldSnapshot : Type := mkSnapshot {
  fieldName : string;
  key : string;
  providerName : string;
  raw : string
}.

(** [make(chan ChangeEvent, 64)] *)
Definition capacity : nat := 64.

(** [select { case w.changes <- event: default: }] *)
Definition try_send (changes : list ChangeEvent) (event : ChangeEvent) : list ChangeEvent :=
  if Nat.ltb (length changes) capacity then changes ++ [event] else changes.

(** [for _, event := range events { select ... }] *)
Definition publish (changes : list ChangeEvent) (events : list ChangeEvent)
  : list ChangeEvent :=
  fold_left try_send events changes.

(** The comparison loop of [poll]: positions present in both snapshots. *)
Fixpoint diff (oldSnapshot newSnapshot : list fieldSnapshot) : list ChangeEvent :=
  match newSnapshot, oldSnapshot with
  | new_ :: newRest, old :: oldRest =>
      if String.eqb (raw old) (raw new_) then diff oldRest newRest
      else mkEvent (fieldName new_) (key new_) (providerName new_) (raw old) (raw new_)
             :: diff oldRest newRest
  | _, _ => []
  end.

Section WithJSON.
Context `{JSONLib} `{text : !TextLib}.

(** [valueToBytes] and [fieldToBytes].  [v.String()] of a value that is
    not a string prints the type between angle brackets; the switch is on
    the kind, which for a [TText] is behind [TextBytes]. *)
Definition kindToBytes (ft : gotype) (v : value) : string :=
  match ft, v with
  | TText name, _ => TextBytes name v
  | TString, VString s => s
  | TBytes, VBytes b => b
  | TBool, VBool b => if b then "true" else "false"
  | TDuration, VInt n => DurationString n
  | TInt _, VInt n => FormatInt n
  | TUint _, VUint n => FormatUint n
  | TFloat _, VFloat x => FormatFloat x
  | _, _ => "<" +:+ type_name ft +:+ " Value>"
  end.

Definition valueToBytes (ft : gotype) (v : value) : string :=
  match ft with
  | TPtr elem =>
      match v with
      | VPtr w => kindToBytes elem w
      | _ => ""
      end
  | _ => kindToBytes ft v
  end.

Definition fieldToBytes (dst : value) (fi : fieldInfo) : string :=
  if isVersioned fi then
    valueToBytes (field_type (fieldType fi) 0)
                 (default VOther (lookup_path (fieldValue fi ++ [Fld 0%nat]) dst))
  else
    valueToBytes (fieldType fi) (default VOther (lookup_path (fieldValue fi) dst)).

(** [takeSnapshot] of the struct of type [t]: the record as the walk
    leaves it, and the snapshot. *)
Definition takeSnapshot (cfg : resolverConfig) (t : gotype) (dst : value)
  : value * list fieldSnapshot :=
  let '(dst1, (fields, _)) := collectFields cfg t [] dst ([], []) in
  (dst1,
   List.map (fun fi =>
               let providerName :=
                 if String.eqb (Resolver.providerName fi) "" then Scheme (tag fi)
                 else Resolver.providerName fi in
               mkSnapshot (Resolver.fieldName fi) (Tag.Key (tag fi)) providerName
                          (fieldToBytes dst1 fi))
            fields).

(** [dstFields[i].fieldValue.Set(tmpFields[i].fieldValue)] for every [i]
    in range of both. *)
Fixpoint copy_fields (tmp : value) (dstFields tmpFields : list fieldInfo) (dst : value)
  : value :=
  match dstFields, tmpFields with
  | d :: dstRest, t :: tmpRest =>
      let dst' :=
        match lookup_path (fieldValue t) tmp with
        | Some v => update_path (fieldValue d) (fun _ => v) dst
        | None => dst
        end in
      copy_fields tmp dstRest tmpRest dst'
  | _, _ => dst
  end.

(** [poll] for a live record [dst] of struct type [t]: the live record
    and the channel afterwards, and the snapshot returned ([[]] is nil).
    [None] stands for a panic of [Resolve]. *)
Definition poll (cfg : resolverConfig) (t : gotype) (dst : value)
           (oldSnapshot : list fieldSnapshot) (changes : list ChangeEvent)
  : option (value * list ChangeEvent * list fieldSnapshot) :=
  let tmp := VPtr (zero t) in
  match Resolve cfg (TPtr t) tmp with
  | None => None
  | Some (_, _ :: _) => Some (dst, changes, [])
  | Some (tmp1, []) =>
      let tmpElem := match tmp1 with VPtr elem => elem | _ => tmp1 end in
      let '(tmp2, newSnapshot) := takeSnapshot cfg t tmpElem in
      let events := diff oldSnapshot newSnapshot in
      match events with
      | [] => Some (dst, changes, newSnapshot)
      | _ :: _ =>
          let '(tmp3, (tmpFields, _)) := collectFields cfg t [] tmp2 ([], []) in
          let '(dst1, (dstFields, _)) := collectFields cfg t [] dst ([], []) in
          let dst2 := copy_fields tmp3 dstFields tmpFields dst1 in
          Some (dst2, publish changes events, newSnapshot)
      end
  end.

(** The ticker case of [pollLoop]: the state is the live record, the
    snapshot and the channel. *)
Definition tick (cfg : resolverConfig) (t : gotype)
           (st : value * list fieldSnapshot * list ChangeEvent)
  : option (value * list fieldSnapshot * list ChangeEvent) :=
  let '(dst, snapshot, changes) := st in
  match poll cfg t dst snapshot changes with
  | None => None
  | Some (dst', changes', newSnapshot) =>
      Some (dst', match newSnapshot with [] => snapshot | _ :: _ => newSnapshot end, changes')
  end.

End WithJSON.

End Watcher.

(** *** The overflow policy as it is described *)

Module WatcherSpec.
Import Watcher.

(** "An overflowed event channel drops the oldest pending events": the
    queue after sending to a full channel would be the pending events but
    the oldest, followed by the new one. *)
Definition send_dropping_oldest (changes : list ChangeEvent) (event : ChangeEvent)
  : list ChangeEvent :=
  if Nat.ltb (length changes) capacity then changes ++ [event]
  else List.tl changes ++ [event].

End WatcherSpec.


(* ================================================================= *)
(** ** Concrete records used in examples *)

Module Samples.

(** Two fields whose fetch keys differ in both components, [("a@b", "")]
    and [("a", "b")]. *)
Definition collision_record : gotype :=
  TStruct "Config" [tagged "A" TString "a@b"; tagged "B" TString "a,version=b"].

Definition collision_provider : Provider :=
  versioned_provider [("a@b", "plain-secret")] [("a@b", "versioned-secret")].

Definition collision_config : resolverConfig :=
  mkConfig (Some collision_provider) ∅ 10.

(** An optional pointer field missing from the backend, beside an
    untagged field that keeps its value. *)
Definition optional_record : gotype :=
  TStruct "Config" [untagged "Port" (TInt 64);
                    tagged "Missing" (TPtr TString) "no-key,optional"].

Definition empty_config : resolverConfig :=
  mkConfig (Some (plain_provider [])) ∅ 10.

(** A versioned pair whose previous version is missing. *)
Definition pair_record (inner : gotype) : gotype :=
  TStruct "Config" [tagged "Key" (Versioned inner) "api-key"].

Definition pair_config (current : string) : resolverConfig :=
  mkConfig (Some (versioned_provider [("api-key", current)] [])) ∅ 10.

(** An untagged pointer to a struct without tagged fields. *)
Definition nested_record : gotype :=
  TStruct "Config" [tagged "Name" TString "name";
                    untagged "Sub" (TPtr (TStruct "Sub" [untagged "X" TString]))].

Definition name_config : resolverConfig :=
  mkConfig (Some (plain_provider [("name", "n")])) ∅ 10.

(** A record with one required secret, missing from the backend. *)
Definition required_record : gotype :=
  TStruct "Config" [tagged "Alpha" TString "key-a"].

(** The tasks the walker collects for the sample records. *)
Definition missing_task : fieldInfo :=
  mkFieldInfo "Missing" [Fld 1%nat] (TPtr TString) (mkTag "" "no-key" "" true "")
              (plain_provider []) "default" false.

Definition pair_task (inner : gotype) (current : string) : fieldInfo :=
  mkFieldInfo "Key" [Fld 0%nat] (Versioned inner) (mkTag "" "api-key" "" false "")
              (versioned_provider [("api-key", current)] []) "default" true.

(** The words [strconv.ParseBool] accepts. *)
Definition true_words : list string := ["1"; "t"; "T"; "true"; "TRUE"; "True"].
Definition false_words : list string := ["0"; "f"; "F"; "false"; "FALSE"; "False"].

(** Every byte is one of the six ASCII white-space characters. *)
Fixpoint all_space1 (s : string) : bool :=
  match s with
  | "" => true
  | String a s' => is_space1 a && all_space1 s'
  end.

(** A 7-bit byte that is not white space. *)
Definition plain_byte (a : ascii) : bool :=
  Nat.ltb (nat_of_ascii a) 128 && negb (is_space1 a).

Definition old_event : Watcher.ChangeEvent := Watcher.mkEvent "Val" "k" "default" "v0" "v1".
Definition new_event : Watcher.ChangeEvent := Watcher.mkEvent "Val" "k" "default" "v1" "v2".

End Samples.
Export Samples.


(* ================================================================= *)
(** ** resolver.go: [Validate]

    [Validate] looks at the type of the record only.  In [isSupportedType],
    as in [setField], [TSlice] stands for the slices whose elements are
    not bytes. *)

Module Validation.

Section WithText.
Context `{text : TextLib}.

(** [isSupportedType]: one pointer is dereferenced, then the text
    unmarshalers and the kinds [setField] converts to. *)
Definition isSupportedType (t : gotype) : bool :=
  let t := match t with TPtr e => e | _ => t end in
  match t with
  | TText _ => true
  | TStruct name _ => implementsTextUnmarshaler name
  | TString => true
  | TBool => true
  | TInt _ | TDuration => true
  | TUint _ => true
  | TFloat _ => true
  | TBytes => true
  | TSlice _ => false
  | _ => false
  end.

Section Fields.
Variable cfg : resolverConfig.
Variable rec : gotype -> list error -> list error.

(** The body of the loop of [validateStruct] for an exported field with
    a [secret] tag. *)
Definition validate_tagged (field : sfield gotype) (tagStr : string) (errs : list error)
  : list error :=
  match parseTag tagStr with
  | inr err => errs ++ [ErrField (fname field) err]
  | inl tag =>
      let errs1 :=
        if negb (String.eqb (Scheme tag) "") then
          match providers cfg !! Scheme tag with
          | None => errs ++ [ErrUnknownProvider (fname field) (Scheme tag) (URI tag)]
          | Some _ => errs
          end
        else
          match defaultProvider cfg with
          | None => errs ++ [ErrNoDefaultProvider (fname field) (Tag.Key tag)]
          | Some _ => errs
          end in
      let ft := ftype field in
      if isVersionedType ft then
        if negb (isSupportedType (field_type ft 0))
        then errs1 ++ [ErrUnsupportedType (fname field) (type_name ft)]
        else errs1
      else if negb (isSupportedType ft)
           then errs1 ++ [ErrUnsupportedType (fname field) (type_name ft)]
           else errs1
  end.

(** The loop of [validateStruct] over the fields of a struct type. *)
Fixpoint validate_fields (fs : list (sfield gotype)) (errs : list error) {struct fs}
  : list error :=
  match fs with
  | [] => errs
  | field :: fs' =>
      if fanon field then
        match ftype field with
        | TPtr ft =>
            if is_struct ft then validate_fields fs' (rec ft errs)
            else validate_fields fs' errs
        | ft =>
            if is_struct ft then validate_fields fs' (rec (ftype field) errs)
            else validate_fields fs' errs
        end
      else if negb (fexported field) then validate_fields fs' errs
      else
        match ftag field with
        | None =>
            match ftype field with
            | TPtr ft =>
                if is_struct ft && hasSecretTags ft then validate_fields fs' (rec ft errs)
                else validate_fields fs' errs
            | ft =>
                if is_struct ft && hasSecretTags (ftype field)
                then validate_fields fs' (rec (ftype field) errs)
                else validate_fields fs' errs
            end
        | Some tagStr => validate_fields fs' (validate_tagged field tagStr errs)
        end
  end.

End Fields.

Fixpoint validateStruct (cfg : resolverConfig) (st : gotype) (errs : list error) {struct st}
  : list error :=
  match st with
  | TStruct _ fs => validate_fields cfg (validateStruct cfg) fs errs
  | _ => errs
  end.

(** [Validate]: the joined errors ([[]] is the nil error).  [dst] is a
    value of type [t]. *)
Definition Validate (cfg : resolverConfig) (t : gotype) (dst : value) : list error :=
  match t, dst with
  | TPtr elemType, VPtr _ =>
      if negb (is_struct elemType)
      then [ErrDst "secrets: dst must point to a struct"]
      else validateStruct cfg elemType []
  | _, _ => [ErrDst "secrets: dst must be a non-nil pointer"]
  end.

End WithText.

End Validation.
Export Validation.

(* ================================================================= *)
(** ** secrets.go and resolver.go: the options and [NewResolver]

    An option is a function on the configuration; a [Resolver] is its
    configuration. *)

Module Options.

Definition Option : Type := resolverConfig -> resolverConfig.

Definition WithDefault (p : Provider) : Option :=
  fun c => mkConfig (Some p) (providers c) (parallelism c).

Definition WithProvider (scheme : string) (p : Provider) : Option :=
  fun c => mkConfig (defaultProvider c) (<[scheme := p]> (providers c)) (parallelism c).

Definition WithParallelism (n : Z) : Option :=
  fun c => mkConfig (defaultProvider c) (providers c) (if n <? 1 then 1 else n).

Definition NewResolver (opts : list Option) : resolverConfig :=
  let cfg := fold_left (fun c opt => opt c) opts (mkConfig None ∅ 0) in
  if parallelism cfg =? 0 then mkConfig (defaultProvider cfg) (providers cfg) 10 else cfg.

(** The options the package offers. *)
Inductive package_option : Option -> Prop :=
| option_default p : package_option (WithDefault p)
| option_provider scheme p : package_option (WithProvider scheme p)
| option_parallelism n : package_option (WithParallelism n).

(** The option registers no provider for [scheme]. *)
Definition leaves_scheme (scheme : string) (o : Option) : Prop :=
  (exists p, o = WithDefault p) \/
  (exists s p, o = WithProvider s p /\ s <> scheme) \/
  (exists n, o = WithParallelism n).

End Options.
Export Options.

(* ================================================================= *)
(** ** Vocabulary for what the walker and the resolver leave alone *)

Module FrameSpec.

Section WithStdLib.
Context `{StdLib}.

(** A value that is neither a pointer nor a struct. *)
Definition scalar (v : value) : bool :=
  match v with
  | VNil | VPtr _ | VStruct _ => false
  | _ => true
  end.

(** Every scalar stored in [sv] is stored at the same place in [sv']. *)
Definition keeps_scalars (sv sv' : value) : Prop :=
  forall q v, lookup_path q sv = Some v -> scalar v = true -> lookup_path q sv' = Some v.

End WithStdLib.

Section WithText.
Context `{text : TextLib}.

(** The conversion to the type is its own [UnmarshalText]. *)
Definition unmarshals_text (ft : gotype) : bool :=
  match ft with
  | TText _ => true
  | TStruct name _ => implementsTextUnmarshaler name
  | _ => false
  end.

End WithText.

(** Every embedded field, anywhere in the type, is a struct. *)
Fixpoint embeds_structs_only (t : gotype) : bool :=
  match t with
  | TStruct _ fs =>
      forallb (fun f => (negb (fanon f) || is_struct (ftype f)) &&
                        embeds_structs_only (ftype f)) fs
  | TPtr e => embeds_structs_only e
  | _ => true
  end.

(** [errors.As(err, *ErrVersioningNotSupported)] on an error of the walk. *)
Definition is_versioning_error (e : error) : bool :=
  match e with ErrVersioningNotSupported _ _ => true | _ => false end.

Definition is_unsupported_type (e : error) : bool :=
  match e with ErrUnsupportedType _ _ => true | _ => false end.

(** How a task is bound to the configuration it was collected under. *)
Definition bound_task (cfg : resolverConfig) (fi : fieldInfo) : Prop :=
  Tag.Key (tag fi) <> "" /\
  (if String.eqb (Scheme (tag fi)) ""
   then defaultProvider cfg = Some (Resolver.provider fi) /\
        Resolver.providerName fi = "default"
   else providers cfg !! Scheme (tag fi) = Some (Resolver.provider fi) /\
        Resolver.providerName fi = Scheme (tag fi)) /\
  isVersioned fi = isVersionedType (fieldType fi) /\
  (isVersioned fi = true -> is_versioned_provider (Resolver.provider fi) = true).

End FrameSpec.
Export FrameSpec.


(** *** Vocabulary for option lists *)

Module OptionSpec.

(** The option does not set the parallelism. *)
Definition leaves_parallelism (o : Option) : Prop :=
  (exists p, o = WithDefault p) \/ (exists s p, o = WithProvider s p).

(** The option does not set the default provider. *)
Definition leaves_default (o : Option) : Prop :=
  (exists s p, o = WithProvider s p) \/ (exists n, o = WithParallelism n).

End OptionSpec.
Export OptionSpec.


(** *** Vocabulary for invariants of the walk *)

Module WalkInvariants.

Section WithStdLib.
Context `{StdLib}.

(** The walker [W] preserves the property [I] of its accumulator. *)
Definition preserves (I : walk_acc -> Prop)
           (W : path -> value -> walk_acc -> value * walk_acc) : Prop :=
  forall here sv acc sv' acc', W here sv acc = (sv', acc') -> I acc -> I acc'.

(** The walker [W] adds nothing to its accumulator. *)
Definition collects_nothing (W : path -> value -> walk_acc -> value * walk_acc) : Prop :=
  forall here sv acc sv' acc', W here sv acc = (sv', acc') -> acc' = acc.

(** The walker [W] keeps the scalars of the value it walks. *)
Definition walk_keeps_scalars (W : path -> value -> walk_acc -> value * walk_acc) : Prop :=
  forall here sv acc sv' acc', W here sv acc = (sv', acc') -> keeps_scalars sv sv'.

End WithStdLib.

Section WithText.
Context `{text : TextLib}.

(** The unsupported-type error [validateStruct] reports for the field of
    a task, if it reports one. *)
Definition task_type_errors (fi : fieldInfo) : list error :=
  if isVersioned fi then
    if negb (isSupportedType (field_type (fieldType fi) 0))
    then [ErrUnsupportedType (Resolver.fieldName fi) (type_name (fieldType fi))]
    else []
  else
    if negb (isSupportedType (fieldType fi))
    then [ErrUnsupportedType (Resolver.fieldName fi) (type_name (fieldType fi))]
    else [].

End WithText.

(** A field of a struct type has a [secret] tag or is, directly or behind
    one pointer, a struct type with tagged fields in its subtree: the
    test [hasSecretTags] makes for each field. *)
Definition field_has_tags (f : sfield gotype) : bool :=
  match ftag f with
  | Some _ => true
  | None =>
      match ftype f with
      | TPtr ft => is_struct ft && hasSecretTags ft
      | ft => is_struct ft && hasSecretTags (ftype f)
      end
  end.

End WalkInvariants.
Export WalkInvariants.


(** *** One iteration of each loop of [collectFields] *)

Module WalkSteps.

Section WithStdLib.
Context `{StdLib}.
Variable cfg : resolverConfig.
Variable rec : gotype -> path -> value -> walk_acc -> value * walk_acc.
Variable here : path.

(** What an iteration of the first loop does for field [i]: it walks an
    embedded struct in place, or passes the field to [collect_tagged]. *)
Inductive first_step (i : nat) (f : sfield gotype) (vs : list value) (acc : walk_acc)
  : list value -> walk_acc -> Prop :=
| first_embedded fv fv' acc1 :
    fanon f && is_struct (ftype f) = true -> vs !! i = Some fv ->
    rec (ftype f) (here ++ [Fld i]) fv acc = (fv', acc1) ->
    first_step i f vs acc (<[i := fv']> vs) acc1
| first_absent :
    fanon f && is_struct (ftype f) = true -> vs !! i = None ->
    first_step i f vs acc vs acc
| first_tagged :
    fanon f && is_struct (ftype f) = false ->
    first_step i f vs acc vs (collect_tagged cfg here i f acc).

(** What an iteration of the second loop does for field [i]: nothing, or,
    for an exported, non-embedded, untagged field, the allocation of a nil
    pointer to a struct and the walk of a struct that has tagged fields. *)
Inductive second_step (i : nat) (f : sfield gotype) (vs : list value) (acc : walk_acc)
  : list value -> walk_acc -> Prop :=
| second_nothing : second_step i f vs acc vs acc
| second_allocated e :
    plain_untagged f -> ftype f = TPtr e -> is_struct e = true ->
    hasSecretTags e = false -> vs !! i = Some VNil ->
    second_step i f vs acc (<[i := VPtr (zero e)]> vs) acc
| second_allocated_walked e w acc1 :
    plain_untagged f -> ftype f = TPtr e -> is_struct e = true ->
    hasSecretTags e = true -> vs !! i = Some VNil ->
    rec e (here ++ [Fld i; Deref]) (zero e) acc = (w, acc1) ->
    second_step i f vs acc (<[i := VPtr w]> vs) acc1
| second_pointee_walked e actualVal w acc1 :
    plain_untagged f -> ftype f = TPtr e -> is_struct e = true ->
    hasSecretTags e = true -> vs !! i = Some (VPtr actualVal) ->
    rec e (here ++ [Fld i; Deref]) actualVal acc = (w, acc1) ->
    second_step i f vs acc (<[i := VPtr w]> vs) acc1
| second_struct_walked actualVal w acc1 :
    plain_untagged f -> is_struct (ftype f) = true ->
    hasSecretTags (ftype f) = true -> vs !! i = Some actualVal ->
    rec (ftype f) (here ++ [Fld i]) actualVal acc = (w, acc1) ->
    second_step i f vs acc (<[i := w]> vs) acc1.

End WithStdLib.

End WalkSteps.
Export WalkSteps.


(** *** Vocabulary for [Validate] *)

Module ValidateSpec.

Section WithText.
Context `{text : TextLib}.

(** The errors that stand for a mistake in the record type or in the
    configuration: an unknown scheme, a bare key without a default
    provider, a field type that cannot be converted to. *)
Definition is_configuration_error (e : error) : bool :=
  match e with
  | ErrUnknownProvider _ _ _ | ErrNoDefaultProvider _ _ | ErrUnsupportedType _ _ => true
  | _ => false
  end.

(** What [validateStruct] reports for one field of a struct type. *)
Definition field_errors (cfg : resolverConfig) (f : sfield gotype) : list error :=
  validate_fields cfg (validateStruct cfg) [f] [].

(** The accumulator of a walk holds only errors in [S], and only tasks
    whose unsupported-type error, if any, is in [S]. *)
Definition within (S : error -> Prop) (acc : walk_acc) : Prop :=
  Forall S acc.2 /\
  Forall (fun fi => forall e, In e (task_type_errors fi) -> S e) acc.1.

End WithText.

End ValidateSpec.
Export ValidateSpec.


(** *** Vocabulary for the text of numbers *)

Module NumberText.

(** Every byte is a decimal digit. *)
Fixpoint all_digits (s : string) : bool :=
  match s with
  | "" => true
  | String a s' =>
      match digit_of a with Some _ => all_digits s' | None => false end
  end.

Section WithStdLib.
Context `{StdLib}.

(** A value of a string, byte-slice, boolean or integer type that fits
    the type: an integer within the width of its type. *)
Definition fits (ft : gotype) (v : value) : Prop :=
  match ft, v with
  | TString, VString _ => True
  | TBytes, VBytes _ => True
  | TBool, VBool _ => True
  | TInt bits, VInt n => 0 < bits /\ - 2 ^ (bits - 1) <= n < 2 ^ (bits - 1)
  | TUint bits, VUint n => 0 <= n < 2 ^ bits
  | _, _ => False
  end.

End WithStdLib.

End NumberText.
Export NumberText.


(** *** More concrete records *)

Module MoreSamples.

Definition name_task : fieldInfo :=
  mkFieldInfo "Name" [Fld 0%nat] TString (mkTag "" "name" "" false "")
              (plain_provider [("name", "n")]) "default" false.

Definition alpha_task : fieldInfo :=
  mkFieldInfo "Alpha" [Fld 0%nat] TString (mkTag "" "key-a" "" false "")
              (plain_provider []) "default" false.

(** A port that is not a secret beside a name that is one. *)
Definition watched_record : gotype :=
  TStruct "Config" [untagged "Port" (TInt 64); tagged "Name" TString "name"].

Definition watched_task : fieldInfo :=
  mkFieldInfo "Name" [Fld 1%nat] TString (mkTag "" "name" "" false "")
              (plain_provider [("name", "n")]) "default" false.

(** Two fields that name the same secret. *)
Definition alias_record : gotype :=
  TStruct "Config" [tagged "Name" TString "name"; tagged "Alias" TString "name"].

Definition alias_task : fieldInfo :=
  mkFieldInfo "Alias" [Fld 1%nat] TString (mkTag "" "name" "" false "")
              (plain_provider [("name", "n")]) "default" false.

(** An optional secret beside a nested struct that has a field of the
    same name, whose tag does not parse. *)
Definition shared_name_record : gotype :=
  TStruct "Config"
    [tagged "Token" TString "token,optional";
     untagged "Backup" (TStruct "Backup" [tagged "Token" TString "backup,required"])].






(** A secret of a scheme that no provider is registered for. *)
Definition unknown_scheme_record : gotype :=
  TStruct "Config" [tagged "Token" TString "vault://token"].

End MoreSamples.
Export MoreSamples.



(** *** The names the walk can report

    The walk of a struct type reads the tag of every exported field that
    has one, in the struct itself and in the structs it enters; each of
    these fields yields one task or one error, under the field's name. *)

Module WalkNames.

Section Fields.
Variable rec : gotype -> list string.

(** The names the first loop can report for a field: those of the
    embedded struct it walks, or the field's own when it is exported and
    tagged. *)
Definition first_names (f : sfield gotype) : list string :=
  if fanon f && is_struct (ftype f) then rec (ftype f)
  else if fexported f && has_tag f then [fname f] else [].

(** The names the second loop can report for a field: those of the
    struct it walks, which has tagged fields in its subtree. *)
Definition second_names (f : sfield gotype) : list string :=
  if fanon f || negb (fexported f) || has_tag f then []
  else
    match ftype f with
    | TPtr e => if is_struct e && hasSecretTags e then rec e else []
    | ft => if is_struct ft && hasSecretTags (ftype f) then rec (ftype f) else []
    end.

End Fields.

(** The names of the secret-tagged fields the walk of [t] visits, one
    entry for each field. *)
Fixpoint tagged_names (t : gotype) : list string :=
  match t with
  | TStruct _ fs =>
      flat_map (first_names tagged_names) fs ++ flat_map (second_names tagged_names) fs
  | _ => []
  end.

(** The names in an accumulator: those of its tasks and those its errors
    carry. *)
Definition walk_names (acc : walk_acc) : list string :=
  (Resolver.fieldName <$> acc.1) ++ omap error_field acc.2.

(** How often a name occurs in a list of names. *)
Definition occurrences (name : string) (l : list string) : nat :=
  length (List.filter (String.eqb name) l).

Section WithStdLib.
Context `{StdLib}.

(** The walker [W] adds tasks and errors under names drawn from [names],
    each entry of [names] used at most once. *)
Definition accounts (names : list string)
           (W : path -> value -> walk_acc -> value * walk_acc) : Prop :=
  forall here sv acc sv' acc',
    W here sv acc = (sv', acc') ->
    exists N, walk_names acc' ≡ₚ walk_names acc ++ N /\ N ⊆+ names.

End WithStdLib.

End WalkNames.
Export WalkNames.



(** *** The structs the walk enters

    [collectFields] runs its two loops in the struct it is called on and
    in every struct it calls itself on: an embedded struct, and the struct
    of an exported, non-embedded field without a tag, directly or behind a
    pointer, when [hasSecretTags] finds a tagged field in its subtree. *)

Module WalkStructs.

(** One recursive call: from a struct type, along a place of its value,
    to the struct type walked there. *)
Inductive walks_into : gotype -> path -> gotype -> Prop :=
| into_embedded n fs i f :
    fs !! i = Some f -> fanon f && is_struct (ftype f) = true ->
    walks_into (TStruct n fs) [Fld i] (ftype f)
| into_struct n fs i f :
    fs !! i = Some f -> plain_untagged f -> is_struct (ftype f) = true ->
    hasSecretTags (ftype f) = true ->
    walks_into (TStruct n fs) [Fld i] (ftype f)
| into_pointee n fs i f e :
    fs !! i = Some f -> plain_untagged f -> ftype f = TPtr e -> is_struct e = true ->
    hasSecretTags e = true ->
    walks_into (TStruct n fs) [Fld i; Deref] e.

(** [enters t p s]: the walk of a record of type [t] enters, at the place
    [p] of the record, a struct of type [s]. *)
Inductive enters : gotype -> path -> gotype -> Prop :=
| enters_here t : enters t [] t
| enters_step t seg s p s' :
    walks_into t seg s -> enters s p s' -> enters t (seg ++ p) s'.



Section WithStdLib.
Context `{StdLib}.


(** The walker [W] of the type [t], called at a place where the walk from
    [root] enters [t], keeps the property [Q] of the tasks and errors
    collected so far. *)
Definition walk_keeps (root : gotype) (Q : walk_acc -> Prop) (t : gotype)
           (W : path -> value -> walk_acc -> value * walk_acc) : Prop :=
  forall here sv acc sv' acc',
    enters root here t -> W here sv acc = (sv', acc') -> Q acc -> Q acc'.


(** What the first loop of [collectFields] finds at fault in the field
    [f], and the error it reports for it: a tag that does not parse, a
    scheme with no registered provider, no scheme and no default
    provider, a versioned pair bound to a provider without versions. *)
Inductive at_fault (cfg : resolverConfig) (f : sfield gotype) : error -> Prop :=
| fault_tag tagStr err :
    ftag f = Some tagStr -> parseTag tagStr = inr err ->
    at_fault cfg f (ErrField (fname f) err)
| fault_unknown_provider tagStr tag :
    ftag f = Some tagStr -> parseTag tagStr = inl tag ->
    Scheme tag <> "" -> providers cfg !! Scheme tag = None ->
    at_fault cfg f (ErrUnknownProvider (fname f) (Scheme tag) (URI tag))
| fault_no_default tagStr tag :
    ftag f = Some tagStr -> parseTag tagStr = inl tag ->
    Scheme tag = "" -> defaultProvider cfg = None ->
    at_fault cfg f (ErrNoDefaultProvider (fname f) (Key tag))
| fault_versioning tagStr tag p pn :
    ftag f = Some tagStr -> parseTag tagStr = inl tag ->
    (Scheme tag <> "" /\ providers cfg !! Scheme tag = Some p /\ pn = Scheme tag) \/
    (Scheme tag = "" /\ defaultProvider cfg = Some p /\ pn = "default") ->
    isVersionedType (ftype f) = true -> is_versioned_provider p = false ->
    at_fault cfg f (ErrVersioningNotSupported (fname f) pn).

(** The task was collected from a field, stored at the task's place in a
    struct the walk from [root] enters, in which nothing is at fault. *)
Definition faultless (cfg : resolverConfig) (root : gotype) (fi : fieldInfo) : Prop :=
  exists p n fs j g,
    fieldValue fi = p ++ [Fld j] /\ enters root p (TStruct n fs) /\ fs !! j = Some g /\
    forall e, ~ at_fault cfg g e.

(** The error [e] reports what is at fault in a field, of a struct the
    walk from [root] enters, that is stored elsewhere than at [q]. *)
Definition blames_elsewhere (cfg : resolverConfig) (root : gotype) (q : path)
           (e : error) : Prop :=
  exists p n fs i f,
    enters root p (TStruct n fs) /\ fs !! i = Some f /\
    at_fault cfg f e /\ p ++ [Fld i] <> q.

(** The error [e] is for an exported field with a [secret] tag, of a
    struct the walk from [root] enters, and reports what is at fault in
    that field, under its name. *)
Definition blames (cfg : resolverConfig) (root : gotype) (e : error) : Prop :=
  exists p n fs i f,
    enters root p (TStruct n fs) /\ fs !! i = Some f /\
    fexported f = true /\ has_tag f = true /\
    at_fault cfg f e /\ error_field e = Some (fname f).


End WithStdLib.

End WalkStructs.
Export WalkStructs.


(* ################################################################# *)
(** * Theorems *)

Example parseTag_all :
  parseTag "awssm://prod/db#password,optional,version=2"
  = inl (mkTag "awssm" "prod/db" "password" true "2").
Proof. reflexivity. Qed.

Example parseTag_file :
  parseTag "file:///etc/tls/cert.pem" = inl (mkTag "file" "/etc/tls/cert.pem" "" false "").
Proof. reflexivity. Qed.

(* ================================================================= *)
(** ** Strings *)

Section StringFacts.

Lemma sapp_nil_r (s : string) : s +:+ "" = s.
Proof. induction s as [|a s IH]; simpl; [reflexivity | now rewrite IH]. Qed.

Lemma sapp_assoc (a b c : string) : (a +:+ b) +:+ c = a +:+ b +:+ c.
Proof. induction a as [|x a IH]; simpl; [reflexivity | now rewrite IH]. Qed.

Lemma sapp_length (a b : string) :
  String.length (a +:+ b) = (String.length a + String.length b)%nat.
Proof. induction a as [|x a IH]; simpl; [reflexivity | now rewrite IH]. Qed.

Lemma sapp_inv_head (a b c : string) : a +:+ b = a +:+ c -> b = c.
Proof. induction a as [|x a IH]; simpl; intros H; [exact H | injection H; auto]. Qed.

Lemma str_take_drop (n : nat) (s : string) : str_take n s +:+ str_drop n s = s.
Proof.
  revert s; induction n as [|n IH]; intros [|a s]; simpl; try reflexivity.
  now rewrite IH.
Qed.

Lemma str_take_length_le (n : nat) (s : string) : (String.length (str_take n s) <= n)%nat.
Proof.
  revert s; induction n as [|n IH]; intros [|a s]; simpl; try lia.
  specialize (IH s). lia.
Qed.

Lemma str_take_app (a b : string) : str_take (String.length a) (a +:+ b) = a.
Proof. induction a as [|x a IH]; simpl; [now destruct b | now rewrite IH]. Qed.

Lemma str_drop_app (a b : string) : str_drop (String.length a) (a +:+ b) = b.
Proof. induction a as [|x a IH]; simpl; [reflexivity | exact IH]. Qed.

Lemma HasPrefix_iff (s p : string) :
  HasPrefix s p = true <-> exists r, s = p +:+ r.
Proof.
  revert s; induction p as [|x p IH]; intros s; simpl.
  - split; [intros _; now exists s | reflexivity].
  - destruct s as [|a s].
    + split; [discriminate | intros [r Hr]; discriminate].
    + rewrite andb_true_iff, IH, Ascii.eqb_eq. split.
      * intros [-> [r ->]]. now exists r.
      * intros [r Hr]. injection Hr as -> ->. split; [reflexivity | now exists r].
Qed.

Lemma HasPrefix_false (s p : string) :
  HasPrefix s p = false <-> ~ exists r, s = p +:+ r.
Proof.
  rewrite <- HasPrefix_iff. destruct (HasPrefix s p); split; congruence.
Qed.

Lemma has_byte_cons (c a : ascii) (s : string) :
  has_byte c (String a s) <-> a = c \/ has_byte c s.
Proof.
  split.
  - intros [[|x u] [v H]]; simpl in H; injection H as -> ->.
    + now left.
    + right. now exists u, v.
  - intros [-> | [u [v ->]]].
    + now exists "", s.
    + now exists (String a u), v.
Qed.

Lemma has_byte_nil (c : ascii) : ~ has_byte c "".
Proof. intros [[|x u] [v H]]; discriminate. Qed.

Lemma LastIndex_None (s : string) (c : ascii) :
  LastIndex s c = None -> ~ has_byte c s.
Proof.
  induction s as [|a s IH]; simpl.
  - intros _. apply has_byte_nil.
  - destruct (LastIndex s c); [discriminate |].
    destruct (Ascii.eqb_spec a c); [discriminate |].
    intros _. rewrite has_byte_cons. intros [? | ?]; [congruence | now apply IH].
Qed.

Lemma LastIndex_Some (s : string) (c : ascii) (i : nat) :
  LastIndex s c = Some i ->
  s = str_take i s +:+ String c (str_drop (S i) s) /\ ~ has_byte c (str_drop (S i) s).
Proof.
  revert i; induction s as [|a s IH]; simpl; intros i; [discriminate |].
  destruct (LastIndex s c) as [j|] eqn:E.
  - intros [= <-]. destruct (IH j eq_refl) as [H1 H2]. simpl. split; [| exact H2].
    f_equal. exact H1.
  - destruct (Ascii.eqb_spec a c) as [-> |]; [| discriminate].
    intros [= <-]. simpl. split; [reflexivity | now apply LastIndex_None].
Qed.

Lemma occurs_cons (sep : string) (a : ascii) (s : string) :
  occurs sep (String a s) <->
  (exists r, String a s = sep +:+ r) \/ occurs sep s.
Proof.
  split.
  - intros [[|x u] [v H]]; simpl in H.
    + left. now exists v.
    + right. injection H as -> ->. now exists u, v.
  - intros [[r H] | [u [v ->]]].
    + exists "", r. exact H.
    + now exists (String a u), v.
Qed.

Lemma Index_None (s sep : string) : Index s sep = None -> ~ occurs sep s.
Proof.
  induction s as [|a s IH]; simpl.
  - destruct (HasPrefix "" sep) eqn:E; [discriminate |]. intros _ [u [v H]].
    apply HasPrefix_false in E. apply E.
    destruct u; simpl in H; [now exists v | discriminate].
  - destruct (HasPrefix (String a s) sep) eqn:E; [discriminate |].
    destruct (Index s sep) eqn:E'; [discriminate |]. intros _.
    rewrite occurs_cons. apply HasPrefix_false in E.
    intros [? | ?]; [now apply E | now apply IH].
Qed.

Lemma Index_Some (s sep : string) (i : nat) :
  Index s sep = Some i ->
  s = str_take i s +:+ sep +:+ str_drop (i + String.length sep) s /\
  forall a b, s = a +:+ sep +:+ b -> (i <= String.length a)%nat.
Proof.
  revert i; induction s as [|x s IH]; intros i; simpl.
  - destruct (HasPrefix "" sep) eqn:E; [| discriminate]. intros [= <-].
    apply HasPrefix_iff in E as [r Hr]. split; [| intros; lia].
    simpl. rewrite Hr at 1. f_equal. now rewrite Hr, str_drop_app.
  - destruct (HasPrefix (String x s) sep) eqn:E.
    + intros [= <-]. apply HasPrefix_iff in E as [r Hr]. split; [| intros; lia].
      cbn [str_take Nat.add]. rewrite Hr. cbn [append]. now rewrite str_drop_app.
    + destruct (Index s sep) as [j|] eqn:E'; [| discriminate]. intros [= <-].
      destruct (IH j eq_refl) as [H1 H2]. split.
      * cbn [str_take Nat.add str_drop append]. f_equal. exact H1.
      * intros [|y a] b Hab; simpl in Hab.
        -- apply HasPrefix_false in E. exfalso. apply E. now exists b.
        -- injection Hab as -> Hs. simpl. apply le_n_S. eapply H2, Hs.
Qed.

End StringFacts.

(* ================================================================= *)
(** ** The tag parser *)

Section TagFacts.

Lemma sapp_same_length (a b c d : string) :
  a +:+ b = c +:+ d -> String.length a = String.length c -> a = c /\ b = d.
Proof.
  revert c; induction a as [|x a IH]; intros [|y c]; simpl; try discriminate.
  - auto.
  - intros [= -> H] [= L]. destruct (IH _ H L) as [-> ->]. auto.
Qed.

Lemma split_fragment_functional (uri b1 f1 b2 f2 : string) :
  split_fragment uri b1 f1 -> split_fragment uri b2 f2 -> b1 = b2 /\ f1 = f2.
Proof.
  intros [Hn1 | b1' f1' E1 N1] [Hn2 | b2' f2' E2 N2]; auto.
  - exfalso. apply Hn1. now exists b2', f2'.
  - exfalso. apply Hn2. now exists b1', f1'.
  - subst uri. clear -E2 N1 N2. revert b2' E2.
    induction b1' as [|x b1 IH]; intros [|y b2]; simpl; intros E.
    + injection E as ->. auto.
    + injection E as <- ->. exfalso. apply N1. now exists b2, f2'.
    + injection E as -> <-. exfalso. apply N2. now exists b1, f1'.
    + injection E as -> E. destruct (IH _ E) as [-> ->]. auto.
Qed.

Lemma split_scheme_functional (body s1 k1 s2 k2 : string) :
  split_scheme body s1 k1 -> split_scheme body s2 k2 -> s1 = s2 /\ k1 = k2.
Proof.
  intros [Hn1 | s1' k1' E1 M1] [Hn2 | s2' k2' E2 M2]; auto.
  - exfalso. apply Hn1. now exists s2', k2'.
  - exfalso. apply Hn2. now exists s1', k1'.
  - pose proof (M1 _ _ E2). pose proof (M2 _ _ E1).
    assert (L : String.length s1' = String.length s2') by lia.
    rewrite E1 in E2. destruct (sapp_same_length _ _ _ _ E2 L) as [-> E3].
    split; [reflexivity |]. now apply sapp_inv_head in E3.
Qed.

Lemma tag_shape_functional (uri s1 k1 f1 s2 k2 f2 : string) :
  tag_shape uri s1 k1 f1 -> tag_shape uri s2 k2 f2 -> s1 = s2 /\ k1 = k2 /\ f1 = f2.
Proof.
  intros [b1 [F1 S1]] [b2 [F2 S2]].
  destruct (split_fragment_functional _ _ _ _ _ F1 F2) as [-> ->].
  destruct (split_scheme_functional _ _ _ _ _ S1 S2) as [-> ->]. auto.
Qed.

Lemma uri_components_shape (uri scheme key frag : string) :
  uri_components uri = (scheme, key, frag) -> tag_shape uri scheme key frag.
Proof.
  unfold uri_components, Cut.
  destruct (LastIndex uri "#") as [idx|] eqn:EL.
  - apply LastIndex_Some in EL as [E1 N1].
    destruct (Index (str_take idx uri) "://") as [i|] eqn:EI.
    + intros [= <- <- <-]. apply Index_Some in EI as [E2 M2].
      exists (str_take idx uri). split; [now apply sf_present |].
      apply ss_present; [exact E2 |].
      intros a b Hab. pose proof (M2 a b Hab).
      pose proof (str_take_length_le i (str_take idx uri)). lia.
    + intros [= <- <- <-]. apply Index_None in EI.
      exists (str_take idx uri). split; [now apply sf_present | now apply ss_absent].
  - apply LastIndex_None in EL.
    destruct (Index uri "://") as [i|] eqn:EI.
    + intros [= <- <- <-]. apply Index_Some in EI as [E2 M2].
      exists uri. split; [now apply sf_absent |].
      apply ss_present; [exact E2 |].
      intros a b Hab. pose proof (M2 a b Hab).
      pose proof (str_take_length_le i uri). lia.
    + intros [= <- <- <-]. apply Index_None in EI.
      exists uri. split; [now apply sf_absent | now apply ss_absent].
Qed.

Lemma known_option_dec (o : string) :
  known_option o <-> (String.eqb o "optional" || HasPrefix o "version=") = true.
Proof.
  unfold known_option. rewrite orb_true_iff, String.eqb_eq, HasPrefix_iff. tauto.
Qed.

Lemma parseOptions_err (opts : list string) (t : parsedTag) :
  is_err (parseOptions opts t) = true <-> Exists (fun o => ~ known_option o) opts.
Proof.
  revert t; induction opts as [|o opts IH]; intros t; cbn [parseOptions].
  - split; [discriminate | intros H; inversion H].
  - rewrite Exists_cons, known_option_dec.
    destruct (String.eqb o "optional"); cbn [orb].
    + rewrite IH. intuition congruence.
    + destruct (HasPrefix o "version=").
      * rewrite IH. intuition congruence.
      * cbn [is_err]. intuition congruence.
Qed.

Lemma parseOptions_frame (opts : list string) (t t' : parsedTag) :
  parseOptions opts t = inl t' ->
  Scheme t' = Scheme t /\ Key t' = Key t /\ Fragment t' = Fragment t.
Proof.
  revert t; induction opts as [|o opts IH]; intros t; cbn [parseOptions].
  - intros [= <-]. auto.
  - destruct (String.eqb o "optional").
    + intros H. apply IH in H. exact H.
    + destruct (HasPrefix o "version="); [| discriminate].
      intros H. apply IH in H. exact H.
Qed.

Lemma parseTag_unfold (raw uri : string) (opts : list string) :
  raw <> "" -> Split raw "," = uri :: opts ->
  parseTag raw =
    match parseOptions opts emptyTag with
    | inr e => inr e
    | inl t =>
        let '(scheme, key, frag) := uri_components uri in
        if String.eqb key "" then inr (ErrEmptyKey raw)
        else inl (mkTag scheme key frag (Optional t) (Version t))
    end.
Proof.
  intros Hne HS. unfold parseTag. apply String.eqb_neq in Hne. rewrite Hne, HS.
  destruct (parseOptions opts emptyTag) as [t|e] eqn:EP; [| reflexivity].
  apply parseOptions_frame in EP as [ES [_ EF]]. simpl in ES, EF. rewrite ES, EF.
  unfold uri_components.
  destruct (LastIndex uri "#"); destruct (Cut _ "://") as [[? ?] []]; reflexivity.
Qed.

Lemma split_at_join (c : ascii) (s : string) :
  Join (fst (split_at c s) :: snd (split_at c s)) (String c "") = s.
Proof.
  induction s as [|a s IH]; [reflexivity |].
  simpl split_at. destruct (split_at c s) as [h t]. simpl fst in *. simpl snd in *.
  destruct (Ascii.eqb_spec a c) as [-> |].
  - simpl fst; simpl snd. change (Join ("" :: h :: t) (String c ""))
      with ("" +:+ String c "" +:+ Join (h :: t) (String c "")).
    rewrite IH. reflexivity.
  - simpl fst; simpl snd. destruct t as [|x t].
    + simpl in *. now rewrite IH.
    + change (Join (String a h :: x :: t) (String c ""))
        with (String a (h +:+ String c "" +:+ Join (x :: t) (String c ""))).
      f_equal. exact IH.
Qed.

Lemma split_at_no_sep (c : ascii) (s : string) :
  Forall (fun p => ~ has_byte c p) (fst (split_at c s) :: snd (split_at c s)).
Proof.
  induction s as [|a s IH]; simpl.
  - repeat constructor. apply has_byte_nil.
  - destruct (split_at c s) as [h t]. simpl in IH.
    destruct (Ascii.eqb_spec a c) as [-> |]; simpl.
    + constructor; [apply has_byte_nil | exact IH].
    + inversion IH as [|? ? Hh Ht]; subst. constructor; [| exact Ht].
      rewrite has_byte_cons. tauto.
Qed.

End TagFacts.

(** C5. [parseTag] fails exactly when the tag is empty, the key left after
    stripping fragment and scheme is empty (as for [,optional] and
    [awssm://]), or an option is neither [optional] nor [version=...];
    when it succeeds, the fragment is what follows the last [#] of the
    URI part, the scheme what precedes the first [://], the key the rest. *)
Theorem parseTag_characterisation (raw : string) :
  exists uri opts,
    Split raw "," = uri :: opts /\
    Join (uri :: opts) "," = raw /\
    Forall (fun p => ~ has_byte "," p) (uri :: opts) /\
    (is_err (parseTag raw) = true <->
       raw = "" \/ (exists scheme frag, tag_shape uri scheme "" frag) \/
       Exists (fun o => ~ known_option o) opts) /\
    (forall t, parseTag raw = inl t ->
       tag_shape uri (Scheme t) (Key t) (Fragment t) /\ Key t <> "") /\
    is_err (parseTag ",optional") = true /\
    is_err (parseTag "awssm://") = true.
Proof.
  exists (fst (split_at "," raw)), (snd (split_at "," raw)).
  assert (HS : Split raw "," = fst (split_at "," raw) :: snd (split_at "," raw)).
  { unfold Split. now destruct (split_at "," raw). }
  split; [exact HS |]. split; [apply split_at_join |].
  split; [apply split_at_no_sep |].
  set (uri := fst (split_at "," raw)) in *. set (opts := snd (split_at "," raw)) in *.
  destruct (uri_components uri) as [[scheme key] frag] eqn:EC.
  pose proof (uri_components_shape _ _ _ _ EC) as Hshape.
  assert (Hkey : (exists s f, tag_shape uri s "" f) <-> key = "").
  { split.
    - intros [s [f H]]. now destruct (tag_shape_functional _ _ _ _ _ _ _ H Hshape) as [_ [<- _]].
    - intros ->. now exists scheme, frag. }
  destruct (String.eqb_spec raw "") as [-> | Hne].
  - split; [| split; [| split]]; try reflexivity.
    + simpl. tauto.
    + intros t H. discriminate.
  - rewrite (parseTag_unfold _ _ _ Hne HS), EC.
    pose proof (parseOptions_err opts emptyTag) as HE.
    destruct (parseOptions opts emptyTag) as [t0|e]; simpl in HE.
    + destruct (String.eqb_spec key "") as [-> | Hk].
      * split; [| split; [| split]]; try reflexivity.
        -- simpl. rewrite Hkey. tauto.
        -- intros t H. discriminate.
      * split; [| split; [| split]]; try reflexivity.
        -- simpl. rewrite Hkey, <- HE. intuition congruence.
        -- intros t [= <-]. simpl. auto.
    + split; [| split; [| split]]; try reflexivity.
      * simpl. rewrite <- HE. tauto.
      * intros t H. discriminate.
Qed.

(* ================================================================= *)
(** ** The fragment extractor *)

Section NumberFacts.







(** The sign that [ParseInt] takes off, if there is one. *)
Lemma parse_signed_cases (fn s : string) (bits : Z) :
  (exists body, s = "+" +:+ body /\
     parse_signed fn s bits =
     match parse_unsigned body with
     | None => inr (ErrSyntax fn s)
     | Some un => if un <? 2 ^ (bits - 1) then inl un else inr (ErrRange fn s)
     end) \/
  (exists body, s = "-" +:+ body /\
     parse_signed fn s bits =
     match parse_unsigned body with
     | None => inr (ErrSyntax fn s)
     | Some un => if un <=? 2 ^ (bits - 1) then inl (- un) else inr (ErrRange fn s)
     end) \/
  (parse_unsigned s = None \/ exists un, parse_unsigned s = Some un) /\
  parse_signed fn s bits =
  match parse_unsigned s with
  | None => inr (ErrSyntax fn s)
  | Some un => if un <? 2 ^ (bits - 1) then inl un else inr (ErrRange fn s)
  end.
Proof.
  assert (Hdef : parse_unsigned s = None \/ exists un, parse_unsigned s = Some un).
  { destruct (parse_unsigned s); eauto. }
  destruct s as [|a s']; [right; right; split; [exact Hdef | reflexivity] |].
  destruct a as [b0 b1 b2 b3 b4 b5 b6 b7].
  destruct b0, b1, b2, b3, b4, b5, b6, b7;
    first [ right; right; split; [exact Hdef | reflexivity]
          | left; exists s'; split; reflexivity
          | right; left; exists s'; split; reflexivity ].
Qed.

Lemma parse_unsigned_signed (body : string) :
  parse_unsigned ("+" +:+ body) = None /\ parse_unsigned ("-" +:+ body) = None.
Proof. split; reflexivity. Qed.

End NumberFacts.

Section FragmentFacts.
Context `{JSONLib}.










End FragmentFacts.

(** The extractor run on the document
    [{"host":"db.example.com","port":5432,"ssl":true,"tags":["x","y"]}]. *)
Example extractFragment_on_a_document :
  extractFragment doc_db "host" = inl "db.example.com" /\
  extractFragment doc_db "port" = inl "5432" /\
  extractFragment doc_db "ssl" = inl "true" /\
  extractFragment doc_db "tags.1" = inl "y" /\
  extractFragment doc_db "tags.+1" = inl "y" /\
  extractFragment doc_db "tags.-0" = inl "x" /\
  extractFragment doc_db "tags" = inl ("[" +:+ quoted "x" +:+ "," +:+ quoted "y" +:+ "]") /\
  extractFragment doc_db "tags.2" = inr (ErrFragmentRange "tags.2" 2 2) /\
  extractFragment doc_db "tags.-1" = inr (ErrFragmentRange "tags.-1" (-1) 2) /\
  extractFragment doc_db "tags.x" = inr (ErrFragmentIndex "tags.x" "x") /\
  extractFragment doc_db "tags.1.5" = inr (ErrFragmentScalar "tags.1.5" "string") /\
  extractFragment doc_db "password" = inr (ErrFragmentNotFound "password") /\
  extractFragment doc_db "host.name" = inr (ErrFragmentScalar "host.name" "string") /\
  extractFragment "not json" "key"
    = inr (ErrInvalidJSON (ErrSyntax "json.Unmarshal" "not json")).
Proof. repeat split; vm_compute; reflexivity. Qed.

(* ================================================================= *)
(** ** The cached provider *)

Section CacheFacts.
Import Cache CacheSpec.

Lemma has_byte_app (c : ascii) (a b : string) : has_byte c (a +:+ String c b).
Proof. now exists a, b. Qed.

Lemma cacheKey_has_nul (key version : string) : has_byte Ascii.zero (cacheKey key version).
Proof. apply has_byte_app. Qed.

Lemma cacheKey_inj (k1 v1 k2 v2 : string) :
  ~ has_byte Ascii.zero k1 -> ~ has_byte Ascii.zero k2 ->
  cacheKey k1 v1 = cacheKey k2 v2 -> k1 = k2 /\ v1 = v2.
Proof.
  unfold cacheKey. revert k2; induction k1 as [|x k1 IH]; intros [|y k2] N1 N2; simpl.
  - intros [= ->]. auto.
  - intros [= <- _]. exfalso. apply N2. now exists "", k2.
  - intros [= -> _]. exfalso. apply N1. now exists "", k1.
  - intros [= -> E]. rewrite has_byte_cons in N1, N2.
    destruct (IH k2) as [-> ->]; auto.
Qed.

(** The boundary instant and a key holding a NUL byte. *)
Lemma cache_contract_counterexample :
  ~ calls_through_unless_before_expiry /\ ~ versioned_keys_never_collide.
Proof.
  split.
  - intros Hc.
    specialize (Hc (mkCached (mkProvider (fun _ => inr ErrNotFound) None) 5
                             {["k" := mkEntry "v" 10]}) 10 11 "k").
    assert (Hn : ~ fresh_before_expiry
                   (mkCached (mkProvider (fun _ => inr ErrNotFound) None) 5
                             {["k" := mkEntry "v" 10]}) 10 "k").
    { intros [e [He Hlt]]. simpl in He. rewrite lookup_singleton_eq in He.
      injection He as <-. simpl in Hlt. lia. }
    specialize (Hc Hn). unfold CachedProvider_Get, CachedProvider_get in Hc.
    simpl in Hc. rewrite lookup_singleton_eq in Hc. simpl in Hc. discriminate.
  - intros Hc. apply (Hc (cacheKey "a" "b") "a" "b"). reflexivity.
Qed.

(** C6 (amended). [Get] answers from the cache, without a call, exactly
    when an entry exists and the time is not after its expiry; otherwise
    it makes one call, stores [(bytes, now + ttl)] on success and leaves
    the cache unchanged on failure.  [GetVersion] on a provider without
    versioning fails with the versioning-not-supported kind, making no
    call; its cache key is [key NUL version], which differs from every
    key that holds no NUL byte, and is injective on such keys. *)
Theorem CachedProvider_contract (c : CachedProvider) (now now' : Z) (key version : string) :
  (forall entry, entries c !! key = Some entry -> now <= expires entry ->
     CachedProvider_Get c now now' key = (inl (data entry), c, [])) /\
  ((entries c !! key = None \/
    exists entry, entries c !! key = Some entry /\ expires entry < now) ->
     match Get (provider c) key with
     | inl bytes =>
         CachedProvider_Get c now now' key =
           (inl bytes,
            mkCached (provider c) (ttl c)
                     (<[key := mkEntry bytes (now' + ttl c)]> (entries c)),
            [CallGet key])
     | inr err => CachedProvider_Get c now now' key = (inr err, c, [CallGet key])
     end) /\
  (GetVersion (provider c) = None ->
     CachedProvider_GetVersion c now now' key version =
       (inr (ErrVersioningNotSupported "" "cached"), c, [])) /\
  (forall getVersion, GetVersion (provider c) = Some getVersion ->
     CachedProvider_get c now (cacheKey key version) = None ->
     match getVersion key version with
     | inl bytes =>
         CachedProvider_GetVersion c now now' key version =
           (inl bytes, CachedProvider_set c now' (cacheKey key version) bytes,
            [CallGetVersion key version])
     | inr err =>
         CachedProvider_GetVersion c now now' key version =
           (inr err, c, [CallGetVersion key version])
     end) /\
  cacheKey key version = key +:+ String Ascii.zero version /\
  (forall plain, ~ has_byte Ascii.zero plain -> plain <> cacheKey key version) /\
  (forall key' version',
     ~ has_byte Ascii.zero key -> ~ has_byte Ascii.zero key' ->
     cacheKey key version = cacheKey key' version' -> key = key' /\ version = version').
Proof.
  unfold CachedProvider_Get, CachedProvider_GetVersion, CachedProvider_get.
  split; [| split; [| split; [| split; [| split; [| split]]]]].
  - intros entry -> Hle. replace (now >? expires entry) with false; [reflexivity |].
    symmetry. rewrite Z.gtb_ltb. apply Z.ltb_ge. lia.
  - intros [-> | [entry [-> Hlt]]].
    + now destruct (Get (provider c) key).
    + replace (now >? expires entry) with true.
      * now destruct (Get (provider c) key).
      * symmetry. rewrite Z.gtb_ltb. apply Z.ltb_lt. lia.
  - now intros ->.
  - intros gv -> Hmiss. unfold CachedProvider_get in Hmiss. rewrite Hmiss.
    now destruct (gv key version).
  - reflexivity.
  - intros plain Hn ->. apply Hn, cacheKey_has_nul.
  - intros key' version' N1 N2 E. exact (cacheKey_inj _ _ _ _ N1 N2 E).
Qed.

End CacheFacts.

(* ================================================================= *)
(** ** Places: reading and writing separate storage *)

Section PlaceFacts.
Context `{StdLib}.

Lemma prefix_of_cons (s s' : step) (p q : path) :
  prefix_of (s :: p) (s' :: q) <-> s = s' /\ prefix_of p q.
Proof.
  split.
  - intros [r Hr]. simpl in Hr. injection Hr as -> ->. split; [reflexivity | now exists r].
  - intros [-> [r ->]]. now exists r.
Qed.

Lemma prefix_of_nil (q : path) : prefix_of [] q.
Proof. now exists q. Qed.

Lemma prefix_of_app (h p q : path) : prefix_of (h ++ p) (h ++ q) <-> prefix_of p q.
Proof.
  induction h as [|s h IH]; simpl; [reflexivity |].
  rewrite prefix_of_cons. tauto.
Qed.

Lemma incomparable_sym (p q : path) : incomparable p q -> incomparable q p.
Proof. unfold incomparable. tauto. Qed.

Lemma incomparable_cons (s s' : step) (p q : path) :
  incomparable (s :: p) (s' :: q) <-> s <> s' \/ incomparable p q.
Proof.
  unfold incomparable. rewrite !prefix_of_cons.
  assert (Hdec : s = s' \/ s <> s').
  { destruct s as [i|], s' as [j|]; try (right; discriminate); try (now left).
    destruct (Nat.eq_dec i j) as [-> | Hne]; [now left | right; congruence]. }
  destruct Hdec as [-> | Hne]; [tauto |].
  split; [tauto |]. intros _. split; intros [E _]; congruence.
Qed.

Lemma incomparable_app (h p q : path) :
  incomparable (h ++ p) (h ++ q) <-> incomparable p q.
Proof. unfold incomparable. rewrite !prefix_of_app. reflexivity. Qed.

(** Extending either place keeps the two apart. *)
Lemma incomparable_extend_l (p q r : path) :
  incomparable p q -> incomparable (p ++ r) q.
Proof.
  revert q; induction p as [|s p IH]; intros q [H1 H2].
  - exfalso. apply H1, prefix_of_nil.
  - destruct q as [|s' q]; [exfalso; apply H2, prefix_of_nil |].
    simpl. apply incomparable_cons.
    assert (Hc : incomparable (s :: p) (s' :: q)) by (split; assumption).
    apply incomparable_cons in Hc as [Hne | Hc]; [now left | right; now apply IH].
Qed.

Lemma incomparable_heads (here : path) (i j : nat) (r r' : path) :
  i <> j -> incomparable (here ++ Fld i :: r) (here ++ Fld j :: r').
Proof.
  intros Hne. apply incomparable_app, incomparable_cons. left. congruence.
Qed.

Lemma strictly_below_trans (p q r : path) :
  prefix_of p q -> strictly_below q r -> strictly_below p r.
Proof.
  intros [a ->] [b [Hb ->]]. exists (a ++ b). split.
  - destruct a; simpl; [exact Hb | discriminate].
  - now rewrite app_assoc.
Qed.

(** Writing at [p] does not change what is read at a place apart from it. *)
Lemma lookup_update_apart (p q : path) (f : value -> value) (v : value) :
  incomparable p q -> lookup_path q (update_path p f v) = lookup_path q v.
Proof.
  revert q v; induction p as [|s p IH]; intros q v Hi.
  - exfalso. apply (proj1 Hi), prefix_of_nil.
  - destruct q as [|s' q]; [exfalso; apply (proj2 Hi), prefix_of_nil |].
    apply incomparable_cons in Hi.
    destruct s as [i|], s' as [j|]; simpl; destruct v as [| | | | | | | |w|vs|];
      try reflexivity.
    + destruct (Nat.eq_dec i j) as [-> | Hne].
      * rewrite list_lookup_alter_eq. destruct (vs !! j) as [w|]; simpl; [| reflexivity].
        apply IH. destruct Hi as [Hi | Hi]; [congruence | exact Hi].
      * now rewrite list_lookup_alter_ne.
    + apply IH. destruct Hi as [Hi | Hi]; [congruence | exact Hi].
Qed.

(** Writing at [p] keeps every pointer that [p] does not contain. *)
Lemma non_nil_update (p q : path) (f : value -> value) (v : value) :
  ~ prefix_of p q -> non_nil_at q v -> non_nil_at q (update_path p f v).
Proof.
  unfold non_nil_at.
  revert q v; induction p as [|s p IH]; intros q v Hn [w Hw].
  - exfalso. apply Hn, prefix_of_nil.
  - destruct q as [|s' q].
    + simpl in Hw. injection Hw as ->. destruct s; simpl; eauto.
    + rewrite prefix_of_cons in Hn.
      destruct s as [i|], s' as [j|]; simpl in *; destruct v as [| | | | | | | |u|vs|];
        try discriminate; try (now eauto).
      * destruct (Nat.eq_dec i j) as [-> | Hne].
        -- rewrite list_lookup_alter_eq. destruct (vs !! j) as [u|]; simpl; [| discriminate].
           apply IH; [tauto | eauto].
        -- rewrite list_lookup_alter_ne by exact Hne. eauto.
      * apply IH; [tauto | eauto].
Qed.

Lemma disjoint_paths_app (l1 l2 : list path) :
  disjoint_paths l1 -> disjoint_paths l2 ->
  (forall p q, In p l1 -> In q l2 -> incomparable p q) ->
  disjoint_paths (l1 ++ l2).
Proof.
  induction 1 as [|p l Hp Hl IH]; intros H2 Hx; simpl; [exact H2 |].
  constructor.
  - apply Forall_app. split; [exact Hp |].
    apply Forall_forall. intros q Hq. apply Hx; [now left |]. now apply list_elem_of_In.
  - apply IH; [exact H2 |]. intros a b Ha Hb. apply Hx; [now right | exact Hb].
Qed.

Lemma disjoint_paths_split (l1 l2 : list path) (p : path) :
  disjoint_paths (l1 ++ p :: l2) ->
  Forall (incomparable p) l1 /\ Forall (incomparable p) l2 /\ disjoint_paths (l1 ++ l2).
Proof.
  induction l1 as [|a l1 IH]; simpl; intros Hd.
  - inversion Hd; subst. auto.
  - inversion Hd as [|? ? Ha Hl]; subst. destruct (IH Hl) as [H1 [H2 H3]].
    apply Forall_app in Ha as [Ha1 Ha2]. inversion Ha2 as [|? ? Hap Ha3]; subst.
    split; [| split].
    + constructor; [now apply incomparable_sym | exact H1].
    + exact H2.
    + constructor; [apply Forall_app; auto | exact H3].
Qed.

End PlaceFacts.

(* ================================================================= *)
(** ** The record walker *)

Section WalkerFacts.
Context `{StdLib}.
Variable cfg : resolverConfig.

Lemma gotype_nested_ind (P : gotype -> Prop)
      (Hother : forall t, is_struct t = false -> is_pointer t = false -> P t)
      (HPtr : forall e, P e -> P (TPtr e))
      (HStruct : forall n fs, Forall (fun f => P (ftype f)) fs -> P (TStruct n fs)) :
  forall t, P t.
Proof.
  fix IH 1. intros [ | |b| |b|b| |e|n|e|n fs|n]; try (apply Hother; reflexivity).
  - apply HPtr, IH.
  - apply HStruct. induction fs as [|f fs IHfs]; constructor; [apply IH | exact IHfs].
Qed.

Lemma below_field_headed (here : path) (k : nat) (p : path) :
  strictly_below (here ++ [Fld k]) p -> exists r, r <> [] /\ p = here ++ Fld k :: r.
Proof. intros [r [Hr ->]]. exists r. split; [exact Hr |]. now rewrite <- app_assoc. Qed.

Lemma from_first_headed (here : path) (k : nat) (f : sfield gotype) (p : path) :
  from_first here k f p -> exists r, p = here ++ Fld k :: r.
Proof.
  intros [[_ Hb] | [_ [_ ->]]]; [| now exists []].
  apply below_field_headed in Hb as [r [_ ->]]. now exists r.
Qed.

Lemma from_second_headed (here : path) (k : nat) (f : sfield gotype) (p : path) :
  from_second here k f p -> exists r, p = here ++ Fld k :: r.
Proof.
  intros [_ [_ [Hb _]]]. apply below_field_headed in Hb as [r [_ ->]]. now exists r.
Qed.

Lemma from_first_second_apart (here : path) (k : nat) (f : sfield gotype) (p q : path) :
  from_first here k f p -> from_second here k f q -> False.
Proof.
  intros [[Ha _] | [_ [Ht _]]] [Hn [Hu _]].
  - rewrite Hn in Ha. discriminate.
  - congruence.
Qed.

Lemma collect_tagged_spec (here : path) (i : nat) (f : sfield gotype) (acc : walk_acc) :
  exists new errs,
    collect_tagged cfg here i f acc = (acc.1 ++ new, acc.2 ++ errs) /\
    (new = [] \/
     exists fi, new = [fi] /\ fieldValue fi = here ++ [Fld i] /\ has_tag f = true /\
                fieldType fi = ftype f /\ fieldName fi = fname f).
Proof.
  unfold collect_tagged, has_tag. destruct acc as [fields errs].
  assert (Hsame : exists new errs' : _, (fields, errs) = ((fields, errs).1 ++ new, (fields, errs).2 ++ errs')
                   /\ (new = [] \/ exists fi : fieldInfo, new = [fi] /\ fieldValue fi = here ++ [Fld i] /\
                         match ftag f with Some _ => true | None => false end = true /\
                         fieldType fi = ftype f /\ fieldName fi = fname f)).
  { exists [], []. simpl. rewrite !app_nil_r. auto. }
  destruct (fexported f); simpl; [| exact Hsame].
  destruct (ftag f) as [tagStr|]; [| exact Hsame].
  destruct (parseTag tagStr) as [tag|err].
  - match goal with |- context [match ?b with inl _ => _ | inr _ => _ end] =>
      destruct b as [[p pn]|e] end.
    + destruct (isVersionedType (ftype f) && negb (is_versioned_provider p)).
      * exists [], [ErrVersioningNotSupported (fname f) pn]. simpl. rewrite app_nil_r. auto.
      * eexists [_], []. simpl. rewrite app_nil_r. split; [reflexivity |].
        right. eexists. split; [reflexivity |]. simpl. auto.
    + exists [], [e]. simpl. rewrite app_nil_r. auto.
  - exists [], [ErrField (fname f) err]. simpl. rewrite app_nil_r. auto.
Qed.

(** *** What the walker writes *)

Lemma first_pass_step (rec : gotype -> path -> value -> walk_acc -> value * walk_acc)
      (here : path) (f : sfield gotype) (fs : list (sfield gotype)) (i : nat)
      (vs : list value) (acc : walk_acc) :
  exists vs1 acc1,
    first_pass cfg rec here (f :: fs) i vs acc = first_pass cfg rec here fs (S i) vs1 acc1 /\
    (forall k, k <> i -> vs1 !! k = vs !! k) /\
    (fanon f && is_struct (ftype f) = false -> vs1 = vs).
Proof.
  cbn [first_pass]. destruct (fanon f && is_struct (ftype f)).
  - destruct (vs !! i) as [fv|]; [| now exists vs, acc].
    destruct (rec (ftype f) (here ++ [Fld i]) fv acc) as [fv' acc'].
    exists (<[i := fv']> vs), acc'. split; [reflexivity |]. split; [| discriminate].
    intros k Hk. now apply list_lookup_insert_ne.
  - now eexists vs, _.
Qed.

Lemma first_pass_keeps (rec : gotype -> path -> value -> walk_acc -> value * walk_acc)
      (here : path) (fs : list (sfield gotype)) :
  forall i vs acc vs' acc',
    first_pass cfg rec here fs i vs acc = (vs', acc') ->
    forall k,
      ((k < i)%nat \/
       exists f, (i <= k)%nat /\ fs !! (k - i)%nat = Some f /\
                 fanon f && is_struct (ftype f) = false) ->
      vs' !! k = vs !! k.
Proof.
  induction fs as [|f fs IH]; intros i vs acc vs' acc'.
  - cbn. intros [= <- <-] k _. reflexivity.
  - destruct (first_pass_step rec here f fs i vs acc) as [vs1 [acc1 [-> [Hne Hsame]]]].
    intros Hrest k Hk. destruct (Nat.eq_dec k i) as [-> | Hki].
    + destruct Hk as [Hk | [g [_ [Hg Hplain]]]]; [lia |].
      rewrite Nat.sub_diag in Hg. injection Hg as <-.
      rewrite (IH _ _ _ _ _ Hrest i) by (left; lia). now rewrite (Hsame Hplain).
    + rewrite <- (Hne k Hki). apply (IH _ _ _ _ _ Hrest).
      destruct Hk as [Hk | [g [Hik [Hg Hplain]]]]; [left; lia |].
      right. exists g. split; [lia |]. split; [| exact Hplain].
      replace (k - i)%nat with (S (k - S i)) in Hg by lia. exact Hg.
Qed.

Lemma second_pass_step (rec : gotype -> path -> value -> walk_acc -> value * walk_acc)
      (here : path) (f : sfield gotype) (fs : list (sfield gotype)) (i : nat)
      (vs : list value) (acc : walk_acc) :
  exists vs1 acc1,
    second_pass rec here (f :: fs) i vs acc = second_pass rec here fs (S i) vs1 acc1 /\
    (forall k, k <> i -> vs1 !! k = vs !! k) /\
    (plain_untagged f -> forall e, ftype f = TPtr e -> is_struct e = true ->
       (vs !! i = Some VNil ->
        exists w, vs1 !! i = Some (VPtr w) /\ (hasSecretTags e = false -> w = zero e)) /\
       (forall w0, vs !! i = Some (VPtr w0) -> exists w, vs1 !! i = Some (VPtr w))).
Proof.
  assert (Hskip : (plain_untagged f -> False) ->
            exists vs1 acc1,
              second_pass rec here fs (S i) vs acc = second_pass rec here fs (S i) vs1 acc1 /\
              (forall k, k <> i -> vs1 !! k = vs !! k) /\
              (plain_untagged f -> forall e, ftype f = TPtr e -> is_struct e = true ->
                 (vs !! i = Some VNil ->
                  exists w, vs1 !! i = Some (VPtr w) /\ (hasSecretTags e = false -> w = zero e)) /\
                 (forall w0, vs !! i = Some (VPtr w0) -> exists w, vs1 !! i = Some (VPtr w)))).
  { intros Hno. exists vs, acc. split; [reflexivity |]. split; [reflexivity |].
    intros Hp. destruct (Hno Hp). }
  assert (Hother : (forall e, ftype f = TPtr e -> False) -> forall vs1 acc1,
            (forall k, k <> i -> vs1 !! k = vs !! k) ->
            exists vs2 acc2,
              second_pass rec here fs (S i) vs1 acc1 = second_pass rec here fs (S i) vs2 acc2 /\
              (forall k, k <> i -> vs2 !! k = vs !! k) /\
              (plain_untagged f -> forall e, ftype f = TPtr e -> is_struct e = true ->
                 (vs !! i = Some VNil ->
                  exists w, vs2 !! i = Some (VPtr w) /\ (hasSecretTags e = false -> w = zero e)) /\
                 (forall w0, vs !! i = Some (VPtr w0) -> exists w, vs2 !! i = Some (VPtr w)))).
  { intros Hno vs1 acc1 Hk. exists vs1, acc1. split; [reflexivity |]. split; [exact Hk |].
    intros _ e He. destruct (Hno e He). }
  cbn [second_pass]. unfold plain_untagged, has_tag in *.
  destruct (fanon f); [apply Hskip; intros [? _]; discriminate |].
  destruct (fexported f); [| apply Hskip; intros [_ [? _]]; discriminate].
  destruct (ftag f) as [t|]; [apply Hskip; intros [_ [_ ?]]; discriminate |]. cbn [orb negb].
  destruct (ftype f) as [ | |b| |b|b| |e|n|e|n gs|n] eqn:Eft; cbn [is_struct andb];
    try (apply Hother; [discriminate | reflexivity]).
  - (* a pointer *)
    destruct (vs !! i) as [v|] eqn:Ev.
    + assert (Hlt : (i < length vs)%nat) by (eapply lookup_lt_Some; exact Ev).
      destruct v as [| | | | | | | |actualVal|?|];
        try (exists vs, acc; split; [reflexivity |]; split; [reflexivity |];
             intros _ e' [= <-] _; split; [discriminate | intros w0; discriminate]).
      * destruct (is_struct e) eqn:Es.
        -- destruct (hasSecretTags e) eqn:Eh.
           ++ destruct (rec e (here ++ [Fld i; Deref]) (zero e) acc) as [w acc1].
              exists (<[i := VPtr w]> vs), acc1. split; [reflexivity |]. split.
              ** intros k Hk. now apply list_lookup_insert_ne.
              ** intros _ e' [= <-] _. split; [| discriminate]. intros _. exists w.
                 split; [now apply list_lookup_insert_eq | intros ?; congruence].
           ++ exists (<[i := VPtr (zero e)]> vs), acc. split; [reflexivity |]. split.
              ** intros k Hk. now apply list_lookup_insert_ne.
              ** intros _ e' [= <-] _. split; [| discriminate]. intros _. exists (zero e).
                 split; [now apply list_lookup_insert_eq | reflexivity].
        -- exists vs, acc. split; [reflexivity |]. split; [reflexivity |].
           intros _ e' [= <-] Hs. congruence.
      * destruct (is_struct e && hasSecretTags e).
        -- destruct (rec e (here ++ [Fld i; Deref]) actualVal acc) as [w acc1].
           exists (<[i := VPtr w]> vs), acc1. split; [reflexivity |]. split.
           ++ intros k Hk. now apply list_lookup_insert_ne.
           ++ intros _ e' [= <-] _. split; [discriminate |]. intros w0 _. exists w.
              now apply list_lookup_insert_eq.
        -- exists vs, acc. split; [reflexivity |]. split; [reflexivity |].
           intros _ e' [= <-] _. split; [discriminate |]. intros w0 _. now exists actualVal.
    + exists vs, acc. split; [reflexivity |]. split; [reflexivity |].
      intros _ e' [= <-] _. split; [discriminate | intros w0; discriminate].
  - (* a struct *)
    destruct (hasSecretTags (TStruct n gs)).
    + destruct (vs !! i) as [actualVal|]; [| apply Hother; [discriminate | reflexivity]].
      destruct (rec (TStruct n gs) (here ++ [Fld i]) actualVal acc) as [w acc1].
      apply Hother; [discriminate |]. intros k Hk. now apply list_lookup_insert_ne.
    + apply Hother; [discriminate | reflexivity].
Qed.

Lemma second_pass_keeps_lower (rec : gotype -> path -> value -> walk_acc -> value * walk_acc)
      (here : path) (fs : list (sfield gotype)) :
  forall i vs acc vs' acc',
    second_pass rec here fs i vs acc = (vs', acc') ->
    forall k, (k < i)%nat -> vs' !! k = vs !! k.
Proof.
  induction fs as [|f fs IH]; intros i vs acc vs' acc'.
  - cbn. intros [= <- <-] k _. reflexivity.
  - destruct (second_pass_step rec here f fs i vs acc) as [vs1 [acc1 [-> [Hne _]]]].
    intros Hrest k Hk. rewrite (IH _ _ _ _ _ Hrest k) by lia. apply Hne. lia.
Qed.


Lemma second_pass_skip (rec : gotype -> path -> value -> walk_acc -> value * walk_acc)
      (here : path) (f : sfield gotype) (fs : list (sfield gotype)) (i : nat)
      (vs : list value) (acc : walk_acc) :
  (plain_untagged f -> False) ->
  second_pass rec here (f :: fs) i vs acc = second_pass rec here fs (S i) vs acc.
Proof.
  unfold plain_untagged, has_tag. intros Hno. cbn [second_pass]. unfold has_tag.
  destruct (fanon f); [reflexivity |]. destruct (fexported f); [| reflexivity].
  destruct (ftag f); [reflexivity |]. exfalso. apply Hno. auto.
Qed.

Lemma second_pass_keeps_other (rec : gotype -> path -> value -> walk_acc -> value * walk_acc)
      (here : path) (fs : list (sfield gotype)) :
  forall i vs acc vs' acc',
    second_pass rec here fs i vs acc = (vs', acc') ->
    forall k,
      ((k < i)%nat \/
       exists f, (i <= k)%nat /\ fs !! (k - i)%nat = Some f /\ (plain_untagged f -> False)) ->
      vs' !! k = vs !! k.
Proof.
  induction fs as [|f fs IH]; intros i vs acc vs' acc'.
  - cbn. intros [= <- <-] k _. reflexivity.
  - intros Hrun k Hk. destruct (Nat.eq_dec k i) as [-> | Hki].
    + destruct Hk as [Hk | [g [_ [Hg Hno]]]]; [lia |].
      rewrite Nat.sub_diag in Hg. injection Hg as <-.
      rewrite second_pass_skip in Hrun by exact Hno.
      apply (second_pass_keeps_lower _ _ _ _ _ _ _ _ Hrun). lia.
    + destruct (second_pass_step rec here f fs i vs acc) as [vs1 [acc1 [E [Hne _]]]].
      rewrite E in Hrun. rewrite <- (Hne k Hki). apply (IH _ _ _ _ _ Hrun).
      destruct Hk as [Hk | [g [Hik [Hg Hno]]]]; [left; lia |].
      right. exists g. split; [lia |]. split; [| exact Hno].
      replace (k - i)%nat with (S (k - S i)) in Hg by lia. exact Hg.
Qed.

(** *** What the walker collects *)

Lemma lookup_field_eq (vs1 vs2 : list value) (k : nat) (r : path) :
  vs1 !! k = vs2 !! k ->
  lookup_path (Fld k :: r) (VStruct vs1) = lookup_path (Fld k :: r) (VStruct vs2).
Proof. cbn. now intros ->. Qed.

(** The tasks of one loop iteration followed by those of the remaining
    iterations: apart from each other, and kept. *)
Lemma tasks_of_step (from : path -> nat -> sfield gotype -> path -> Prop)
      (here : path) (i : nat) (f : sfield gotype) (fs : list (sfield gotype))
      (vs vs1 vs' : list value) (n1 n2 : list fieldInfo) :
  (forall k g p, from here k g p -> exists r, p = here ++ Fld k :: r) ->
  Forall (fun fi => from here i f (fieldValue fi)) n1 ->
  disjoint_paths (List.map fieldValue n1) ->
  (forall k, k <> i -> vs1 !! k = vs !! k) ->
  keeps_tasks here (VStruct vs) (VStruct vs1) n1 ->
  vs' !! i = vs1 !! i ->
  disjoint_paths (List.map fieldValue n2) ->
  Forall (fun fi => exists k g, (S i <= k)%nat /\ fs !! (k - S i)%nat = Some g /\
                                from here k g (fieldValue fi)) n2 ->
  keeps_tasks here (VStruct vs1) (VStruct vs') n2 ->
  disjoint_paths (List.map fieldValue (n1 ++ n2)) /\
  Forall (fun fi => exists k g, (i <= k)%nat /\ (f :: fs) !! (k - i)%nat = Some g /\
                                from here k g (fieldValue fi)) (n1 ++ n2) /\
  keeps_tasks here (VStruct vs) (VStruct vs') (n1 ++ n2).
Proof.
  intros Hhead Hn1 Hd1 Hne1 HK1 Hi Hd2 Hn2 HK2.
  rewrite Forall_forall in Hn1, Hn2. split; [| split].
  - rewrite List.map_app. apply disjoint_paths_app; [exact Hd1 | exact Hd2 |].
    intros p q Hp Hq. apply in_map_iff in Hp as [a [<- Ha]].
    apply in_map_iff in Hq as [b [<- Hb]]. apply list_elem_of_In in Ha, Hb.
    destruct (Hhead _ _ _ (Hn1 _ Ha)) as [r ->].
    destruct (Hn2 _ Hb) as [k [g [Hk [_ Hg]]]].
    destruct (Hhead _ _ _ Hg) as [r' ->].
    apply incomparable_heads. lia.
  - apply Forall_app. split; apply Forall_forall; intros a Ha.
    + exists i, f. rewrite Nat.sub_diag. auto.
    + destruct (Hn2 _ Ha) as [k [g [Hk [Hg Hfrom]]]].
      exists k, g. split; [lia |]. split; [| exact Hfrom].
      replace (k - i)%nat with (S (k - S i)) by lia. exact Hg.
  - intros fi r v Hin Hpath Hlook. apply in_app_iff in Hin as [Hin | Hin];
      apply list_elem_of_In in Hin.
    + destruct (Hhead _ _ _ (Hn1 _ Hin)) as [r0 Hr0].
      rewrite Hpath in Hr0. apply app_inv_head in Hr0. subst r.
      rewrite (lookup_field_eq vs' vs1) by exact Hi.
      eapply HK1; [apply list_elem_of_In; exact Hin | exact Hpath | exact Hlook].
    + destruct (Hn2 _ Hin) as [k [g [Hk [_ Hfrom]]]].
      destruct (Hhead _ _ _ Hfrom) as [r0 Hr0].
      rewrite Hpath in Hr0. apply app_inv_head in Hr0. subst r.
      eapply HK2; [apply list_elem_of_In; exact Hin | exact Hpath |].
      rewrite (lookup_field_eq vs1 vs) by (apply Hne1; lia). exact Hlook.
Qed.

(** The tasks of a recursive walk below field [i], seen from the struct
    that holds the field. *)
Lemma tasks_of_nested (W : path -> value -> walk_acc -> value * walk_acc)
      (here rel : path) (i : nat) (v w : value) (vs vs1 : list value)
      (acc acc1 : walk_acc) :
  walker_ok W ->
  prefix_of [Fld i] rel ->
  W (here ++ rel) v acc = (w, acc1) ->
  (forall r0 x, lookup_path (rel ++ r0) (VStruct vs) = Some x -> lookup_path r0 v = Some x) ->
  (forall r0, lookup_path (rel ++ r0) (VStruct vs1) = lookup_path r0 w) ->
  exists n1 e1,
    acc1 = (acc.1 ++ n1, acc.2 ++ e1) /\
    Forall (fun fi => strictly_below (here ++ [Fld i]) (fieldValue fi)) n1 /\
    disjoint_paths (List.map fieldValue n1) /\
    keeps_tasks here (VStruct vs) (VStruct vs1) n1.
Proof.
  intros Hok [tl ->] Er Hin Hout.
  destruct (Hok _ _ _ _ _ Er) as [n1 [e1 [-> [Hb1 [Hd1 Hk1]]]]].
  exists n1, e1. split; [reflexivity |]. split; [| split; [exact Hd1 |]].
  - eapply Forall_impl; [exact Hb1 |]. intros a Ha.
    eapply strictly_below_trans; [| exact Ha]. exists tl. now rewrite <- app_assoc.
  - intros fi r x Hfi Hpath Hlook. rewrite Forall_forall in Hb1.
    destruct (Hb1 fi) as [r0 [_ Hr0]]; [now apply list_elem_of_In |].
    assert (Hr : r = ([Fld i] ++ tl) ++ r0).
    { rewrite Hpath, <- app_assoc in Hr0. now apply app_inv_head in Hr0. }
    subst r. rewrite Hout. eapply Hk1; [exact Hfi | exact Hr0 |]. now apply Hin.
Qed.

Lemma keeps_tasks_nil (here : path) (sv sv' : value) : keeps_tasks here sv sv' [].
Proof. intros fi r v []. Qed.

Lemma keeps_tasks_same (here : path) (sv : value) (new : list fieldInfo) :
  keeps_tasks here sv sv new.
Proof. intros fi r v _ _ Hl. exact Hl. Qed.

Lemma first_pass_spec (rec : gotype -> path -> value -> walk_acc -> value * walk_acc)
      (here : path) (fs : list (sfield gotype)) :
  Forall (fun f => walker_ok (rec (ftype f))) fs ->
  forall i vs acc vs' acc',
    first_pass cfg rec here fs i vs acc = (vs', acc') ->
    exists new errs,
      acc' = (acc.1 ++ new, acc.2 ++ errs) /\
      disjoint_paths (List.map fieldValue new) /\
      Forall (fun fi => exists k f, (i <= k)%nat /\ fs !! (k - i)%nat = Some f /\
                                    from_first here k f (fieldValue fi)) new /\
      keeps_tasks here (VStruct vs) (VStruct vs') new.
Proof.
  induction 1 as [|f fs Hf Hfs IH]; intros i vs acc vs' acc'.
  - cbn [first_pass]. intros [= <- <-]. exists [], []. rewrite !app_nil_r. destruct acc.
    split; [reflexivity |]. split; [constructor |]. split; [constructor |].
    apply keeps_tasks_nil.
  - assert (Hstep : forall n1 e1 vs1,
              Forall (fun fi => from_first here i f (fieldValue fi)) n1 ->
              disjoint_paths (List.map fieldValue n1) ->
              (forall k, k <> i -> vs1 !! k = vs !! k) ->
              keeps_tasks here (VStruct vs) (VStruct vs1) n1 ->
              first_pass cfg rec here fs (S i) vs1 (acc.1 ++ n1, acc.2 ++ e1) = (vs', acc') ->
              exists new errs,
                acc' = (acc.1 ++ new, acc.2 ++ errs) /\
                disjoint_paths (List.map fieldValue new) /\
                Forall (fun fi => exists k g, (i <= k)%nat /\ (f :: fs) !! (k - i)%nat = Some g /\
                                              from_first here k g (fieldValue fi)) new /\
                keeps_tasks here (VStruct vs) (VStruct vs') new).
    { intros n1 e1 vs1 Hn1 Hd1 Hne1 HK1 Hrest.
      destruct (IH _ _ _ _ _ Hrest) as [n2 [e2 [-> [Hd2 [Hn2 HK2]]]]]. cbn [fst snd].
      exists (n1 ++ n2), (e1 ++ e2). rewrite !app_assoc. split; [reflexivity |].
      apply (tasks_of_step from_first here i f fs vs vs1 vs' n1 n2); try assumption.
      - intros k g p. apply from_first_headed.
      - apply (first_pass_keeps _ _ _ _ _ _ _ _ Hrest). left. lia. }
    cbn [first_pass]. destruct (fanon f && is_struct (ftype f)) eqn:Eas.
    + destruct (vs !! i) as [fv|] eqn:Ev.
      * destruct (rec (ftype f) (here ++ [Fld i]) fv acc) as [fv' acc1] eqn:Er.
        assert (Hlt : (i < length vs)%nat) by (eapply lookup_lt_Some; exact Ev).
        destruct (tasks_of_nested _ here [Fld i] i fv fv' vs (<[i := fv']> vs) acc acc1 Hf)
          as [n1 [e1 [-> [Hb1 [Hd1 HK1]]]]].
        -- exists []. reflexivity.
        -- exact Er.
        -- intros r0 x. cbn. now rewrite Ev.
        -- intros r0. cbn. now rewrite list_lookup_insert_eq.
        -- apply Hstep; try assumption.
           ++ eapply Forall_impl; [exact Hb1 |]. intros a Ha. left. auto.
           ++ intros k Hk. now apply list_lookup_insert_ne.
      * intros Hrest. apply (Hstep [] [] vs).
        -- constructor.
        -- constructor.
        -- reflexivity.
        -- apply keeps_tasks_nil.
        -- rewrite !app_nil_r. now destruct acc.
    + destruct (collect_tagged_spec here i f acc) as [n1 [e1 [-> Hn1]]].
      apply Hstep; try reflexivity.
      * destruct Hn1 as [-> | [fi [-> [Hp [Ht _]]]]]; constructor; [| constructor].
        right. auto.
      * destruct Hn1 as [-> | [fi [-> _]]]; repeat constructor.
      * apply keeps_tasks_same.
Qed.

Lemma second_pass_spec (rec : gotype -> path -> value -> walk_acc -> value * walk_acc)
      (here : path) (fs : list (sfield gotype)) :
  Forall (fun f => walker_ok (rec (ftype f)) /\
                   forall e, ftype f = TPtr e -> walker_ok (rec e)) fs ->
  forall i vs acc vs' acc',
    second_pass rec here fs i vs acc = (vs', acc') ->
    exists new errs,
      acc' = (acc.1 ++ new, acc.2 ++ errs) /\
      disjoint_paths (List.map fieldValue new) /\
      Forall (fun fi => exists k f, (i <= k)%nat /\ fs !! (k - i)%nat = Some f /\
                                    from_second here k f (fieldValue fi)) new /\
      keeps_tasks here (VStruct vs) (VStruct vs') new.
Proof.
  induction 1 as [|f fs [Hf Hfp] Hfs IH]; intros i vs acc vs' acc'.
  - cbn [second_pass]. intros [= <- <-]. exists [], []. rewrite !app_nil_r. destruct acc.
    split; [reflexivity |]. split; [constructor |]. split; [constructor |].
    apply keeps_tasks_nil.
  - assert (Hstep : forall n1 e1 vs1,
              Forall (fun fi => from_second here i f (fieldValue fi)) n1 ->
              disjoint_paths (List.map fieldValue n1) ->
              (forall k, k <> i -> vs1 !! k = vs !! k) ->
              keeps_tasks here (VStruct vs) (VStruct vs1) n1 ->
              second_pass rec here fs (S i) vs1 (acc.1 ++ n1, acc.2 ++ e1) = (vs', acc') ->
              exists new errs,
                acc' = (acc.1 ++ new, acc.2 ++ errs) /\
                disjoint_paths (List.map fieldValue new) /\
                Forall (fun fi => exists k g, (i <= k)%nat /\ (f :: fs) !! (k - i)%nat = Some g /\
                                              from_second here k g (fieldValue fi)) new /\
                keeps_tasks here (VStruct vs) (VStruct vs') new).
    { intros n1 e1 vs1 Hn1 Hd1 Hne1 HK1 Hrest.
      destruct (IH _ _ _ _ _ Hrest) as [n2 [e2 [-> [Hd2 [Hn2 HK2]]]]]. cbn [fst snd].
      exists (n1 ++ n2), (e1 ++ e2). rewrite !app_assoc. split; [reflexivity |].
      apply (tasks_of_step from_second here i f fs vs vs1 vs' n1 n2); try assumption.
      - intros k g p. apply from_second_headed.
      - apply (second_pass_keeps_lower _ _ _ _ _ _ _ _ Hrest). lia. }
    assert (Hskip : forall vs1,
              (forall k, k <> i -> vs1 !! k = vs !! k) ->
              second_pass rec here fs (S i) vs1 acc = (vs', acc') ->
              exists new errs,
                acc' = (acc.1 ++ new, acc.2 ++ errs) /\
                disjoint_paths (List.map fieldValue new) /\
                Forall (fun fi => exists k g, (i <= k)%nat /\ (f :: fs) !! (k - i)%nat = Some g /\
                                              from_second here k g (fieldValue fi)) new /\
                keeps_tasks here (VStruct vs) (VStruct vs') new).
    { intros vs1 Hne1 Hrest. apply (Hstep [] [] vs1).
      - constructor.
      - constructor.
      - exact Hne1.
      - apply keeps_tasks_nil.
      - rewrite !app_nil_r. now destruct acc. }
    cbn [second_pass].
    destruct (fanon f) eqn:Ea; [now apply Hskip |].
    destruct (fexported f) eqn:Ee; [| now apply Hskip].
    destruct (has_tag f) eqn:Et; [now apply Hskip |]. cbn [orb negb].
    assert (Hrec : forall t rel v vs1 w acc1,
              walker_ok (rec t) -> prefix_of [Fld i] rel ->
              hasSecretTags (walked_type (ftype f)) = true ->
              rec t (here ++ rel) v acc = (w, acc1) ->
              (forall k, k <> i -> vs1 !! k = vs !! k) ->
              (forall r0 x, lookup_path (rel ++ r0) (VStruct vs) = Some x ->
                            lookup_path r0 v = Some x) ->
              (forall r0, lookup_path (rel ++ r0) (VStruct vs1) = lookup_path r0 w) ->
              second_pass rec here fs (S i) vs1 acc1 = (vs', acc') ->
              exists new errs,
                acc' = (acc.1 ++ new, acc.2 ++ errs) /\
                disjoint_paths (List.map fieldValue new) /\
                Forall (fun fi => exists k g, (i <= k)%nat /\ (f :: fs) !! (k - i)%nat = Some g /\
                                              from_second here k g (fieldValue fi)) new /\
                keeps_tasks here (VStruct vs) (VStruct vs') new).
    { intros t rel v vs1 w acc1 Hok Hpre Hst Er Hne1 Hin Hout.
      destruct (tasks_of_nested _ here rel i v w vs vs1 acc acc1 Hok Hpre Er Hin Hout)
        as [n1 [e1 [-> [Hb1 [Hd1 HK1]]]]].
      apply Hstep; try assumption.
      eapply Forall_impl; [exact Hb1 |]. intros a Ha.
      split; [exact Ea |]. split; [exact Et |]. split; [exact Ha | exact Hst]. }
    destruct (ftype f) as [ | |b| |b|b| |e|n|e|n gs|n] eqn:Eft; cbn [is_struct andb];
      try (now apply Hskip).
    + destruct (vs !! i) as [fv|] eqn:Ev; [| now apply Hskip].
      assert (Hlt : (i < length vs)%nat) by (eapply lookup_lt_Some; exact Ev).
      destruct fv as [| | | | | | | |actualVal|?|]; try (now apply Hskip).
      * destruct (is_struct e) eqn:Es; [| now apply Hskip].
        destruct (hasSecretTags e) eqn:Eh.
        -- destruct (rec e (here ++ [Fld i; Deref]) (zero e) acc) as [w acc1] eqn:Er.
           eapply (Hrec e [Fld i; Deref]); [apply Hfp; reflexivity | | exact Eh | exact Er | | |].
           ++ exists [Deref]. reflexivity.
           ++ intros k Hk. now apply list_lookup_insert_ne.
           ++ intros r0 x. cbn. rewrite Ev. discriminate.
           ++ intros r0. cbn. now rewrite list_lookup_insert_eq.
        -- apply Hskip. intros k Hk. now apply list_lookup_insert_ne.
      * destruct (is_struct e) eqn:Es; [| now apply Hskip].
        destruct (hasSecretTags e) eqn:Eh; [| now apply Hskip]. cbn [andb].
        destruct (rec e (here ++ [Fld i; Deref]) actualVal acc) as [w acc1] eqn:Er.
        eapply (Hrec e [Fld i; Deref]); [apply Hfp; reflexivity | | exact Eh | exact Er | | |].
        -- exists [Deref]. reflexivity.
        -- intros k Hk. now apply list_lookup_insert_ne.
        -- intros r0 x. cbn. now rewrite Ev.
        -- intros r0. cbn. now rewrite list_lookup_insert_eq.
    + destruct (hasSecretTags (TStruct n gs)) eqn:Eh; [| now apply Hskip].
      destruct (vs !! i) as [actualVal|] eqn:Ev; [| now apply Hskip].
      assert (Hlt : (i < length vs)%nat) by (eapply lookup_lt_Some; exact Ev).
      destruct (rec (TStruct n gs) (here ++ [Fld i]) actualVal acc) as [w acc1] eqn:Er.
      eapply (Hrec (TStruct n gs) [Fld i]); [exact Hf | | exact Eh | exact Er | | |].
      * exists []. reflexivity.
      * intros k Hk. now apply list_lookup_insert_ne.
      * intros r0 x. cbn. now rewrite Ev.
      * intros r0. cbn. now rewrite list_lookup_insert_eq.
Qed.

Lemma collectFields_ok_pointee (t : gotype) :
  walker_ok (collectFields cfg t) /\
  forall e, t = TPtr e -> walker_ok (collectFields cfg e).
Proof.
  assert (Hid : forall t', (forall here sv acc, collectFields cfg t' here sv acc = (sv, acc)) ->
                           walker_ok (collectFields cfg t')).
  { intros t' E here sv acc sv' acc'. rewrite E. intros [= <- <-].
    exists [], []. rewrite !app_nil_r. destruct acc.
    split; [reflexivity |]. split; [constructor |]. split; [constructor |].
    apply keeps_tasks_nil. }
  induction t as [t Hs Hp | e IH | n fs IH2] using gotype_nested_ind.
  - split.
    + apply Hid. intros. destruct t; try reflexivity; discriminate.
    + intros e ->. discriminate.
  - split; [apply Hid; intros; reflexivity |]. intros e' [= <-]. exact (proj1 IH).
  - split; [| discriminate].
    assert (IH : Forall (fun f => walker_ok (collectFields cfg (ftype f))) fs).
    { eapply Forall_impl; [exact IH2 |]. intros f Hf. exact (proj1 Hf). }
    intros here sv acc sv' acc'. cbn [collectFields].
    destruct sv as [| | | | | | | | |vs|];
      try (intros [= <- <-]; exists [], []; rewrite !app_nil_r; destruct acc;
           split; [reflexivity |]; split; [constructor |]; split; [constructor |];
           apply keeps_tasks_nil).
    destruct (first_pass cfg (collectFields cfg) here fs 0 vs acc) as [vs1 acc1] eqn:E1.
    destruct (second_pass (collectFields cfg) here fs 0 vs1 acc1) as [vs2 acc2] eqn:E2.
    intros [= <- <-].
    destruct (first_pass_spec _ _ _ IH _ _ _ _ _ E1) as [n1 [e1 [-> [Hd1 [Hn1 HK1]]]]].
    destruct (second_pass_spec _ _ _ IH2 _ _ _ _ _ E2) as [n2 [e2 [-> [Hd2 [Hn2 HK2]]]]].
    simpl. exists (n1 ++ n2), (e1 ++ e2). rewrite !app_assoc.
    split; [reflexivity |]. rewrite Forall_forall in Hn1, Hn2. split; [| split].
    + apply Forall_app. split; apply Forall_forall; intros a Ha.
      * destruct (Hn1 _ Ha) as [k [f [_ [_ Hf]]]].
        destruct (from_first_headed _ _ _ _ Hf) as [r ->].
        exists (Fld k :: r). split; [discriminate | reflexivity].
      * destruct (Hn2 _ Ha) as [k [f [_ [_ Hf]]]].
        destruct (from_second_headed _ _ _ _ Hf) as [r ->].
        exists (Fld k :: r). split; [discriminate | reflexivity].
    + rewrite List.map_app. apply disjoint_paths_app; [exact Hd1 | exact Hd2 |].
      intros p q Hp Hq. apply in_map_iff in Hp as [a [<- Ha]].
      apply in_map_iff in Hq as [b [<- Hb]]. apply list_elem_of_In in Ha, Hb.
      destruct (Hn1 _ Ha) as [k [f [_ [Hk Hf]]]].
      destruct (Hn2 _ Hb) as [k' [f' [_ [Hk' Hf']]]].
      destruct (Nat.eq_dec k k') as [<- | Hne].
      * rewrite Hk in Hk'. injection Hk' as <-.
        exfalso. eapply from_first_second_apart; eassumption.
      * destruct (from_first_headed _ _ _ _ Hf) as [r ->].
        destruct (from_second_headed _ _ _ _ Hf') as [r' ->].
        now apply incomparable_heads.
    + intros fi r v Hin Hpath Hlook. apply in_app_iff in Hin as [Hin | Hin].
      * (* a task of the first loop: the second loop leaves its field alone *)
        destruct (Hn1 fi) as [k [f [_ [Hk Hf]]]]; [now apply list_elem_of_In |].
        destruct (from_first_headed _ _ _ _ Hf) as [r0 Hr0].
        rewrite Hpath in Hr0. apply app_inv_head in Hr0. subst r.
        rewrite (lookup_field_eq vs2 vs1).
        -- eapply HK1; [exact Hin | exact Hpath | exact Hlook].
        -- apply (second_pass_keeps_other _ _ _ _ _ _ _ _ E2). right. exists f.
           rewrite Nat.sub_0_r in *. split; [lia |]. split; [exact Hk |].
           intros [Hanon [_ Htag]]. destruct Hf as [[Ha _] | [_ [Ht _]]].
           ++ rewrite Hanon in Ha. discriminate.
           ++ unfold has_tag in Ht. rewrite Htag in Ht. discriminate.
      * (* a task of the second loop: the first loop left its field alone *)
        destruct (Hn2 fi) as [k [f [_ [Hk Hf]]]]; [now apply list_elem_of_In |].
        destruct (from_second_headed _ _ _ _ Hf) as [r0 Hr0].
        rewrite Hpath in Hr0. apply app_inv_head in Hr0. subst r.
        eapply HK2; [exact Hin | exact Hpath |].
        rewrite (lookup_field_eq vs1 vs); [exact Hlook |].
        apply (first_pass_keeps _ _ _ _ _ _ _ _ E1). right. exists f.
        rewrite Nat.sub_0_r in *. split; [lia |]. split; [exact Hk |].
        destruct Hf as [-> _]. reflexivity.
Qed.

(** The walker's tasks are stored strictly below the struct walked and
    pairwise apart, and the walker does not write to their storage. *)
Lemma collectFields_ok (t : gotype) : walker_ok (collectFields cfg t).
Proof. apply collectFields_ok_pointee. Qed.

(** *** The walk, one iteration at a time *)

Lemma first_pass_cases (rec : gotype -> path -> value -> walk_acc -> value * walk_acc)
      (here : path) (f : sfield gotype) (fs : list (sfield gotype)) (i : nat)
      (vs : list value) (acc : walk_acc) :
  exists vs1 acc1,
    first_pass cfg rec here (f :: fs) i vs acc = first_pass cfg rec here fs (S i) vs1 acc1 /\
    first_step cfg rec here i f vs acc vs1 acc1.
Proof.
  cbn [first_pass]. destruct (fanon f && is_struct (ftype f)) eqn:Ea.
  - destruct (vs !! i) as [fv|] eqn:Ev.
    + destruct (rec (ftype f) (here ++ [Fld i]) fv acc) as [fv' acc1] eqn:Er.
      exists (<[i := fv']> vs), acc1. split; [reflexivity |].
      eapply first_embedded; eassumption.
    + exists vs, acc. split; [reflexivity |]. now apply first_absent.
  - eexists vs, _. split; [reflexivity |]. now apply first_tagged.
Qed.

Lemma second_pass_cases (rec : gotype -> path -> value -> walk_acc -> value * walk_acc)
      (here : path) (f : sfield gotype) (fs : list (sfield gotype)) (i : nat)
      (vs : list value) (acc : walk_acc) :
  exists vs1 acc1,
    second_pass rec here (f :: fs) i vs acc = second_pass rec here fs (S i) vs1 acc1 /\
    second_step rec here i f vs acc vs1 acc1.
Proof.
  assert (Hskip : exists vs1 acc1,
            second_pass rec here fs (S i) vs acc = second_pass rec here fs (S i) vs1 acc1 /\
            second_step rec here i f vs acc vs1 acc1).
  { exists vs, acc. split; [reflexivity | constructor]. }
  cbn [second_pass]. unfold has_tag.
  destruct (fanon f) eqn:Ea; [exact Hskip |].
  destruct (fexported f) eqn:Ee; [| exact Hskip].
  destruct (ftag f) as [t|] eqn:Et; [exact Hskip |]. cbn [orb negb].
  assert (Hp : plain_untagged f) by (unfold plain_untagged; auto).
  destruct (ftype f) as [ | |b| |b|b| |e|n|e|n gs|n] eqn:Eft; cbn [is_struct andb];
    try exact Hskip.
  - destruct (vs !! i) as [[| | | | | | | |actualVal| |]|] eqn:Ev; try exact Hskip.
    + destruct (is_struct e) eqn:Es; [| exact Hskip].
      destruct (hasSecretTags e) eqn:Eh.
      * destruct (rec e (here ++ [Fld i; Deref]) (zero e) acc) as [w acc1] eqn:Er.
        exists (<[i := VPtr w]> vs), acc1. split; [reflexivity |].
        eapply second_allocated_walked; eauto.
      * exists (<[i := VPtr (zero e)]> vs), acc. split; [reflexivity |].
        eapply second_allocated; eauto.
    + destruct (is_struct e) eqn:Es; [| exact Hskip].
      destruct (hasSecretTags e) eqn:Eh; [| exact Hskip]. cbn [andb].
      destruct (rec e (here ++ [Fld i; Deref]) actualVal acc) as [w acc1] eqn:Er.
      exists (<[i := VPtr w]> vs), acc1. split; [reflexivity |].
      eapply second_pointee_walked; eauto.
  - destruct (hasSecretTags (TStruct n gs)) eqn:Eh; [| exact Hskip].
    destruct (vs !! i) as [actualVal|] eqn:Ev; [| exact Hskip].
    destruct (rec (TStruct n gs) (here ++ [Fld i]) actualVal acc) as [w acc1] eqn:Er.
    exists (<[i := w]> vs), acc1. split; [reflexivity |].
    eapply second_struct_walked; eauto; rewrite Eft; auto.
Qed.

End WalkerFacts.

(* ================================================================= *)
(** ** The names the walk reports *)

Section WalkAccounting.
Context `{StdLib}.
Variable cfg : resolverConfig.

Lemma walk_names_task (acc : walk_acc) (fi : fieldInfo) :
  walk_names (acc.1 ++ [fi], acc.2) ≡ₚ walk_names acc ++ [Resolver.fieldName fi].
Proof.
  unfold walk_names. cbn [fst snd]. rewrite fmap_app, <- !app_assoc.
  apply Permutation_app_head. cbn. apply Permutation_cons_append.
Qed.

Lemma walk_names_error (acc : walk_acc) (e : error) (name : string) :
  error_field e = Some name ->
  walk_names (acc.1, acc.2 ++ [e]) = walk_names acc ++ [name].
Proof.
  intros He. unfold walk_names. cbn [fst snd]. rewrite omap_app, app_assoc.
  cbn. now rewrite He.
Qed.

Lemma accounts_nothing (acc : walk_acc) (names : list string) :
  exists N, walk_names acc ≡ₚ walk_names acc ++ N /\ N ⊆+ names.
Proof. exists []. rewrite app_nil_r. split; [reflexivity | apply submseteq_nil_l]. Qed.

Lemma collect_tagged_accounts (here : path) (i : nat) (f : sfield gotype) (acc : walk_acc) :
  exists N,
    walk_names (collect_tagged cfg here i f acc) ≡ₚ walk_names acc ++ N /\
    N ⊆+ (if fexported f && has_tag f then [fname f] else []).
Proof.
  unfold collect_tagged, has_tag.
  destruct (fexported f); cbn [negb andb]; [| apply accounts_nothing].
  destruct (ftag f) as [tagStr|]; [| apply accounts_nothing].
  assert (Herr : forall e, error_field e = Some (fname f) ->
            exists N, walk_names (acc.1, acc.2 ++ [e]) ≡ₚ walk_names acc ++ N /\
                      N ⊆+ [fname f]).
  { intros e He. exists [fname f]. now rewrite (walk_names_error _ _ _ He). }
  destruct (parseTag tagStr) as [tag|err]; [| now apply Herr].
  assert (Hgo : forall p pn,
            exists N,
              walk_names
                (if isVersionedType (ftype f) && negb (is_versioned_provider p)
                 then (acc.1, acc.2 ++ [ErrVersioningNotSupported (fname f) pn])
                 else (acc.1 ++ [mkFieldInfo (fname f) (here ++ [Fld i]) (ftype f) tag p pn
                                             (isVersionedType (ftype f))], acc.2))
              ≡ₚ walk_names acc ++ N /\ N ⊆+ [fname f]).
  { intros p pn. destruct (_ && _); [now apply Herr |].
    exists [fname f]. split; [apply walk_names_task | reflexivity]. }
  destruct (negb (String.eqb (Scheme tag) "")).
  - destruct (providers cfg !! Scheme tag); [apply Hgo | now apply Herr].
  - destruct (defaultProvider cfg); [apply Hgo | now apply Herr].
Qed.

(** Two walks in a row. *)
Lemma accounts_then (acc acc1 acc2 : walk_acc) (N1 N2 names1 names2 : list string) :
  walk_names acc1 ≡ₚ walk_names acc ++ N1 -> N1 ⊆+ names1 ->
  walk_names acc2 ≡ₚ walk_names acc1 ++ N2 -> N2 ⊆+ names2 ->
  exists N, walk_names acc2 ≡ₚ walk_names acc ++ N /\ N ⊆+ names1 ++ names2.
Proof.
  intros E1 S1 E2 S2. exists (N1 ++ N2). split.
  - now rewrite E2, E1, app_assoc.
  - now apply submseteq_app.
Qed.

Lemma first_pass_accounts
      (rec : gotype -> path -> value -> walk_acc -> value * walk_acc)
      (here : path) (fs : list (sfield gotype)) :
  Forall (fun f => accounts (tagged_names (ftype f)) (rec (ftype f))) fs ->
  forall i vs acc vs' acc',
    first_pass cfg rec here fs i vs acc = (vs', acc') ->
    exists N, walk_names acc' ≡ₚ walk_names acc ++ N /\
              N ⊆+ flat_map (first_names tagged_names) fs.
Proof.
  induction 1 as [|f fs Hf Hfs IH]; intros i vs acc vs' acc'.
  - cbn [first_pass]. intros [= _ <-]. apply accounts_nothing.
  - destruct (first_pass_cases cfg rec here f fs i vs acc) as [vs1 [acc1 [-> Hstep]]].
    intros Hrest. destruct (IH _ _ _ _ _ Hrest) as [N2 [E2 S2]]. cbn [flat_map].
    assert (Hone : exists N1, walk_names acc1 ≡ₚ walk_names acc ++ N1 /\
                              N1 ⊆+ first_names tagged_names f).
    { unfold first_names.
      destruct Hstep as [fv fv' acc1 Ha _ Er | Ha _ | Ha]; rewrite Ha.
      - exact (Hf _ _ _ _ _ Er).
      - apply accounts_nothing.
      - apply collect_tagged_accounts. }
    destruct Hone as [N1 [E1 S1]]. eapply accounts_then; eassumption.
Qed.

Lemma second_names_walked (f : sfield gotype) :
  plain_untagged f -> is_struct (walked_type (ftype f)) = true ->
  hasSecretTags (walked_type (ftype f)) = true ->
  second_names tagged_names f = tagged_names (walked_type (ftype f)).
Proof.
  intros [Ha [He Ht]] Hs Hh. unfold second_names, has_tag. rewrite Ha, He, Ht. cbn [orb negb].
  destruct (ftype f) as [ | |b| |b|b| |e|n|e|n gs|n]; try discriminate; cbn [walked_type] in *.
  - now rewrite Hs, Hh.
  - cbn [is_struct andb]. now rewrite Hh.
Qed.

Lemma second_pass_accounts
      (rec : gotype -> path -> value -> walk_acc -> value * walk_acc)
      (here : path) (fs : list (sfield gotype)) :
  Forall (fun f => accounts (tagged_names (ftype f)) (rec (ftype f)) /\
                   forall e, ftype f = TPtr e -> accounts (tagged_names e) (rec e)) fs ->
  forall i vs acc vs' acc',
    second_pass rec here fs i vs acc = (vs', acc') ->
    exists N, walk_names acc' ≡ₚ walk_names acc ++ N /\
              N ⊆+ flat_map (second_names tagged_names) fs.
Proof.
  induction 1 as [|f fs [Hf Hfp] Hfs IH]; intros i vs acc vs' acc'.
  - cbn [second_pass]. intros [= _ <-]. apply accounts_nothing.
  - destruct (second_pass_cases rec here f fs i vs acc) as [vs1 [acc1 [-> Hstep]]].
    intros Hrest. destruct (IH _ _ _ _ _ Hrest) as [N2 [E2 S2]]. cbn [flat_map].
    assert (Hone : exists N1, walk_names acc1 ≡ₚ walk_names acc ++ N1 /\
                              N1 ⊆+ second_names tagged_names f).
    { destruct Hstep as [| |e w acc1 Hp Et Hs Hh _ Er|e a w acc1 Hp Et Hs Hh _ Er
                         |a w acc1 Hp Hs Hh _ Er]; try apply accounts_nothing.
      - rewrite (second_names_walked f Hp); rewrite Et; cbn [walked_type]; try assumption.
        exact (Hfp e Et _ _ _ _ _ Er).
      - rewrite (second_names_walked f Hp); rewrite Et; cbn [walked_type]; try assumption.
        exact (Hfp e Et _ _ _ _ _ Er).
      - assert (Hw : walked_type (ftype f) = ftype f)
          by (destruct (ftype f); try discriminate; reflexivity).
        rewrite (second_names_walked f Hp); rewrite Hw; try assumption.
        exact (Hf _ _ _ _ _ Er). }
    destruct Hone as [N1 [E1 S1]]. eapply accounts_then; eassumption.
Qed.

(** Every task and every error of a walk is reported under the name of a
    secret-tagged field the walk visits, and no field is reported twice. *)
Lemma collectFields_accounts (t : gotype) :
  accounts (tagged_names t) (collectFields cfg t).
Proof.
  enough (Hboth : accounts (tagged_names t) (collectFields cfg t) /\
                  forall e, t = TPtr e -> accounts (tagged_names e) (collectFields cfg e))
    by exact (proj1 Hboth).
  assert (Hid : forall t', (forall here sv acc, collectFields cfg t' here sv acc = (sv, acc)) ->
                           accounts (tagged_names t') (collectFields cfg t')).
  { intros t' E here sv acc sv' acc'. rewrite E. intros [= _ <-]. apply accounts_nothing. }
  induction t as [t Hs Hp | e IH | n fs IH2] using gotype_nested_ind.
  - split.
    + apply Hid. intros. destruct t; try reflexivity; discriminate.
    + intros e ->. discriminate.
  - split; [apply Hid; intros; reflexivity |]. intros e' [= <-]. exact (proj1 IH).
  - split; [| discriminate].
    intros here sv acc sv' acc'. cbn [collectFields tagged_names].
    destruct sv as [| | | | | | | | |vs|]; try (intros [= _ <-]; apply accounts_nothing).
    destruct (first_pass cfg (collectFields cfg) here fs 0 vs acc) as [vs1 acc1] eqn:E1.
    destruct (second_pass (collectFields cfg) here fs 0 vs1 acc1) as [vs2 acc2] eqn:E2.
    intros [= _ <-].
    assert (IH1 : Forall (fun f => accounts (tagged_names (ftype f))
                                            (collectFields cfg (ftype f))) fs).
    { eapply Forall_impl; [exact IH2 |]. intros f Hf. exact (proj1 Hf). }
    destruct (first_pass_accounts _ here fs IH1 _ _ _ _ _ E1) as [N1 [P1 S1]].
    destruct (second_pass_accounts _ here fs IH2 _ _ _ _ _ E2) as [N2 [P2 S2]].
    eapply accounts_then; eassumption.
Qed.

Lemma occurrences_app (name : string) (a b : list string) :
  occurrences name (a ++ b) = (occurrences name a + occurrences name b)%nat.
Proof. unfold occurrences. now rewrite List.filter_app, length_app. Qed.

Lemma occurrences_submseteq (name : string) (a b : list string) :
  a ⊆+ b -> (occurrences name a <= occurrences name b)%nat.
Proof.
  unfold occurrences.
  induction 1 as [|x l1 l2 _ IH|x y l|x l1 l2 _ IH|l1 l2 l3 _ IH1 _ IH2]; cbn [List.filter].
  - lia.
  - destruct (String.eqb name x); cbn [length]; lia.
  - destruct (String.eqb name x), (String.eqb name y); cbn [length]; lia.
  - destruct (String.eqb name x); cbn [length]; lia.
  - lia.
Qed.

Lemma occurrences_none (name : string) (l : list string) :
  occurrences name l = 0%nat -> ~ In name l.
Proof.
  unfold occurrences. induction l as [|x l IH]; cbn [List.filter In]; [tauto |].
  destruct (String.eqb_spec name x) as [-> | Hne]; cbn [length]; [discriminate |].
  intros H0 [E | Hin]; [now apply Hne | now apply IH].
Qed.

(** A task whose name no other tagged field of the walk bears: no other
    task has the name, and no error of the walk carries it. *)
Lemma sole_bearer (t : gotype) (elem elem1 : value)
      (before after : list fieldInfo) (fi : fieldInfo) (collectErrs : list error) :
  collectFields cfg t [] elem ([], []) = (elem1, (before ++ fi :: after, collectErrs)) ->
  (occurrences (Resolver.fieldName fi) (tagged_names t) <= 1)%nat ->
  (forall fj, In fj (before ++ after) -> Resolver.fieldName fj <> Resolver.fieldName fi) /\
  (forall e, In e collectErrs -> error_field e <> Some (Resolver.fieldName fi)).
Proof.
  intros Hc Honce.
  destruct (collectFields_accounts t _ _ _ _ _ Hc) as [N [HP HS]].
  cbn [walk_names fst snd app] in HP.
  assert (Hle : (occurrences (Resolver.fieldName fi)
                   (walk_names (before ++ fi :: after, collectErrs)) <= 1)%nat).
  { etransitivity; [| exact Honce]. etransitivity; [| apply occurrences_submseteq, HS].
    apply occurrences_submseteq. now rewrite HP. }
  unfold walk_names in Hle. cbn [fst snd] in Hle.
  rewrite fmap_app, fmap_cons, !occurrences_app in Hle.
  change (Resolver.fieldName fi :: (Resolver.fieldName <$> after))
    with ([Resolver.fieldName fi] ++ (Resolver.fieldName <$> after)) in Hle.
  rewrite occurrences_app in Hle.
  assert (Hself : occurrences (Resolver.fieldName fi) [Resolver.fieldName fi] = 1%nat).
  { unfold occurrences. cbn. now rewrite String.eqb_refl. }
  rewrite Hself in Hle. split.
  - intros fj Hj E. apply in_app_iff in Hj as [Hj | Hj].
    + apply (occurrences_none (Resolver.fieldName fi) (Resolver.fieldName <$> before));
        [lia |]. rewrite <- E. apply list_elem_of_In, list_elem_of_fmap.
      exists fj. split; [reflexivity | now apply list_elem_of_In].
    + apply (occurrences_none (Resolver.fieldName fi) (Resolver.fieldName <$> after));
        [lia |]. rewrite <- E. apply list_elem_of_In, list_elem_of_fmap.
      exists fj. split; [reflexivity | now apply list_elem_of_In].
  - intros e He E.
    apply (occurrences_none (Resolver.fieldName fi) (omap error_field collectErrs)); [lia |].
    apply list_elem_of_In, list_elem_of_omap. exists e.
    split; [now apply list_elem_of_In | exact E].
Qed.

(** The names under which a walk reports. *)
Lemma walk_reports_tagged_names (t : gotype) (elem elem1 : value)
      (fields : list fieldInfo) (collectErrs : list error) :
  collectFields cfg t [] elem ([], []) = (elem1, (fields, collectErrs)) ->
  (forall fi, In fi fields -> In (Resolver.fieldName fi) (tagged_names t)) /\
  (forall e name, In e collectErrs -> error_field e = Some name -> In name (tagged_names t)).
Proof.
  intros Hc. destruct (collectFields_accounts t _ _ _ _ _ Hc) as [N [HP HS]].
  cbn [walk_names fst snd app] in HP.
  assert (Hin : forall name, In name (walk_names (fields, collectErrs)) ->
                             In name (tagged_names t)).
  { intros name Hn. apply list_elem_of_In. eapply elem_of_submseteq; [| exact HS].
    rewrite <- HP. now apply list_elem_of_In. }
  unfold walk_names in Hin. cbn [fst snd] in Hin. split.
  - intros fi Hfi. apply Hin, in_app_iff. left.
    apply list_elem_of_In, list_elem_of_fmap. exists fi. split; [reflexivity | now apply list_elem_of_In].
  - intros e name He E. apply Hin, in_app_iff. right.
    apply list_elem_of_In, list_elem_of_omap. exists e. split; [now apply list_elem_of_In | exact E].
Qed.

End WalkAccounting.

(* ================================================================= *)
(** ** The structs the walk enters *)

Section WalkStructFacts.
Context `{StdLib}.
Variable cfg : resolverConfig.

Lemma walks_into_headed (t : gotype) (seg : path) (s : gotype) :
  walks_into t seg s -> exists i r, seg = Fld i :: r.
Proof. intros [n fs i f | n fs i f | n fs i f e]; eauto. Qed.

Lemma enters_snoc (t : gotype) (p : path) (s : gotype) (seg : path) (s' : gotype) :
  enters t p s -> walks_into s seg s' -> enters t (p ++ seg) s'.
Proof.
  induction 1 as [t | t seg0 s1 p s Hw He IH]; intros Hs.
  - cbn. rewrite <- (app_nil_r seg). eapply enters_step; [exact Hs | constructor].
  - rewrite <- app_assoc. eapply enters_step; [exact Hw | now apply IH].
Qed.

(** The field decides which call is made, if any. *)
Lemma walks_into_det (t : gotype) (seg seg' p p' : path) (s s' : gotype) :
  walks_into t seg s -> walks_into t seg' s' -> seg ++ p = seg' ++ p' ->
  seg = seg' /\ s = s' /\ p = p'.
Proof.
  intros H1 H2 E.
  destruct H1 as [n fs i f Hf Ha | n fs i f Hf [Hp _] Hs Hh | n fs i f e Hf [Hp _] Ht Hs Hh];
    inversion H2 as [n' fs' i' f' Hf' Ha' | n' fs' i' f' Hf' [Hp' _] Hs' Hh'
                     | n' fs' i' f' e' Hf' [Hp' _] Ht' Hs' Hh']; subst;
    cbn in E; injection E as Ei Ep; subst i'; rewrite Hf in Hf'; injection Hf' as <-;
    try (exfalso;
         match goal with
         | Ha : fanon ?g && _ = true, Hp : fanon ?g = false |- _ =>
             rewrite Hp in Ha; discriminate Ha
         | Ht : ftype ?g = TPtr _, Hs : is_struct (ftype ?g) = true |- _ =>
             rewrite Ht in Hs; discriminate Hs
         end);
    auto.
  match goal with
  | Ht : ftype ?g = TPtr _, Ht' : ftype ?g = TPtr _ |- _ =>
      rewrite Ht in Ht'; injection Ht' as <-
  end.
  auto.
Qed.

Lemma enters_through (t : gotype) (a : path) (s : gotype) :
  enters t a s -> forall b s', enters t (a ++ b) s' -> enters s b s'.
Proof.
  induction 1 as [t | t seg s1 p s Hw He IH]; intros b s' H2; [exact H2 |].
  rewrite <- app_assoc in H2. remember (seg ++ p ++ b) as full eqn:Efull.
  destruct H2 as [t | t seg' s1' p' s' Hw' He'].
  - destruct (walks_into_headed _ _ _ Hw) as [i [r ->]]. discriminate Efull.
  - destruct (walks_into_det _ _ _ _ _ _ _ Hw' Hw Efull) as [-> [-> ->]]. now apply IH.
Qed.

Lemma enters_nil (t s : gotype) : enters t [] s -> s = t.
Proof.
  intros He. remember [] as p eqn:Ep. destruct He as [t | t seg s1 p s Hw He]; [reflexivity |].
  destruct (walks_into_headed _ _ _ Hw) as [i [r ->]]. discriminate Ep.
Qed.

Lemma enters_functional (t : gotype) (p : path) (s s' : gotype) :
  enters t p s -> enters t p s' -> s' = s.
Proof.
  intros H1 H2. apply enters_nil. apply (enters_through _ _ _ H1).
  now rewrite app_nil_r.
Qed.



(** *** Values of a type *)





(** *** The iteration that walks a field *)





(** *** Pointers the walk allocates *)




(** *** Where the tasks of a walk are stored *)


(** The errors the first loop reports at a field blame that field. *)
Lemma collect_tagged_blames (root : gotype) (n : string) (fs : list (sfield gotype))
      (here : path) (i : nat) (f : sfield gotype) (acc : walk_acc) :
  enters root here (TStruct n fs) -> fs !! i = Some f ->
  fanon f && is_struct (ftype f) = false ->
  Forall (blames cfg root) acc.2 ->
  Forall (blames cfg root) (collect_tagged cfg here i f acc).2.
Proof.
  intros He Hf Ha Hacc.
  assert (Hadd : forall e, fexported f = true -> has_tag f = true -> at_fault cfg f e ->
            error_field e = Some (fname f) -> Forall (blames cfg root) (acc.2 ++ [e])).
  { intros e Hx Ht Hfault Hname. apply Forall_app. split; [exact Hacc |].
    constructor; [| constructor]. exists here, n, fs, i, f. auto 10. }
  unfold collect_tagged.
  destruct (fexported f) eqn:Hx; cbn [negb]; [| exact Hacc].
  destruct (ftag f) as [tagStr|] eqn:Etag; [| exact Hacc].
  assert (Ht : has_tag f = true) by (unfold has_tag; now rewrite Etag).
  destruct (parseTag tagStr) as [tag|err] eqn:Ep.
  2: { cbn [snd]. apply Hadd; auto. eapply fault_tag; eassumption. }
  assert (Hgo : forall p pn,
            (Scheme tag <> "" /\ providers cfg !! Scheme tag = Some p /\ pn = Scheme tag) \/
            (Scheme tag = "" /\ defaultProvider cfg = Some p /\ pn = "default") ->
            Forall (blames cfg root)
              (if isVersionedType (ftype f) && negb (is_versioned_provider p)
               then (acc.1, acc.2 ++ [ErrVersioningNotSupported (fname f) pn])
               else (acc.1 ++ [mkFieldInfo (fname f) (here ++ [Fld i]) (ftype f) tag p pn
                                           (isVersionedType (ftype f))], acc.2)).2).
  { intros p pn Hb.
    destruct (isVersionedType (ftype f)) eqn:Ev; cbn [andb]; [| exact Hacc].
    destruct (is_versioned_provider p) eqn:Evp; cbn [negb]; [exact Hacc |].
    cbn [snd]. apply Hadd; auto. eapply fault_versioning; eassumption. }
  destruct (String.eqb_spec (Scheme tag) "") as [Es | Es]; cbn [negb].
  - destruct (defaultProvider cfg) as [p|] eqn:Ed.
    + apply Hgo. right. auto.
    + cbn [snd]. apply Hadd; auto. eapply fault_no_default; eassumption.
  - destruct (providers cfg !! Scheme tag) as [p|] eqn:Ed.
    + apply Hgo. left. auto.
    + cbn [snd]. apply Hadd; auto. eapply fault_unknown_provider; eassumption.
Qed.

Section Kept.
Variable root : gotype.
Variable Q : walk_acc -> Prop.
Hypothesis Q_tagged :
  forall n fs here i f acc,
    enters root here (TStruct n fs) -> fs !! i = Some f ->
    fanon f && is_struct (ftype f) = false ->
    Q acc -> Q (collect_tagged cfg here i f acc).

Lemma first_pass_invariant (n : string) (all : list (sfield gotype))
      (rec : gotype -> path -> value -> walk_acc -> value * walk_acc) (here : path) :
  enters root here (TStruct n all) ->
  forall fs i,
    (forall j f, fs !! j = Some f -> all !! (i + j)%nat = Some f) ->
    Forall (fun f => walk_keeps root Q (ftype f) (rec (ftype f))) fs ->
    forall vs acc vs' acc',
      first_pass cfg rec here fs i vs acc = (vs', acc') -> Q acc -> Q acc'.
Proof.
  intros He fs. induction fs as [|f fs IH]; intros i Hall Hrec vs acc vs' acc'.
  - cbn. now intros [= _ <-].
  - inversion Hrec as [|? ? Hf Hfs]; subst.
    assert (Hfi : all !! i = Some f).
    { rewrite <- (Nat.add_0_r i). now apply Hall. }
    destruct (first_pass_cases cfg rec here f fs i vs acc) as [vs1 [acc1 [-> Hstep]]].
    intros Hrest Hacc.
    assert (Hall' : forall j g, fs !! j = Some g -> all !! (S i + j)%nat = Some g).
    { intros j g Hg. replace (S i + j)%nat with (i + S j)%nat by lia. now apply Hall. }
    apply (IH (S i) Hall' Hfs _ _ _ _ Hrest).
    destruct Hstep as [fv fv' acc1 Ha _ Er | Ha _ | Ha]; [| exact Hacc |].
    + eapply Hf; [| exact Er | exact Hacc].
      eapply enters_snoc; [exact He | eapply into_embedded; eassumption].
    + now apply (Q_tagged n all).
Qed.

Lemma second_pass_invariant (n : string) (all : list (sfield gotype))
      (rec : gotype -> path -> value -> walk_acc -> value * walk_acc) (here : path) :
  enters root here (TStruct n all) ->
  forall fs i,
    (forall j f, fs !! j = Some f -> all !! (i + j)%nat = Some f) ->
    Forall (fun f => walk_keeps root Q (ftype f) (rec (ftype f)) /\
                     forall e, ftype f = TPtr e -> walk_keeps root Q e (rec e)) fs ->
    forall vs acc vs' acc',
      second_pass rec here fs i vs acc = (vs', acc') -> Q acc -> Q acc'.
Proof.
  intros He fs. induction fs as [|f fs IH]; intros i Hall Hrec vs acc vs' acc'.
  - cbn. now intros [= _ <-].
  - inversion Hrec as [|? ? [Hf Hfp] Hfs]; subst.
    assert (Hfi : all !! i = Some f).
    { rewrite <- (Nat.add_0_r i). now apply Hall. }
    destruct (second_pass_cases rec here f fs i vs acc) as [vs1 [acc1 [-> Hstep]]].
    intros Hrest Hacc.
    assert (Hall' : forall j g, fs !! j = Some g -> all !! (S i + j)%nat = Some g).
    { intros j g Hg. replace (S i + j)%nat with (i + S j)%nat by lia. now apply Hall. }
    apply (IH (S i) Hall' Hfs _ _ _ _ Hrest).
    destruct Hstep as [| |e w acc1 Hp Et Hs Hh _ Er|e a w acc1 Hp Et Hs Hh _ Er
                       |a w acc1 Hp Hs Hh _ Er]; try exact Hacc.
    + eapply (Hfp e Et); [| exact Er | exact Hacc].
      eapply enters_snoc; [exact He | eapply into_pointee; eassumption].
    + eapply (Hfp e Et); [| exact Er | exact Hacc].
      eapply enters_snoc; [exact He | eapply into_pointee; eassumption].
    + eapply Hf; [| exact Er | exact Hacc].
      eapply enters_snoc; [exact He | eapply into_struct; eassumption].
Qed.

Lemma collectFields_invariant (t : gotype) :
  walk_keeps root Q t (collectFields cfg t) /\
  forall e, t = TPtr e -> walk_keeps root Q e (collectFields cfg e).
Proof.
  assert (Hid : forall t', (forall here sv acc, collectFields cfg t' here sv acc = (sv, acc)) ->
                           walk_keeps root Q t' (collectFields cfg t')).
  { intros t' E here sv acc sv' acc' _. rewrite E. now intros [= _ <-]. }
  induction t as [t Hs Hp | e IH | n fs IH2] using gotype_nested_ind.
  - split.
    + apply Hid. intros. destruct t; try reflexivity; discriminate.
    + intros e ->. discriminate.
  - split; [apply Hid; intros; reflexivity |]. intros e' [= <-]. exact (proj1 IH).
  - split; [| discriminate].
    intros here sv acc sv' acc' He. cbn [collectFields].
    destruct sv as [| | | | | | | | |vs|]; try (now intros [= _ <-]).
    destruct (first_pass cfg (collectFields cfg) here fs 0 vs acc) as [vs1 acc1] eqn:E1.
    destruct (second_pass (collectFields cfg) here fs 0 vs1 acc1) as [vs2 acc2] eqn:E2.
    intros [= _ <-] Hacc.
    assert (Hall : forall j f, fs !! j = Some f -> fs !! (0 + j)%nat = Some f) by auto.
    assert (IH1 : Forall (fun f => walk_keeps root Q (ftype f) (collectFields cfg (ftype f))) fs).
    { eapply Forall_impl; [exact IH2 |]. intros f Hf. exact (proj1 Hf). }
    apply (second_pass_invariant n fs _ here He fs 0%nat Hall IH2 _ _ _ _ E2).
    exact (first_pass_invariant n fs _ here He fs 0%nat Hall IH1 _ _ _ _ E1 Hacc).
Qed.

End Kept.


(** The walk of a record: every error it reports blames a field with a
    [secret] tag of a struct that the walk enters. *)
Lemma walk_errors_blame (t : gotype) (elem elem1 : value)
      (fields : list fieldInfo) (collectErrs : list error) :
  collectFields cfg t [] elem ([], []) = (elem1, (fields, collectErrs)) ->
  Forall (blames cfg t) collectErrs.
Proof.
  intros Hc.
  apply (proj1 (collectFields_invariant t (fun acc => Forall (blames cfg t) acc.2)
                  (collect_tagged_blames t) t)
           _ _ _ _ _ (enters_here t) Hc).
  constructor.
Qed.

(** A task comes from a field in which the first loop finds nothing at
    fault. *)
Lemma collect_tagged_faultless (root : gotype) (n : string) (fs : list (sfield gotype))
      (here : path) (i : nat) (f : sfield gotype) (acc : walk_acc) :
  enters root here (TStruct n fs) -> fs !! i = Some f ->
  fanon f && is_struct (ftype f) = false ->
  Forall (faultless cfg root) acc.1 ->
  Forall (faultless cfg root) (collect_tagged cfg here i f acc).1.
Proof.
  intros He Hf Ha Hacc. unfold collect_tagged.
  destruct (fexported f); cbn [negb]; [| exact Hacc].
  destruct (ftag f) as [tagStr|] eqn:Etag; [| exact Hacc].
  destruct (parseTag tagStr) as [tag|err] eqn:Ep; [| exact Hacc].
  assert (Hgo : forall p pn,
            (forall p' pn',
               (Scheme tag <> "" /\ providers cfg !! Scheme tag = Some p' /\ pn' = Scheme tag) \/
               (Scheme tag = "" /\ defaultProvider cfg = Some p' /\ pn' = "default") ->
               p' = p) ->
            (Scheme tag <> "" -> providers cfg !! Scheme tag <> None) ->
            (Scheme tag = "" -> defaultProvider cfg <> None) ->
            Forall (faultless cfg root)
              (if isVersionedType (ftype f) && negb (is_versioned_provider p)
               then (acc.1, acc.2 ++ [ErrVersioningNotSupported (fname f) pn])
               else (acc.1 ++ [mkFieldInfo (fname f) (here ++ [Fld i]) (ftype f) tag p pn
                                           (isVersionedType (ftype f))], acc.2)).1).
  { intros p pn Hsole Hreg Hdef.
    destruct (isVersionedType (ftype f) && negb (is_versioned_provider p)) eqn:Ev;
      [exact Hacc |].
    cbn [fst]. apply Forall_app. split; [exact Hacc |]. constructor; [| constructor].
    exists here, n, fs, i, f. repeat split; auto.
    intros e Hfault.
    destruct Hfault as [ts err Ht Hp | ts tg Ht Hp Hsc Hnone | ts tg Ht Hp Hsc Hnone
                        | ts tg p' pn' Ht Hp Hb Hv Hvp];
      rewrite Etag in Ht; injection Ht as <-; rewrite Ep in Hp; try discriminate;
      injection Hp as <-.
    - now apply Hreg.
    - now apply Hdef.
    - rewrite (Hsole p' pn' Hb) in Hvp. rewrite Hv, Hvp in Ev. discriminate. }
  destruct (String.eqb_spec (Scheme tag) "") as [Es | Es]; cbn [negb].
  - destruct (defaultProvider cfg) as [p|] eqn:Ed; [| exact Hacc].
    apply Hgo.
    + intros p' pn' [[Hne _] | [_ [Hd _]]]; [contradiction | congruence].
    + intros Hne. contradiction.
    + discriminate.
  - destruct (providers cfg !! Scheme tag) as [p|] eqn:Ed; [| exact Hacc].
    apply Hgo.
    + intros p' pn' [[_ [Hd _]] | [He' _]]; [congruence | contradiction].
    + discriminate.
    + intros He'. contradiction.
Qed.

Lemma walk_tasks_faultless (t : gotype) (elem elem1 : value)
      (fields : list fieldInfo) (collectErrs : list error) :
  collectFields cfg t [] elem ([], []) = (elem1, (fields, collectErrs)) ->
  Forall (faultless cfg t) fields.
Proof.
  intros Hc.
  apply (proj1 (collectFields_invariant t (fun acc => Forall (faultless cfg t) acc.1)
                  (collect_tagged_faultless t) t)
           _ _ _ _ _ (enters_here t) Hc).
  constructor.
Qed.

(** No error of the walk is for the field of a task: each reports the
    fault of a field stored elsewhere. *)
Lemma walk_errors_elsewhere (t : gotype) (elem elem1 : value)
      (fields : list fieldInfo) (collectErrs : list error) (fi : fieldInfo) :
  collectFields cfg t [] elem ([], []) = (elem1, (fields, collectErrs)) ->
  In fi fields ->
  Forall (blames_elsewhere cfg t (fieldValue fi)) collectErrs.
Proof.
  intros Hc Hfi.
  pose proof (walk_tasks_faultless _ _ _ _ _ Hc) as Htasks.
  rewrite Forall_forall in Htasks.
  destruct (Htasks fi) as [p' [n' [fs' [j [g [Eq [He' [Hg Hnone]]]]]]]];
    [now apply list_elem_of_In |].
  eapply Forall_impl; [exact (walk_errors_blame _ _ _ _ _ Hc) |].
  intros e [p [n [fs [i [f [He [Hf [_ [_ [Hfault _]]]]]]]]]].
  exists p, n, fs, i, f. repeat split; auto.
  rewrite Eq. intros E. apply app_inj_tail in E as [-> [= ->]].
  pose proof (enters_functional _ _ _ _ He He') as [= -> ->].
  rewrite Hf in Hg. injection Hg as <-. exact (Hnone e Hfault).
Qed.

End WalkStructFacts.

(* ================================================================= *)
(** ** The fetch plan *)

Section PlanFacts.

Lemma NoDup_app_stdlib_cons (l : list string) (x : string) :
  List.NoDup l -> ~ In x l -> List.NoDup (l ++ [x]).
Proof.
  induction 1 as [|a l Ha Hl IH]; intros Hx; cbn.
  - constructor; [intros [] | constructor].
  - constructor.
    + rewrite in_app_iff. cbn. intros [? | [-> | []]]; [tauto |]. apply Hx. now left.
    + apply IH. intros ?. apply Hx. now right.
Qed.

Lemma plan_key_inv (k : fetchKey) (fi : fieldInfo) (v : string)
      (st : gset string * list fetchSpec) :
  plan_inv st ->
  plan_inv (plan_key k fi v st) /\
  fetchKey_String k ∈ (plan_key k fi v st).1 /\
  (forall x, x ∈ st.1 -> x ∈ (plan_key k fi v st).1).
Proof.
  destruct st as [seen specs]. intros [Hs Hn]. unfold plan_key, plan_inv in *.
  cbn [fst snd] in *. destruct (decide (fetchKey_String k ∈ seen)) as [Hin | Hout];
    cbn [fst snd].
  - auto.
  - split; [split |].
    + intros x. rewrite List.map_app, in_app_iff, elem_of_union, elem_of_singleton, Hs.
      cbn. unfold spec_key at 2. cbn. intuition.
    + rewrite List.map_app. cbn. apply NoDup_app_stdlib_cons; [exact Hn |].
      intros Hi. apply Hout, Hs, Hi.
    + split.
      * apply elem_of_union_l, elem_of_singleton. reflexivity.
      * intros x Hx. apply elem_of_union_r, Hx.
Qed.

Lemma plan_field_inv (st : gset string * list fetchSpec) (fi : fieldInfo) :
  plan_inv st ->
  plan_inv (plan_field st fi) /\
  (forall k, In k (needed_keys fi) -> k ∈ (plan_field st fi).1) /\
  (forall x, x ∈ st.1 -> x ∈ (plan_field st fi).1).
Proof.
  intros Hi. unfold plan_field, needed_keys. destruct (isVersioned fi).
  - destruct (plan_key_inv (mkKey (URI (tag fi)) "") fi "" st Hi) as [H1 [K1 M1]].
    destruct (plan_key_inv (mkKey (URI (tag fi)) "previous") fi "previous" _ H1)
      as [H2 [K2 M2]].
    split; [exact H2 |]. split; [| auto].
    intros k [<- | [<- | []]]; auto.
  - destruct (plan_key_inv (mkKey (URI (tag fi)) (Version (tag fi))) fi
                           (Version (tag fi)) st Hi) as [H1 [K1 M1]].
    split; [exact H1 |]. split; [| auto].
    intros k [<- | []]; auto.
Qed.

Lemma plan_fold_inv (fields : list fieldInfo) (st : gset string * list fetchSpec) :
  plan_inv st ->
  plan_inv (fold_left plan_field fields st) /\
  (forall fi k, In fi fields -> In k (needed_keys fi) ->
                k ∈ (fold_left plan_field fields st).1) /\
  (forall x, x ∈ st.1 -> x ∈ (fold_left plan_field fields st).1).
Proof.
  revert st; induction fields as [|fi fields IH]; intros st Hi; cbn [fold_left].
  - split; [exact Hi |]. split; [intros ? ? [] | auto].
  - destruct (plan_field_inv st fi Hi) as [H1 [K1 M1]].
    destruct (IH _ H1) as [H2 [K2 M2]].
    split; [exact H2 |]. split; [| auto].
    intros fj k [<- | Hj] Hk; [apply M2, K1, Hk | eapply K2; eassumption].
Qed.

Lemma plan_inv_empty : plan_inv (∅, []).
Proof. split; [intros k; cbn; set_solver | constructor]. Qed.

(** Every key the assignment loop reads is the key of a planned fetch,
    and no key is fetched twice. *)
Lemma plan_covers (fields : list fieldInfo) :
  List.NoDup (List.map spec_key (plan fields).2) /\
  forall fi k, In fi fields -> In k (needed_keys fi) ->
               In k (List.map spec_key (plan fields).2).
Proof.
  destruct (plan_fold_inv fields _ plan_inv_empty) as [[Hs Hn] [Hk _]].
  split; [exact Hn |]. intros fi k Hf Hin. apply Hs. eapply Hk; eassumption.
Qed.

Lemma fetch_fold_dom (specs : list fetchSpec) (m : gmap string (string + error)) (k : string) :
  is_Some (fold_left (fun results spec => <[fetchKey_String (key spec) := fetch spec]> results)
                     specs m !! k)
  <-> is_Some (m !! k) \/ In k (List.map spec_key specs).
Proof.
  revert m; induction specs as [|s specs IH]; intros m; cbn [fold_left List.map In].
  - tauto.
  - rewrite IH, lookup_insert_is_Some. unfold spec_key at 2.
    destruct (decide (fetchKey_String (key s) = k)); tauto.
Qed.

Lemma fetch_all_dom (specs : list fetchSpec) (k : string) :
  is_Some (fetch_all specs !! k) <-> In k (List.map spec_key specs).
Proof.
  unfold fetch_all. rewrite fetch_fold_dom, lookup_empty. split; [intros [[? ?] | ?]; [discriminate | assumption] | auto].
Qed.

End PlanFacts.

(* ================================================================= *)
(** ** The assignment loop *)

Section AssignFacts.
Context `{JSONLib} `{text : !TextLib}.

Lemma written_below_refl (p : path) (dst : value) : written_below p dst dst.
Proof. split; auto. Qed.

Lemma written_below_trans (p : path) (a b c : value) :
  written_below p a b -> written_below p b c -> written_below p a c.
Proof.
  intros [H1 H2] [H3 H4]. split.
  - intros q Hq. now rewrite H3, H1.
  - auto.
Qed.

Lemma written_below_update (p r : path) (f : value -> value) (dst : value) :
  written_below p dst (update_path (p ++ r) f dst).
Proof.
  split.
  - intros q Hq. apply lookup_update_apart. now apply incomparable_extend_l.
  - intros q Hq. apply non_nil_update. intros [x Hx]. apply Hq.
    exists (r ++ x). now rewrite app_assoc.
Qed.

Lemma set_at_update (dst : value) (p : path) (ft : gotype) (name raw : string) :
  (set_at dst p ft name raw).1 =
  update_path p (fun _ => (setField ft (default (zero ft) (lookup_path p dst)) name raw).1) dst
  /\ (set_at dst p ft name raw).2 =
     (setField ft (default (zero ft) (lookup_path p dst)) name raw).2.
Proof. unfold set_at. now destruct (setField _ _ _ _). Qed.

Lemma written_below_set_at (p r : path) (dst : value) (ft : gotype) (name raw : string) :
  written_below p dst (set_at dst (p ++ r) ft name raw).1.
Proof. rewrite (proj1 (set_at_update _ _ _ _ _)). apply written_below_update. Qed.

Lemma written_below_set_at_here (p : path) (dst : value) (ft : gotype) (name raw : string) :
  written_below p dst (set_at dst p ft name raw).1.
Proof.
  pose proof (written_below_set_at p [] dst ft name raw) as Hw.
  now rewrite app_nil_r in Hw.
Qed.

Lemma setField_error_field (ft : gotype) (fv : value) (name raw : string)
      (v : value) (e : error) :
  setField ft fv name raw = (v, Some e) -> error_field e = Some name.
Proof.
  revert fv v; induction ft as [ | |b| |b|b| |el _|n|el IH|n fs|n]; intros fv v; cbn [setField].
  - discriminate.
  - destruct (ParseBool _); intros [= <- <-]; reflexivity.
  - destruct (ParseInt _ _); intros [= <- <-]; reflexivity.
  - destruct (ParseDuration _); intros [= <- <-]; reflexivity.
  - destruct (ParseUint _ _); intros [= <- <-]; reflexivity.
  - destruct (ParseFloat _ _); intros [= <- <-]; reflexivity.
  - discriminate.
  - intros [= <- <-]. reflexivity.
  - destruct (UnmarshalText _ _ _) as [fv' [err|]]; intros [= <- <-]; reflexivity.
  - destruct (setField el (zero el) name raw) as [w [err|]] eqn:E; intros [= <- <-].
    eapply IH. exact E.
  - destruct (implementsTextUnmarshaler n);
      [destruct (UnmarshalText _ _ _) as [fv' [err|]] |]; intros [= <- <-]; reflexivity.
  - intros [= <- <-]. reflexivity.
Qed.

Lemma set_at_error_field (dst : value) (p : path) (ft : gotype) (name raw : string)
      (dst' : value) (e : error) :
  set_at dst p ft name raw = (dst', Some e) -> error_field e = Some name.
Proof.
  unfold set_at. destruct (setField _ _ _ _) as [new err] eqn:E. intros [= <- ->].
  eapply setField_error_field. exact E.
Qed.

(** One iteration appends errors, each under one of the task's names, and
    writes only at or below the task's storage. *)
Lemma assign_field_effect (results : gmap string (string + error))
      (dst : value) (errs : list error) (fi : fieldInfo) (st' : value * list error) :
  assign_field results (dst, errs) fi = Some st' ->
  (exists new, st'.2 = errs ++ new /\ Forall (attributed fi) new) /\
  written_below (fieldValue fi) dst st'.1.
Proof.
  assert (Hnone : exists new : list error, errs = errs ++ new /\ Forall (attributed fi) new).
  { exists []. rewrite app_nil_r. split; [reflexivity | constructor]. }
  assert (Hone : forall e name, error_field e = Some name -> In name (task_names fi) ->
            exists new : list error, errs ++ [e] = errs ++ new /\ Forall (attributed fi) new).
  { intros e name He Hn. exists [e]. split; [reflexivity |].
    constructor; [now exists name | constructor]. }
  assert (Hown : forall cause, exists new : list error,
            errs ++ [ErrField (fieldName fi) cause] = errs ++ new /\
            Forall (attributed fi) new).
  { intros cause. eapply Hone; [reflexivity | now left]. }
  unfold assign_field. destruct (isVersioned fi).
  - destruct (results !! _) as [[data|err]|]; [| | discriminate].
    + destruct (extracted (tag fi) data) as [cur|fe];
        [| intros [= <-]; split; [apply Hown | apply written_below_refl]].
      destruct (set_at dst (fieldValue fi ++ [Fld 0%nat]) _ _ cur) as [dst1 e1] eqn:E1.
      assert (W1 : written_below (fieldValue fi) dst dst1).
      { replace dst1 with (set_at dst (fieldValue fi ++ [Fld 0%nat])
                                  (field_type (fieldType fi) 0)
                                  (fieldName fi +:+ ".Current") cur).1 by now rewrite E1.
        apply written_below_set_at. }
      destruct e1 as [e1|].
      { intros [= <-]. split; [| exact W1].
        eapply Hone; [eapply set_at_error_field; exact E1 | right; now left]. }
      destruct (results !! _) as [[pdata|perr]|]; [| | discriminate].
      * destruct (extracted (tag fi) pdata) as [prev|fe];
          [| intros [= <-]; split; [apply Hown | exact W1]].
        destruct (set_at dst1 (fieldValue fi ++ [Fld 1%nat]) _ _ prev) as [dst2 e2] eqn:E2.
        assert (W2 : written_below (fieldValue fi) dst dst2).
        { eapply written_below_trans; [exact W1 |].
          replace dst2 with (set_at dst1 (fieldValue fi ++ [Fld 1%nat])
                                    (field_type (fieldType fi) 1)
                                    (fieldName fi +:+ ".Previous") prev).1 by now rewrite E2.
          apply written_below_set_at. }
        destruct e2 as [e2|]; intros [= <-]; (split; [| exact W2]).
        -- eapply Hone; [eapply set_at_error_field; exact E2 | right; right; now left].
        -- exact Hnone.
      * destruct (negb (is_not_found perr)); intros [= <-]; (split; [| exact W1]).
        -- apply Hown.
        -- exact Hnone.
    + destruct (Optional (tag fi) && is_not_found err); intros [= <-];
        (split; [| apply written_below_refl]); [exact Hnone | apply Hown].
  - destruct (results !! _) as [[data|err]|]; [| | discriminate].
    + destruct (extracted (tag fi) data) as [val|fe];
        [| intros [= <-]; split; [apply Hown | apply written_below_refl]].
      destruct (set_at dst (fieldValue fi) (fieldType fi) (fieldName fi) val)
        as [dst1 e1] eqn:E1.
      assert (W1 : written_below (fieldValue fi) dst dst1).
      { replace dst1 with (set_at dst (fieldValue fi) (fieldType fi) (fieldName fi) val).1
          by now rewrite E1.
        apply written_below_set_at_here. }
      destruct e1 as [e1|]; intros [= <-]; (split; [| exact W1]).
      * eapply Hone; [eapply set_at_error_field; exact E1 | now left].
      * exact Hnone.
    + destruct (Optional (tag fi) && is_not_found err); intros [= <-];
        (split; [| apply written_below_refl]); [exact Hnone | apply Hown].
Qed.

Lemma assign_effect (results : gmap string (string + error)) (fields : list fieldInfo) :
  forall st st',
    assign results fields st = Some st' ->
    (exists new, st'.2 = st.2 ++ new /\
                 Forall (fun e => exists fi, In fi fields /\ attributed fi e) new) /\
    (forall q, Forall (fun fi => incomparable (fieldValue fi) q) fields ->
               lookup_path q st'.1 = lookup_path q st.1) /\
    (forall q, Forall (fun fi => ~ prefix_of (fieldValue fi) q) fields ->
               non_nil_at q st.1 -> non_nil_at q st'.1).
Proof.
  induction fields as [|fi fields IH]; intros [dst errs] st'; cbn [assign].
  - intros [= <-]. split; [exists []; rewrite app_nil_r; split; [reflexivity | constructor] | auto].
  - destruct (assign_field results (dst, errs) fi) as [st1|] eqn:E1; [| discriminate].
    intros Hrest. destruct (assign_field_effect _ _ _ _ _ E1) as [[n1 [Hn1 A1]] [W1 W2]].
    destruct (IH _ _ Hrest) as [[n2 [Hn2 A2]] [F1 F2]]. cbn [fst snd] in *.
    split; [| split].
    + exists (n1 ++ n2). split; [now rewrite Hn2, Hn1, app_assoc |].
      apply Forall_app. split.
      * eapply Forall_impl; [exact A1 |]. intros e He. exists fi. split; [now left | exact He].
      * eapply Forall_impl; [exact A2 |]. intros e [fj [Hj He]]. exists fj.
        split; [now right | exact He].
    + intros q Hq. inversion Hq; subst. rewrite F1 by assumption. now apply W1.
    + intros q Hq Hnn. inversion Hq; subst. apply F2; [assumption |]. now apply W2.
Qed.

Lemma assign_app (results : gmap string (string + error)) (l1 l2 : list fieldInfo)
      (st : value * list error) :
  assign results (l1 ++ l2) st =
  match assign results l1 st with
  | Some st1 => assign results l2 st1
  | None => None
  end.
Proof.
  revert st; induction l1 as [|fi l1 IH]; intros st; cbn [app assign]; [reflexivity |].
  destruct (assign_field results st fi); [apply IH | reflexivity].
Qed.

Lemma assign_field_total (results : gmap string (string + error))
      (st : value * list error) (fi : fieldInfo) :
  (forall k, In k (needed_keys fi) -> is_Some (results !! k)) ->
  is_Some (assign_field results st fi).
Proof.
  unfold needed_keys, assign_field. destruct st as [dst errs]. intros Hk.
  destruct (isVersioned fi).
  - destruct (Hk _ (or_introl eq_refl)) as [cur ->].
    destruct (Hk _ (or_intror (or_introl eq_refl))) as [prev ->].
    destruct cur as [data|err].
    + destruct (extracted (tag fi) data); [| eauto].
      destruct (set_at dst _ _ _ _) as [dst1 [e1|]]; [eauto |].
      destruct prev as [pdata|perr].
      * destruct (extracted (tag fi) pdata); [| eauto].
        destruct (set_at dst1 _ _ _ _) as [dst2 [e2|]]; eauto.
      * destruct (negb (is_not_found perr)); eauto.
    + destruct (Optional (tag fi) && is_not_found err); eauto.
  - destruct (Hk _ (or_introl eq_refl)) as [res ->]. destruct res as [data|err].
    + destruct (extracted (tag fi) data); [| eauto].
      destruct (set_at dst _ _ _ _) as [dst1 [e1|]]; eauto.
    + destruct (Optional (tag fi) && is_not_found err); eauto.
Qed.

Lemma assign_total (results : gmap string (string + error)) (fields : list fieldInfo) :
  (forall fi k, In fi fields -> In k (needed_keys fi) -> is_Some (results !! k)) ->
  forall st, is_Some (assign results fields st).
Proof.
  induction fields as [|fi fields IH]; intros Hk st; cbn [assign]; [eauto |].
  destruct (assign_field_total results st fi) as [st1 ->].
  - intros k. apply Hk. now left.
  - apply IH. intros fj k Hj. apply Hk. now right.
Qed.

Lemma planned_results (fields : list fieldInfo) :
  forall fi k, In fi fields -> In k (needed_keys fi) ->
               is_Some (fetch_all (plan fields).2 !! k).
Proof.
  intros fi k Hf Hk. apply fetch_all_dom. eapply plan_covers; eassumption.
Qed.

(** [Resolve] on a pointer to a struct, in terms of its three phases; the
    early return on an empty task list gives what the loops would. *)
Lemma Resolve_phases (cfg : resolverConfig) (elemType : gotype) (elem elem1 : value)
      (fields : list fieldInfo) (collectErrs : list error) :
  is_struct elemType = true ->
  collectFields cfg elemType [] elem ([], []) = (elem1, (fields, collectErrs)) ->
  Resolve cfg (TPtr elemType) (VPtr elem) =
  match assign (fetch_all (plan fields).2) fields (elem1, []) with
  | None => None
  | Some (elem2, assignErrs) => Some (VPtr elem2, collectErrs ++ assignErrs)
  end.
Proof.
  intros Hs Hc. unfold Resolve. rewrite Hs, Hc. cbn [negb].
  destruct fields as [|fi fields]; [| now rewrite andb_false_r].
  cbn [length Nat.eqb assign]. rewrite app_nil_r, andb_true_r.
  now destruct (negb _).
Qed.

(** No entry of the result map is missing when the assignment loop reads
    it: [Resolve] never has the outcome [None]. *)
Lemma Resolve_returns (cfg : resolverConfig) (t : gotype) (dst : value) :
  is_Some (Resolve cfg t dst).
Proof.
  destruct t as [ | |b| |b|b| |e|n|e|n fs|n]; try (cbn; eauto; fail).
  destruct dst as [| | | | | | | |elem| |]; try (cbn; eauto; fail).
  destruct (is_struct e) eqn:Es; [| unfold Resolve; rewrite Es; cbn; eauto].
  destruct (collectFields cfg e [] elem ([], [])) as [elem1 [fields cerrs]] eqn:Ec.
  rewrite (Resolve_phases _ _ _ _ _ _ Es Ec).
  destruct (assign_total _ fields (planned_results fields) (elem1, [])) as [[elem2 aerrs] ->].
  eauto.
Qed.

End AssignFacts.

(* ================================================================= *)
(** ** Resolve: optional fields and versioned pairs *)

Section ResolveFacts.
Context `{JSONLib} `{text : !TextLib}.

(** The tasks of a walk from the root are stored pairwise apart. *)
Lemma walk_tasks_apart (cfg : resolverConfig) (elemType : gotype) (elem elem1 : value)
      (before after : list fieldInfo) (fi : fieldInfo) (collectErrs : list error) :
  collectFields cfg elemType [] elem ([], []) = (elem1, (before ++ fi :: after, collectErrs)) ->
  Forall (fun fj => incomparable (fieldValue fj) (fieldValue fi)) before /\
  Forall (fun fj => incomparable (fieldValue fj) (fieldValue fi)) after.
Proof.
  intros Hc. destruct (collectFields_ok cfg elemType _ _ _ _ _ Hc) as [new [errs [E [_ [Hd _]]]]].
  cbn in E. injection E as <- _. rewrite List.map_app in Hd. cbn [List.map] in Hd.
  apply disjoint_paths_split in Hd as [H1 [H2 _]].
  rewrite Forall_forall in H1, H2.
  split; apply Forall_forall; intros fj Hj; apply incomparable_sym.
  - apply H1. apply list_elem_of_In, in_map, list_elem_of_In, Hj.
  - apply H2. apply list_elem_of_In, in_map, list_elem_of_In, Hj.
Qed.

Lemma current_result_step (results : gmap string (string + error))
      (st : value * list error) (fi : fieldInfo) (err : error) :
  results !! current_key fi = Some (inr err) ->
  assign_field results st fi =
  if Optional (tag fi) && is_not_found err then Some st
  else Some (st.1, st.2 ++ [ErrField (fieldName fi) err]).
Proof.
  unfold current_key, assign_field. destruct st as [dst errs].
  destruct (isVersioned fi); intros ->; reflexivity.
Qed.

(** C2 (amended). A task tagged [optional] whose fetch is recorded as
    not-found is skipped: its iteration changes neither the record nor the
    errors, and the storage of the field after [Resolve] is what the walk
    left there, which is what the caller's record held there on entry (its
    zero value, when nothing was stored before).  No error that [Resolve]
    returns is for the field: those of the walk each report the fault of
    a field stored elsewhere, and those of the assignment come from the
    other tasks, which are stored apart from it.  Errors name a field by
    its bare name; when that name, which has no dot, is borne by no other
    secret-tagged field the walk visits, no error that [Resolve] returns
    mentions it.  With any other error the iteration appends the
    per-field error wrapping it, and the field is not written either. *)
Theorem optional_not_found_skipped
        (cfg : resolverConfig) (elemType : gotype) (elem elem1 : value)
        (before after : list fieldInfo) (collectErrs : list error)
        (fi : fieldInfo) (err : error) :
  is_struct elemType = true ->
  collectFields cfg elemType [] elem ([], []) = (elem1, (before ++ fi :: after, collectErrs)) ->
  Optional (tag fi) = true ->
  fetch_all (plan (before ++ fi :: after)).2 !! current_key fi = Some (inr err) ->
  exists st1 elem2 assignErrs,
    assign (fetch_all (plan (before ++ fi :: after)).2) before (elem1, []) = Some st1 /\
    (if is_not_found err
     then assign_field (fetch_all (plan (before ++ fi :: after)).2) st1 fi = Some st1 /\
          assign (fetch_all (plan (before ++ fi :: after)).2) after st1
          = Some (elem2, assignErrs)
     else assign_field (fetch_all (plan (before ++ fi :: after)).2) st1 fi
          = Some (st1.1, st1.2 ++ [ErrField (fieldName fi) err]) /\
          In (ErrField (fieldName fi) err) (collectErrs ++ assignErrs)) /\
    Resolve cfg (TPtr elemType) (VPtr elem) = Some (VPtr elem2, collectErrs ++ assignErrs) /\
    lookup_path (fieldValue fi) elem2 = lookup_path (fieldValue fi) elem1 /\
    (forall v, lookup_path (fieldValue fi) elem = Some v ->
               lookup_path (fieldValue fi) elem2 = Some v) /\
    (is_not_found err = true ->
     Forall (blames_elsewhere cfg elemType (fieldValue fi)) collectErrs /\
     Forall (fun fj => incomparable (fieldValue fj) (fieldValue fi)) (before ++ after) /\
     exists errs1 errs2,
       assignErrs = errs1 ++ errs2 /\
       Forall (fun e => exists fj, In fj before /\ attributed fj e) errs1 /\
       Forall (fun e => exists fj, In fj after /\ attributed fj e) errs2) /\
    (is_not_found err = true ->
     ~ has_byte "." (fieldName fi) ->
     (occurrences (fieldName fi) (tagged_names elemType) <= 1)%nat ->
     forall e, In e (collectErrs ++ assignErrs) -> error_field e <> Some (fieldName fi)).
Proof.
  intros Hs Hc Hopt Hres.
  assert (Hkept : forall v, lookup_path (fieldValue fi) elem = Some v ->
                            lookup_path (fieldValue fi) elem1 = Some v).
  { destruct (collectFields_ok cfg elemType _ _ _ _ _ Hc) as [new [errs [E [_ [_ Hk]]]]].
    cbn in E. injection E as <- _. intros v Hv.
    apply (Hk fi (fieldValue fi) v); [| reflexivity | exact Hv].
    apply in_app_iff. right. now left. }
  set (results := fetch_all (plan (before ++ fi :: after)).2) in *.
  assert (Hall : forall fj k, In fj (before ++ fi :: after) -> In k (needed_keys fj) ->
                              is_Some (results !! k)) by apply planned_results.
  destruct (assign_total results before) with (st := (elem1, @nil error)) as [st1 E1].
  { intros fj k Hj. apply Hall. apply in_app_iff. now left. }
  pose proof (current_result_step results st1 fi err Hres) as Estep.
  rewrite Hopt in Estep. cbn [andb] in Estep.
  set (st2 := if is_not_found err then st1
              else (st1.1, st1.2 ++ [ErrField (fieldName fi) err])).
  assert (Estep2 : assign_field results st1 fi = Some st2).
  { rewrite Estep. unfold st2. now destruct (is_not_found err). }
  destruct (assign_total results after) with (st := st2) as [[elem2 aerrs] E2].
  { intros fj k Hj. apply Hall. apply in_app_iff. right. now right. }
  exists st1, elem2, aerrs.
  destruct (walk_tasks_apart _ _ _ _ _ _ _ _ Hc) as [Hb Ha].
  destruct (assign_effect _ _ _ _ E1) as [[n1 [Hn1 A1]] [F1 _]].
  destruct (assign_effect _ _ _ _ E2) as [[n2 [Hn2 A2]] [F2 _]].
  cbn [fst snd] in *.
  assert (Hsame : lookup_path (fieldValue fi) elem2 = lookup_path (fieldValue fi) elem1).
  { rewrite (F2 _ Ha). unfold st2. destruct (is_not_found err); cbn [fst]; apply F1, Hb. }
  split; [exact E1 |]. split; [| split; [| split; [| split; [| split]]]].
  - destruct (is_not_found err) eqn:Enf.
    + split; [exact Estep | exact E2].
    + split; [exact Estep |]. apply in_app_iff. right. rewrite Hn2. unfold st2. cbn.
      rewrite !in_app_iff. left. right. now left.
  - rewrite (Resolve_phases _ _ _ _ _ _ Hs Hc). fold results.
    rewrite assign_app, E1. cbn [assign]. rewrite Estep2, E2. reflexivity.
  - exact Hsame.
  - intros v Hv. rewrite Hsame. now apply Hkept.
  - intros Enf. split; [| split].
    + apply (walk_errors_elsewhere cfg _ _ _ _ _ _ Hc). apply in_app_iff. right. now left.
    + apply Forall_app. split; [exact Hb | exact Ha].
    + exists n1, n2. unfold st2 in Hn2. rewrite Enf in Hn2. rewrite Hn2, Hn1.
      split; [reflexivity |]. split; [exact A1 | exact A2].
  - intros Enf Hdot Honce e He Hfield.
    destruct (sole_bearer cfg _ _ _ _ _ _ _ Hc Honce) as [Hothers Hwalk].
    apply in_app_iff in He as [He | He]; [exact (Hwalk e He Hfield) |].
    unfold st2 in Hn2. rewrite Enf in Hn2.
    rewrite Hn2, Hn1 in He. cbn in He. rewrite in_app_iff in He.
    assert (Hattr : exists fj, In fj (before ++ after) /\ attributed fj e).
    { destruct He as [He | He].
      - rewrite Forall_forall in A1. destruct (A1 e) as [fj [Hj Hat]].
        + now apply list_elem_of_In.
        + exists fj. split; [apply in_app_iff; now left | exact Hat].
      - rewrite Forall_forall in A2. destruct (A2 e) as [fj [Hj Hat]].
        + now apply list_elem_of_In.
        + exists fj. split; [apply in_app_iff; now right | exact Hat]. }
    destruct Hattr as [fj [Hj [name [Hn Hin]]]].
    assert (Hname : name = fieldName fi) by congruence. subst name.
    destruct Hin as [E | [E | [E | []]]].
    + exact (Hothers fj Hj E).
    + apply Hdot. rewrite <- E. now exists (fieldName fj), "Current".
    + apply Hdot. rewrite <- E. now exists (fieldName fj), "Previous".
Qed.

Lemma lookup_update_same (p : path) (f : value -> value) (v : value) :
  lookup_path p (update_path p f v) = f <$> lookup_path p v.
Proof.
  revert v; induction p as [|[i|] p IH]; intros v; cbn; [reflexivity | |].
  - destruct v as [| | | | | | | | |vs|]; try reflexivity. cbn.
    rewrite list_lookup_alter_eq. destruct (vs !! i) as [w|]; cbn; [apply IH | reflexivity].
  - destruct v as [| | | | | | | |w| |]; try reflexivity. cbn. apply IH.
Qed.

Lemma incomparable_extend_r (p q r : path) :
  incomparable p q -> incomparable p (q ++ r).
Proof. intros Hi. now apply incomparable_sym, incomparable_extend_l, incomparable_sym. Qed.

Lemma previous_key_differs (uri : string) :
  fetchKey_String (mkKey uri "previous") <> fetchKey_String (mkKey uri "").
Proof.
  cbn. intros E. apply (f_equal String.length) in E. rewrite sapp_length in E. cbn in E. lia.
Qed.

(** A record whose only task is a versioned pair: the plan is the two
    fetches, the current one and the one of version [previous]. *)
Lemma plan_versioned_alone (fi : fieldInfo) :
  isVersioned fi = true ->
  (plan [fi]).2 = [mkSpec (mkKey (URI (tag fi)) "") fi "";
                   mkSpec (mkKey (URI (tag fi)) "previous") fi "previous"].
Proof.
  intros Hv. unfold plan. cbn [fold_left]. unfold plan_field. rewrite Hv.
  unfold plan_key at 2. cbn [fst snd].
  destruct (decide (fetchKey_String (mkKey (URI (tag fi)) "") ∈ (∅ : gset string)))
    as [Hin | _]; [now apply not_elem_of_empty in Hin |].
  unfold plan_key. cbn [fst snd].
  destruct (decide _) as [Hin | _]; [| reflexivity].
  exfalso. apply elem_of_union in Hin as [Hin | Hin].
  - apply elem_of_singleton in Hin. now apply previous_key_differs in Hin.
  - now apply not_elem_of_empty in Hin.
Qed.

(** C3 (amended). For a versioned pair the assignment loop reads the
    results keyed by [(uri, "")] and [(uri, "previous")], both covered by
    the plan, which for the pair alone is exactly those two fetches.  When
    the current result is a success whose fragment extraction and
    conversion succeed and the previous result is not-found, the
    iteration stores the converted current bytes in [Current], leaves
    [Previous] as it was and adds no error. *)
Theorem versioned_pair_previous_not_found
        (cfg : resolverConfig) (elemType : gotype) (elem elem1 : value)
        (before after : list fieldInfo) (collectErrs : list error)
        (fi : fieldInfo) (data bytes : string) (perr : error) (newval : value) :
  is_struct elemType = true ->
  collectFields cfg elemType [] elem ([], []) = (elem1, (before ++ fi :: after, collectErrs)) ->
  isVersioned fi = true ->
  fetch_all (plan (before ++ fi :: after)).2 !! fetchKey_String (mkKey (URI (tag fi)) "")
    = Some (inl data) ->
  fetch_all (plan (before ++ fi :: after)).2 !! fetchKey_String (mkKey (URI (tag fi)) "previous")
    = Some (inr perr) ->
  is_not_found perr = true ->
  extracted (tag fi) data = inl bytes ->
  setField (field_type (fieldType fi) 0)
           (default (zero (field_type (fieldType fi) 0))
                    (lookup_path (fieldValue fi ++ [Fld 0%nat]) elem1))
           (fieldName fi +:+ ".Current") bytes = (newval, None) ->
  (needed_keys fi = [fetchKey_String (mkKey (URI (tag fi)) "");
                     fetchKey_String (mkKey (URI (tag fi)) "previous")] /\
   (forall k, In k (needed_keys fi) ->
              In k (List.map spec_key (plan (before ++ fi :: after)).2)) /\
   (plan [fi]).2 = [mkSpec (mkKey (URI (tag fi)) "") fi "";
                    mkSpec (mkKey (URI (tag fi)) "previous") fi "previous"]) /\
  exists st1 elem2 assignErrs,
    assign (fetch_all (plan (before ++ fi :: after)).2) before (elem1, []) = Some st1 /\
    assign_field (fetch_all (plan (before ++ fi :: after)).2) st1 fi
      = Some (update_path (fieldValue fi ++ [Fld 0%nat]) (fun _ => newval) st1.1, st1.2) /\
    assign (fetch_all (plan (before ++ fi :: after)).2) after
           (update_path (fieldValue fi ++ [Fld 0%nat]) (fun _ => newval) st1.1, st1.2)
      = Some (elem2, assignErrs) /\
    Resolve cfg (TPtr elemType) (VPtr elem) = Some (VPtr elem2, collectErrs ++ assignErrs) /\
    lookup_path (fieldValue fi ++ [Fld 0%nat]) elem2
      = (fun _ => newval) <$> lookup_path (fieldValue fi ++ [Fld 0%nat]) elem1 /\
    lookup_path (fieldValue fi ++ [Fld 1%nat]) elem2
      = lookup_path (fieldValue fi ++ [Fld 1%nat]) elem1.
Proof.
  intros Hs Hc Hv Hcur Hprev Hnf Hex Hset.
  set (results := fetch_all (plan (before ++ fi :: after)).2) in *.
  set (q0 := fieldValue fi ++ [Fld 0%nat]) in *.
  set (q1 := fieldValue fi ++ [Fld 1%nat]) in *.
  assert (Hall : forall fj k, In fj (before ++ fi :: after) -> In k (needed_keys fj) ->
                              is_Some (results !! k)) by apply planned_results.
  split.
  { split; [unfold needed_keys; now rewrite Hv |]. split.
    - intros k Hk. eapply plan_covers; [| exact Hk]. apply in_app_iff. right. now left.
    - now apply plan_versioned_alone. }
  destruct (assign_total results before) with (st := (elem1, @nil error)) as [st1 E1].
  { intros fj k Hj. apply Hall. apply in_app_iff. now left. }
  destruct (walk_tasks_apart _ _ _ _ _ _ _ _ Hc) as [Hb Ha].
  assert (Hb0 : Forall (fun fj => incomparable (fieldValue fj) q0) before).
  { eapply Forall_impl; [exact Hb |]. intros fj Hj. now apply incomparable_extend_r. }
  assert (Hb1 : Forall (fun fj => incomparable (fieldValue fj) q1) before).
  { eapply Forall_impl; [exact Hb |]. intros fj Hj. now apply incomparable_extend_r. }
  assert (Ha0 : Forall (fun fj => incomparable (fieldValue fj) q0) after).
  { eapply Forall_impl; [exact Ha |]. intros fj Hj. now apply incomparable_extend_r. }
  assert (Ha1 : Forall (fun fj => incomparable (fieldValue fj) q1) after).
  { eapply Forall_impl; [exact Ha |]. intros fj Hj. now apply incomparable_extend_r. }
  destruct (assign_effect _ _ _ _ E1) as [_ [F1 _]]. cbn [fst snd] in F1.
  set (dst2 := update_path q0 (fun _ => newval) st1.1).
  assert (Estep : assign_field results st1 fi = Some (dst2, st1.2)).
  { unfold assign_field. destruct st1 as [dst errs]. rewrite Hv, Hcur, Hex.
    fold q0. unfold set_at. cbn [fst snd] in *. rewrite (F1 _ Hb0), Hset.
    now rewrite Hprev, Hnf. }
  destruct (assign_total results after) with (st := (dst2, st1.2)) as [[elem2 aerrs] E2].
  { intros fj k Hj. apply Hall. apply in_app_iff. right. now right. }
  destruct (assign_effect _ _ _ _ E2) as [_ [F2 _]]. cbn [fst snd] in F2.
  exists st1, elem2, aerrs. split; [exact E1 |]. split; [exact Estep |].
  split; [exact E2 |]. split; [| split].
  - rewrite (Resolve_phases _ _ _ _ _ _ Hs Hc). fold results.
    rewrite assign_app, E1. cbn [assign]. rewrite Estep, E2. reflexivity.
  - rewrite (F2 _ Ha0). unfold dst2. rewrite lookup_update_same. now rewrite (F1 _ Hb0).
  - rewrite (F2 _ Ha1). unfold dst2. rewrite lookup_update_apart; [apply F1, Hb1 |].
    unfold q0, q1. apply incomparable_app, incomparable_cons. left. discriminate.
Qed.

(** *** Resolve: pointers the walker allocates *)


End ResolveFacts.

(* ================================================================= *)
(** ** Deduplication of fetches *)

Section DedupFacts.

Lemma separator_inj (c : ascii) (k1 v1 k2 v2 : string) :
  ~ has_byte c k1 -> ~ has_byte c k2 ->
  k1 +:+ String c v1 = k2 +:+ String c v2 -> k1 = k2 /\ v1 = v2.
Proof.
  revert k2; induction k1 as [|x k1 IH]; intros [|y k2] N1 N2; simpl.
  - intros [= ->]. auto.
  - intros [= <- _]. exfalso. apply N2. now exists "", k2.
  - intros [= -> _]. exfalso. apply N1. now exists "", k1.
  - intros [= -> E]. rewrite has_byte_cons in N1, N2.
    destruct (IH k2) as [-> ->]; auto.
Qed.

(** Where no URI holds an [@], the map key determines the fetch key. *)
Lemma fetchKey_String_inj (k1 k2 : fetchKey) :
  ~ has_byte "@" (uri k1) -> ~ has_byte "@" (uri k2) ->
  fetchKey_String k1 = fetchKey_String k2 -> k1 = k2.
Proof.
  destruct k1 as [u1 v1], k2 as [u2 v2]. unfold fetchKey_String. cbn [uri version].
  intros N1 N2.
  destruct (String.eqb_spec v1 "") as [-> | H1], (String.eqb_spec v2 "") as [-> | H2];
    cbn [negb].
  - now intros ->.
  - intros ->. exfalso. apply N1. now exists u2, v2.
  - intros <-. exfalso. apply N2. now exists u1, v1.
  - intros E. apply separator_inj in E as [-> ->]; auto.
Qed.

(** C1, at the failing input.  The tasks [A] (tag [a@b]) and [B] (tag
    [a,version=b]) need the fetch keys [("a@b", "")] and [("a", "b")],
    which differ in both components; both print as [a@b], so one fetch is
    planned, a [Get] of [a@b], and [B] receives its bytes instead of
    those of version [b] of [a]. *)
Theorem dedup_key_collision :
  let walked := collectFields collision_config collision_record []
                              (zero collision_record) ([], []) in
  List.map (fun fi => mkKey (URI (tag fi)) (Version (tag fi))) walked.2.1
    = [mkKey "a@b" ""; mkKey "a" "b"] /\
  mkKey "a@b" "" <> mkKey "a" "b" /\
  fetchKey_String (mkKey "a@b" "") = fetchKey_String (mkKey "a" "b") /\
  List.map (fun spec => (Resolver.key spec, snd <$> fetch_call spec)) (plan walked.2.1).2
    = [(mkKey "a@b" "", Some (CallGet "a@b"))] /\
  (Get collision_provider "a@b" = inl "plain-secret" /\
   (fun getVersion => getVersion "a" "b") <$> GetVersion collision_provider
     = Some (inl "versioned-secret")) /\
  Resolve collision_config (TPtr collision_record) (VPtr (zero collision_record))
    = Some (VPtr (VStruct [VString "plain-secret"; VString "plain-secret"]), []).
Proof.
  cbv zeta. split; [reflexivity |]. split; [discriminate |]. split; [reflexivity |].
  split; [vm_compute; reflexivity |]. split; [split; reflexivity |].
  vm_compute. reflexivity.
Qed.

End DedupFacts.

(* ================================================================= *)
(** ** Conversion of booleans *)

Section BoolFacts.
Context `{JSONLib} `{text : !TextLib}.

Lemma trim_leading_spaces (flip : bool) (ws s : string) :
  all_space1 ws = true -> trim_leading flip (ws +:+ s) = trim_leading flip s.
Proof.
  induction ws as [|a ws IH]; cbn [all_space1 append]; [reflexivity |].
  intros Ha. apply andb_true_iff in Ha as [Ha Hws]. cbn [trim_leading].
  rewrite Ha. now apply IH.
Qed.

Lemma byte_is_plain (a : ascii) (n : nat) :
  plain_byte a = true -> (128 <= n)%nat -> byte_is a n = false.
Proof.
  unfold plain_byte, byte_is. intros Hp Hn. apply andb_true_iff in Hp as [Hlt _].
  apply Nat.ltb_lt in Hlt. apply Nat.eqb_neq. lia.
Qed.

Lemma leb_plain (a : ascii) (n : nat) :
  plain_byte a = true -> (128 <= n)%nat -> Nat.leb n (nat_of_ascii a) = false.
Proof.
  unfold plain_byte. intros Hp Hn. apply andb_true_iff in Hp as [Hlt _].
  apply Nat.ltb_lt in Hlt. apply Nat.leb_gt. lia.
Qed.

(** A string that starts with a plain byte has no leading white space,
    read in either direction. *)
Lemma trim_leading_plain (flip : bool) (a : ascii) (s : string) :
  plain_byte a = true -> trim_leading flip (String a s) = String a s.
Proof.
  intros Hp. assert (Hs : is_space1 a = false).
  { unfold plain_byte in Hp. apply andb_true_iff in Hp as [_ Hp]. now destruct (is_space1 a). }
  cbn [trim_leading]. rewrite Hs. destruct s as [|b s]; [reflexivity |].
  assert (H2 : (if flip then is_space2 b a else is_space2 a b) = false).
  { unfold is_space2. destruct flip.
    - rewrite !(byte_is_plain a) by (assumption || lia). now rewrite andb_false_r.
    - now rewrite (byte_is_plain a) by (assumption || lia). }
  rewrite H2. destruct s as [|c s]; [reflexivity |].
  assert (H3 : (if flip then is_space3 c b a else is_space3 a b c) = false).
  { unfold is_space3. destruct flip.
    - rewrite !(byte_is_plain a) by (assumption || lia).
      rewrite (leb_plain a) by (assumption || lia).
      now rewrite !andb_false_r.
    - now rewrite !(byte_is_plain a) by (assumption || lia). }
  now rewrite H3.
Qed.

Lemma str_rev_app (a b : string) : str_rev (a +:+ b) = str_rev b +:+ str_rev a.
Proof.
  induction a as [|x a IH]; cbn [append str_rev].
  - now rewrite sapp_nil_r.
  - now rewrite IH, sapp_assoc.
Qed.

Lemma str_rev_involutive (s : string) : str_rev (str_rev s) = s.
Proof.
  induction s as [|x s IH]; cbn [str_rev]; [reflexivity |].
  rewrite str_rev_app. cbn. now rewrite IH.
Qed.

Lemma all_space1_app (a b : string) :
  all_space1 (a +:+ b) = all_space1 a && all_space1 b.
Proof.
  induction a as [|x a IH]; cbn [append all_space1]; [reflexivity |].
  now rewrite IH, andb_assoc.
Qed.

Lemma all_space1_rev (s : string) : all_space1 (str_rev s) = all_space1 s.
Proof.
  induction s as [|x s IH]; cbn [str_rev all_space1]; [reflexivity |].
  rewrite all_space1_app, IH. cbn [all_space1]. rewrite andb_true_r. apply andb_comm.
Qed.

(** [TrimSpace] strips ASCII white space around a word that starts and
    ends with a plain byte. *)
Lemma TrimSpace_padded (pre post : string) (a z : ascii) (middle rmiddle : string) :
  all_space1 pre = true -> all_space1 post = true ->
  plain_byte a = true -> plain_byte z = true ->
  str_rev (String a middle) = String z rmiddle ->
  TrimSpace (pre +:+ String a middle +:+ post) = String a middle.
Proof.
  intros Hpre Hpost Ha Hz Hrev. unfold TrimSpace.
  rewrite trim_leading_spaces by exact Hpre.
  change (String a middle +:+ post) with (String a (middle +:+ post)).
  rewrite (trim_leading_plain false) by exact Ha.
  change (String a (middle +:+ post)) with (String a middle +:+ post).
  rewrite str_rev_app, trim_leading_spaces by (now rewrite all_space1_rev).
  rewrite Hrev, (trim_leading_plain true) by exact Hz.
  rewrite <- Hrev. apply str_rev_involutive.
Qed.

End BoolFacts.

(** The letter-case variant [tRuE] is refused and [1] is accepted. *)
Lemma bool_conversion_counterexample :
  setField TBool (VBool false) "Debug" "tRuE"
    = (VBool false,
       Some (ErrConversion "Debug" "bool" "tRuE" (ErrSyntax "ParseBool" "tRuE"))) /\
  setField TBool (VBool false) "Debug" "1" = (VBool true, None).
Proof. split; reflexivity. Qed.

(** C9 (amended). A boolean field is converted by trimming the fetched
    bytes and parsing them with [strconv.ParseBool]: the trimmed text
    [1], [t], [T], [true], [TRUE] or [True] gives true, [0], [f], [F],
    [false], [FALSE] or [False] gives false, and any other text gives a
    conversion error wrapping the parse failure, the field left as it
    was; each accepted word is accepted with white space around it. *)
Theorem bool_conversion `{JSONLib} `{text : !TextLib} (fv : value) (fieldName raw : string) :
  setField TBool fv fieldName raw =
    (if existsb (String.eqb (TrimSpace raw)) true_words then (VBool true, None)
     else if existsb (String.eqb (TrimSpace raw)) false_words then (VBool false, None)
     else (fv, Some (ErrConversion fieldName "bool" raw
                                   (ErrSyntax "ParseBool" (TrimSpace raw))))) /\
  (forall pre post word,
     all_space1 pre = true -> all_space1 post = true ->
     In word (true_words ++ false_words) ->
     setField TBool fv fieldName (pre +:+ word +:+ post)
     = (VBool (existsb (String.eqb word) true_words), None)).
Proof.
  assert (Hgen : forall raw', setField TBool fv fieldName raw' =
    (if existsb (String.eqb (TrimSpace raw')) true_words then (VBool true, None)
     else if existsb (String.eqb (TrimSpace raw')) false_words then (VBool false, None)
     else (fv, Some (ErrConversion fieldName "bool" raw'
                                   (ErrSyntax "ParseBool" (TrimSpace raw')))))).
  { intros raw'. cbn [setField]. unfold ParseBool, true_words, false_words.
    destruct (existsb _ _); [reflexivity |]. destruct (existsb _ _); reflexivity. }
  split; [apply Hgen |].
  intros pre post word Hpre Hpost Hw. rewrite Hgen.
  assert (Ht : TrimSpace (pre +:+ word +:+ post) = word).
  { cbn in Hw.
    repeat (destruct Hw as [<- | Hw];
            [eapply TrimSpace_padded; cycle 4;
             [cbv; reflexivity | exact Hpre | exact Hpost | reflexivity | reflexivity] |]).
    destruct Hw. }
  rewrite Ht. cbn in Hw.
  repeat (destruct Hw as [<- | Hw]; [reflexivity |]). destruct Hw.
Qed.

(* ================================================================= *)
(** ** The watcher *)

Section WatcherFacts.
Import Watcher WatcherSpec.
Context `{JSONLib} `{text : !TextLib}.

Lemma try_send_full (changes : list ChangeEvent) (event : ChangeEvent) :
  (capacity <= length changes)%nat -> try_send changes event = changes.
Proof.
  intros Hfull. unfold try_send.
  destruct (Nat.ltb_spec (length changes) capacity); [lia | reflexivity].
Qed.

Lemma try_send_room (changes : list ChangeEvent) (event : ChangeEvent) :
  (length changes < capacity)%nat -> try_send changes event = changes ++ [event].
Proof.
  intros Hroom. unfold try_send.
  destruct (Nat.ltb_spec (length changes) capacity); [reflexivity | lia].
Qed.

(** Publishing queues the events that fit, in order, and discards the
    rest. *)
Lemma publish_firstn (events changes : list ChangeEvent) :
  (length changes <= capacity)%nat ->
  publish changes events = changes ++ firstn (capacity - length changes) events.
Proof.
  unfold publish. revert changes; induction events as [|e events IH]; intros changes Hle.
  - cbn. now rewrite firstn_nil, app_nil_r.
  - cbn [fold_left]. destruct (Nat.eq_dec (length changes) capacity) as [Hfull | Hroom].
    + rewrite try_send_full by lia. rewrite IH by lia.
      now rewrite Hfull, Nat.sub_diag.
    + rewrite try_send_room by lia. rewrite IH by (rewrite length_app; cbn; lia).
      rewrite length_app. cbn [length].
      replace (capacity - length changes)%nat
        with (S (capacity - (length changes + 1))) by lia.
      cbn [firstn]. now rewrite <- app_assoc.
Qed.

(** C8. When the resolve into the shadow record fails, the cycle returns
    the nil snapshot with the live record and the channel as they were,
    and the loop keeps its snapshot. *)
Theorem failed_cycle_changes_nothing
        (cfg : resolverConfig) (t : gotype) (dst : value)
        (snapshot : list fieldSnapshot) (changes : list ChangeEvent)
        (shadow : value) (err : error) (errs : list error) :
  Resolve cfg (TPtr t) (VPtr (zero t)) = Some (shadow, err :: errs) ->
  poll cfg t dst snapshot changes = Some (dst, changes, []) /\
  tick cfg t (dst, snapshot, changes) = Some (dst, snapshot, changes).
Proof.
  intros Hr. assert (Hp : poll cfg t dst snapshot changes = Some (dst, changes, [])).
  { unfold poll. now rewrite Hr. }
  split; [exact Hp |]. unfold tick. now rewrite Hp.
Qed.

End WatcherFacts.

(** A full channel keeps its oldest event and discards the new one. *)
Lemma overflow_counterexample :
  Watcher.try_send (repeat old_event Watcher.capacity) new_event
    = repeat old_event Watcher.capacity /\
  WatcherSpec.send_dropping_oldest (repeat old_event Watcher.capacity) new_event
    = repeat old_event 63 ++ [new_event] /\
  Watcher.try_send (repeat old_event Watcher.capacity) new_event
    <> WatcherSpec.send_dropping_oldest (repeat old_event Watcher.capacity) new_event.
Proof.
  split; [reflexivity |]. split; [reflexivity |].
  intros E. apply (f_equal (fun l => List.last l old_event)) in E. vm_compute in E. discriminate.
Qed.

(** C7 (amended). The send is a [select] with a default case, so it
    always completes; on a saturated channel the new event is discarded
    and the pending events stay queued in their order, and a whole batch
    queues the events that fit and discards the later ones. *)
Theorem overflow_drops_new_event (changes : list Watcher.ChangeEvent)
        (event : Watcher.ChangeEvent) (events : list Watcher.ChangeEvent) :
  ((Watcher.capacity <= length changes)%nat ->
     Watcher.try_send changes event = changes) /\
  ((length changes < Watcher.capacity)%nat ->
     Watcher.try_send changes event = changes ++ [event]) /\
  ((length changes <= Watcher.capacity)%nat ->
     Watcher.publish changes events
     = changes ++ firstn (Watcher.capacity - length changes) events).
Proof.
  split; [apply try_send_full |]. split; [apply try_send_room | apply publish_firstn].
Qed.

(* ================================================================= *)
(** ** The theorems at concrete records *)

(** An optional secret that is missing: [Port] keeps 8080, [Missing]
    stays nil, no error mentions [Missing]. *)
Lemma optional_not_found_skipped_witness :
  exists elem2 assignErrs,
    Resolve empty_config (TPtr optional_record) (VPtr (VStruct [VInt 8080; VNil]))
      = Some (VPtr elem2, [] ++ assignErrs) /\
    lookup_path [Fld 1%nat] elem2 = Some VNil /\
    forall e, In e ([] ++ assignErrs) -> error_field e <> Some "Missing".
Proof.
  destruct (optional_not_found_skipped
              empty_config optional_record (VStruct [VInt 8080; VNil])
              (VStruct [VInt 8080; VNil]) [] [] [] missing_task
              (ErrProviderWrap "no-key" ErrNotFound))
    as [st1 [elem2 [assignErrs [_ [_ [HR [_ [HL [_ HE]]]]]]]]].
  - reflexivity.
  - vm_compute. reflexivity.
  - reflexivity.
  - vm_compute. reflexivity.
  - exists elem2, assignErrs. split; [exact HR |]. split; [apply HL; reflexivity |].
    apply HE; [reflexivity | | vm_compute; lia].
    cbn [fieldName missing_task]. rewrite !has_byte_cons. intros Hd.
    repeat (destruct Hd as [Hd | Hd]; [discriminate Hd |]).
    now apply has_byte_nil in Hd.
Defined.

(** The optional field [Token] of the record is missing from the backend,
    and the field [Token] of the nested struct has a tag that does not
    parse.  The record comes with [Token] already set: after [Resolve]
    the field holds what it held, which is not its zero value, and the
    error [Resolve] returns mentions [Token]. *)
Lemma shared_name_counterexample :
  let elem := VStruct [VString "kept"; VStruct [VString ""]] in
  let fields := (collectFields empty_config shared_name_record [] elem ([], [])).2.1 in
  List.map (fun fi => (fieldName fi, fieldValue fi, Optional (tag fi))) fields
    = [("Token", [Fld 0%nat], true)] /\
  fetch_all (plan fields).2 !! "token"
    = Some (inr (ErrProviderWrap "token" ErrNotFound)) /\
  Resolve empty_config (TPtr shared_name_record) (VPtr elem)
    = Some (VPtr elem, [ErrField "Token" (ErrUnknownOption "required")]) /\
  lookup_path [Fld 0%nat] elem = Some (VString "kept") /\
  VString "kept" <> zero TString /\
  error_field (ErrField "Token" (ErrUnknownOption "required")) = Some "Token".
Proof.
  cbv zeta. split; [vm_compute; reflexivity |]. split; [vm_compute; reflexivity |].
  split; [vm_compute; reflexivity |]. split; [reflexivity |].
  split; [discriminate | reflexivity].
Qed.

(** A versioned pair of strings whose previous version is missing. *)
Lemma versioned_pair_previous_not_found_witness :
  exists elem2 assignErrs,
    Resolve (pair_config "current-key") (TPtr (pair_record TString))
            (VPtr (zero (pair_record TString)))
      = Some (VPtr elem2, [] ++ assignErrs) /\
    lookup_path [Fld 0%nat; Fld 0%nat] elem2
      = (fun _ => VString "current-key")
          <$> lookup_path [Fld 0%nat; Fld 0%nat] (zero (pair_record TString)) /\
    lookup_path [Fld 0%nat; Fld 1%nat] elem2
      = lookup_path [Fld 0%nat; Fld 1%nat] (zero (pair_record TString)).
Proof.
  destruct (versioned_pair_previous_not_found
              (pair_config "current-key") (pair_record TString)
              (zero (pair_record TString)) (zero (pair_record TString))
              [] [] [] (pair_task TString "current-key")
              "current-key" "current-key"
              (ErrProviderWrap "api-key@previous" ErrNotFound) (VString "current-key"))
    as [_ [st1 [elem2 [assignErrs [_ [_ [_ [HR [H0 H1]]]]]]]]].
  - reflexivity.
  - vm_compute. reflexivity.
  - reflexivity.
  - vm_compute. reflexivity.
  - vm_compute. reflexivity.
  - reflexivity.
  - reflexivity.
  - reflexivity.
  - exists elem2, assignErrs. split; [exact HR | split; [exact H0 | exact H1]].
Defined.

(** The current fetch succeeds with bytes that are not an integer and the
    previous fetch is not-found: an error is reported for the field and
    [Current] is not set. *)
Lemma versioned_pair_counterexample :
  let fields := (collectFields (pair_config "abc") (pair_record (TInt 64)) []
                               (zero (pair_record (TInt 64))) ([], [])).2.1 in
  fetch_all (plan fields).2 !! "api-key" = Some (inl "abc") /\
  fetch_all (plan fields).2 !! "api-key@previous"
    = Some (inr (ErrProviderWrap "api-key@previous" ErrNotFound)) /\
  Resolve (pair_config "abc") (TPtr (pair_record (TInt 64)))
          (VPtr (zero (pair_record (TInt 64))))
    = Some (VPtr (VStruct [VStruct [VInt 0; VInt 0]]),
            [ErrConversion "Key.Current" "int64" "abc" (ErrSyntax "ParseInt" "abc")]).
Proof.
  cbv zeta. split; [vm_compute; reflexivity |]. split; vm_compute; reflexivity.
Qed.



(** A cycle whose resolve fails on a missing required secret. *)
Lemma failed_cycle_changes_nothing_witness :
  Watcher.poll empty_config required_record (VStruct [VString "live"]) [] [old_event]
    = Some (VStruct [VString "live"], [old_event], []) /\
  Watcher.tick empty_config required_record (VStruct [VString "live"], [], [old_event])
    = Some (VStruct [VString "live"], [], [old_event]).
Proof.
  apply (failed_cycle_changes_nothing
           empty_config required_record (VStruct [VString "live"]) [] [old_event]
           (VPtr (VStruct [VString ""]))
           (ErrField "Alpha" (ErrProviderWrap "key-a" ErrNotFound)) []).
  vm_compute. reflexivity.
Defined.

(* ================================================================= *)
(** ** The watcher's comparison loop *)

Section DiffFacts.
Import Watcher.

Lemma diff_cons (old new_ : fieldSnapshot) (oldRest newRest : list fieldSnapshot) :
  diff (old :: oldRest) (new_ :: newRest) =
  (if String.eqb (raw old) (raw new_) then []
   else [mkEvent (fieldName new_) (key new_) (providerName new_) (raw old) (raw new_)])
  ++ diff oldRest newRest.
Proof. cbn [diff]. now destruct (String.eqb (raw old) (raw new_)). Qed.

(** The comparison loop reports exactly the positions present in both
    snapshots whose raw bytes differ, each with the new snapshot's field,
    key and provider and the old and new bytes; snapshots that agree on
    the raw bytes of their common positions give no event. *)
Theorem diff_reports_changed_positions (oldSnapshot newSnapshot : list fieldSnapshot) :
  (forall ev,
     In ev (diff oldSnapshot newSnapshot) <->
     exists i old new_,
       oldSnapshot !! i = Some old /\ newSnapshot !! i = Some new_ /\
       raw old <> raw new_ /\
       ev = mkEvent (fieldName new_) (key new_) (providerName new_) (raw old) (raw new_)) /\
  ((forall i old new_, oldSnapshot !! i = Some old -> newSnapshot !! i = Some new_ ->
                       raw old = raw new_) ->
   diff oldSnapshot newSnapshot = []) /\
  (length (diff oldSnapshot newSnapshot)
   <= Nat.min (length oldSnapshot) (length newSnapshot))%nat.
Proof.
  assert (Hiff : forall newS oldS ev,
            In ev (diff oldS newS) <->
            exists i old new_,
              oldS !! i = Some old /\ newS !! i = Some new_ /\ raw old <> raw new_ /\
              ev = mkEvent (fieldName new_) (key new_) (providerName new_)
                           (raw old) (raw new_)).
  { induction newS as [|n newS IH]; intros oldS ev.
    - destruct oldS; cbn; (split; [intros [] | intros [i [o [n' [_ [Hn _]]]]]; discriminate]).
    - destruct oldS as [|o oldS].
      + cbn. split; [intros [] | intros [i [o [n' [Ho _]]]]; discriminate].
      + rewrite diff_cons, in_app_iff, IH. split.
        * intros [Hhead | [i [o' [n' [Ho [Hn [Hr He]]]]]]].
          -- destruct (String.eqb_spec (raw o) (raw n)) as [E | E]; [destruct Hhead |].
             destruct Hhead as [<- | []]. exists 0%nat, o, n. auto.
          -- exists (S i), o', n'. auto.
        * intros [[|i] [o' [n' [Ho [Hn [Hr He]]]]]].
          -- cbn in Ho, Hn. injection Ho as <-. injection Hn as <-. left.
             destruct (String.eqb_spec (raw o) (raw n)) as [E | E]; [contradiction |].
             left. now symmetry.
          -- right. exists i, o', n'. auto. }
  split; [apply Hiff |]. split.
  - intros Hsame. destruct (diff oldSnapshot newSnapshot) as [|ev l] eqn:E; [reflexivity |].
    assert (Hin : In ev (diff oldSnapshot newSnapshot)) by (rewrite E; now left).
    apply Hiff in Hin as [i [o [n [Ho [Hn [Hr _]]]]]]. destruct Hr. eauto.
  - revert oldSnapshot; induction newSnapshot as [|n newS IH]; intros [|o oldS];
      try (cbn; lia).
    rewrite diff_cons, length_app. specialize (IH oldS). cbn [length].
    destruct (String.eqb (raw o) (raw n)); cbn [length]; lia.
Qed.

End DiffFacts.

(* ================================================================= *)
(** ** The cached provider: successive calls *)

Section CacheSequences.
Import Cache.

(** After a call that went to the provider and succeeded at clock reading
    [now'], every [Get] of the same key not later than [now' + ttl] answers
    the same bytes from the cache, leaves the cache as it is and makes no
    call; likewise for [GetVersion] of the same key and version. *)
Theorem cached_value_served_until_expiry
        (c : CachedProvider) (now now' : Z) (key version bytes : string) :
  (CachedProvider_get c now key = None ->
   Get (Cache.provider c) key = inl bytes ->
   exists c1,
     CachedProvider_Get c now now' key = (inl bytes, c1, [CallGet key]) /\
     forall t t', t <= now' + ttl c ->
                  CachedProvider_Get c1 t t' key = (inl bytes, c1, [])) /\
  (forall getVersion,
     GetVersion (Cache.provider c) = Some getVersion ->
     CachedProvider_get c now (cacheKey key version) = None ->
     getVersion key version = inl bytes ->
     exists c1,
       CachedProvider_GetVersion c now now' key version
         = (inl bytes, c1, [CallGetVersion key version]) /\
       forall t t', t <= now' + ttl c ->
                    CachedProvider_GetVersion c1 t t' key version = (inl bytes, c1, [])).
Proof.
  split.
  - intros Hmiss Hget. eexists. unfold CachedProvider_Get at 1. rewrite Hmiss, Hget.
    split; [reflexivity |]. intros t t' Ht.
    unfold CachedProvider_Get, CachedProvider_get, CachedProvider_set. cbn.
    rewrite lookup_insert_eq. cbn.
    replace (t >? now' + ttl c) with false; [reflexivity |].
    symmetry. rewrite Z.gtb_ltb. apply Z.ltb_ge. lia.
  - intros gv Hgv Hmiss Hget. eexists. unfold CachedProvider_GetVersion at 1.
    rewrite Hgv, Hmiss, Hget. split; [reflexivity |]. intros t t' Ht.
    unfold CachedProvider_GetVersion, CachedProvider_get, CachedProvider_set. cbn.
    rewrite Hgv, lookup_insert_eq. cbn.
    replace (t >? now' + ttl c) with false; [reflexivity |].
    symmetry. rewrite Z.gtb_ltb. apply Z.ltb_ge. lia.
Qed.

(** A call touches at most the entry of its own cache key: [Get] leaves
    the entries of the other keys as they are, [GetVersion] leaves every
    entry whose key holds no NUL byte as it is, and neither changes the
    wrapped provider or the time to live.  After [Clear] no key is served
    from the cache. *)
Theorem cache_entries_isolated
        (c : CachedProvider) (now now' : Z) (key version : string) :
  (forall other, other <> key ->
     entries (CachedProvider_Get c now now' key).1.2 !! other = entries c !! other) /\
  (forall other, ~ has_byte Ascii.zero other ->
     entries (CachedProvider_GetVersion c now now' key version).1.2 !! other
     = entries c !! other) /\
  Cache.provider (CachedProvider_Get c now now' key).1.2 = Cache.provider c /\
  ttl (CachedProvider_Get c now now' key).1.2 = ttl c /\
  Cache.provider (CachedProvider_GetVersion c now now' key version).1.2 = Cache.provider c /\
  ttl (CachedProvider_GetVersion c now now' key version).1.2 = ttl c /\
  CachedProvider_get (CachedProvider_Clear c) now key = None /\
  (CachedProvider_Get (CachedProvider_Clear c) now now' key).2 = [CallGet key].
Proof.
  assert (HG : forall other, other <> key ->
            entries (CachedProvider_Get c now now' key).1.2 !! other = entries c !! other).
  { intros other Hne. unfold CachedProvider_Get.
    destruct (CachedProvider_get c now key); [reflexivity |].
    destruct (Get (Cache.provider c) key); [| reflexivity].
    cbn. now rewrite lookup_insert_ne. }
  assert (HV : forall other, ~ has_byte Ascii.zero other ->
            entries (CachedProvider_GetVersion c now now' key version).1.2 !! other
            = entries c !! other).
  { intros other Hn. unfold CachedProvider_GetVersion.
    destruct (GetVersion (Cache.provider c)) as [gv|]; [| reflexivity].
    destruct (CachedProvider_get c now (cacheKey key version)); [reflexivity |].
    destruct (gv key version); [| reflexivity].
    cbn. rewrite lookup_insert_ne; [reflexivity |].
    intros E. apply Hn. rewrite <- E. apply cacheKey_has_nul. }
  split; [exact HG |]. split; [exact HV |].
  unfold CachedProvider_Get, CachedProvider_GetVersion, CachedProvider_Clear.
  split; [| split; [| split; [| split; [| split]]]].
  - destruct (CachedProvider_get c now key); [reflexivity |].
    now destruct (Get (Cache.provider c) key).
  - destruct (CachedProvider_get c now key); [reflexivity |].
    now destruct (Get (Cache.provider c) key).
  - destruct (GetVersion (Cache.provider c)) as [gv|]; [| reflexivity].
    destruct (CachedProvider_get c now (cacheKey key version)); [reflexivity |].
    now destruct (gv key version).
  - destruct (GetVersion (Cache.provider c)) as [gv|]; [| reflexivity].
    destruct (CachedProvider_get c now (cacheKey key version)); [reflexivity |].
    now destruct (gv key version).
  - unfold CachedProvider_get. cbn. now rewrite lookup_empty.
  - unfold CachedProvider_get. cbn. rewrite lookup_empty.
    now destruct (Get (Cache.provider c) key).
Qed.

End CacheSequences.

(* ================================================================= *)
(** ** Conversion: what [setField] accepts and what it leaves alone *)

Section ConversionFacts.
Context `{JSONLib} `{text : !TextLib}.

Lemma digit_of_range (a : ascii) (d : Z) : digit_of a = Some d -> 0 <= d <= 9.
Proof.
  unfold digit_of. destruct (_ && _) eqn:E; [| discriminate].
  intros [= <-]. apply andb_true_iff in E as [E1 E2].
  apply Z.leb_le in E1, E2. lia.
Qed.

Lemma parse_digits_nonneg (s : string) :
  forall acc n, parse_digits s acc = Some n -> 0 <= acc -> 0 <= n.
Proof.
  induction s as [|a s IH]; intros acc n; cbn [parse_digits].
  - intros [= <-]. auto.
  - destruct (digit_of a) as [d|] eqn:Ed; [| discriminate].
    intros Hp Hacc. apply digit_of_range in Ed. apply (IH _ _ Hp). lia.
Qed.

Lemma parse_unsigned_nonneg (s : string) (n : Z) : parse_unsigned s = Some n -> 0 <= n.
Proof.
  unfold parse_unsigned. destruct s; [discriminate |].
  intros Hp. apply (parse_digits_nonneg _ _ _ Hp). lia.
Qed.

Lemma parse_signed_range (fn s : string) (bits n : Z) :
  0 < bits ->
  parse_signed fn s bits = inl n -> - 2 ^ (bits - 1) <= n < 2 ^ (bits - 1).
Proof.
  intros Hbits. unfold parse_signed.
  match goal with |- context [let '(_, _) := ?p in _] => destruct p as [neg body] end.
  destruct (parse_unsigned body) as [un|] eqn:Eu; [| discriminate].
  apply parse_unsigned_nonneg in Eu.
  assert (Hpow : 0 < 2 ^ (bits - 1)) by (apply Z.pow_pos_nonneg; lia).
  destruct neg.
  - destruct (un <=? 2 ^ (bits - 1)) eqn:E; [| discriminate].
    intros [= <-]. apply Z.leb_le in E. lia.
  - destruct (un <? 2 ^ (bits - 1)) eqn:E; [| discriminate].
    intros [= <-]. apply Z.ltb_lt in E. lia.
Qed.

(** A signed field of width [bits] (a positive number) is only ever set
    to a number of that width, an unsigned one to a number below
    [2 ^ bits]; digits that denote a number outside the width (for a
    signed field: [2 ^ (bits - 1)] or more without a sign or after [+],
    more than [2 ^ (bits - 1)] after [-]) are refused with a conversion
    error wrapping the range error, and the field keeps its value. *)
Theorem integer_fields_within_width
        (bits : Z) (fv : value) (name raw : string) (v : value) :
  0 < bits ->
  (setField (TInt bits) fv name raw = (v, None) ->
   exists n, v = VInt n /\ - 2 ^ (bits - 1) <= n < 2 ^ (bits - 1)) /\
  (setField (TUint bits) fv name raw = (v, None) ->
   exists n, v = VUint n /\ 0 <= n < 2 ^ bits) /\
  (forall n, parse_unsigned (TrimSpace raw) = Some n -> 2 ^ bits <= n ->
     exists tn,
       setField (TUint bits) fv name raw
       = (fv, Some (ErrConversion name tn raw (ErrRange "ParseUint" (TrimSpace raw))))) /\
  (forall sign body n,
     TrimSpace raw = sign +:+ body -> parse_unsigned body = Some n ->
     ((sign = "" \/ sign = "+") /\ 2 ^ (bits - 1) <= n) \/
     (sign = "-" /\ 2 ^ (bits - 1) < n) ->
     exists tn,
       setField (TInt bits) fv name raw
       = (fv, Some (ErrConversion name tn raw (ErrRange "ParseInt" (TrimSpace raw))))).
Proof.
  intros Hbits. split; [| split; [| split]].
  - cbn [setField]. destruct (ParseInt (TrimSpace raw) bits) as [n|err] eqn:E; [| discriminate].
    intros [= <-]. exists n. split; [reflexivity |].
    eapply parse_signed_range; [exact Hbits | exact E].
  - cbn [setField]. unfold ParseUint.
    destruct (parse_unsigned (TrimSpace raw)) as [n|] eqn:E; [| discriminate].
    destruct (n <? 2 ^ bits) eqn:El; [| discriminate].
    intros [= <-]. exists n. split; [reflexivity |].
    apply parse_unsigned_nonneg in E. apply Z.ltb_lt in El. lia.
  - intros n Hp Hbig. eexists. cbn [setField]. unfold ParseUint. rewrite Hp.
    replace (n <? 2 ^ bits) with false; [reflexivity |].
    symmetry. apply Z.ltb_ge. lia.
  - intros sign body n Htrim Hp Hout. eexists. cbn [setField]. unfold ParseInt.
    assert (Hr : parse_signed "ParseInt" (TrimSpace raw) bits
                 = inr (ErrRange "ParseInt" (TrimSpace raw))); [| rewrite Hr; reflexivity].
    destruct Hout as [[[-> | ->] Hbig] | [-> Hbig]].
    + cbn in Htrim.
      destruct (parse_signed_cases "ParseInt" (TrimSpace raw) bits)
        as [[b [Eb _]] | [[b [Eb _]] | [_ ->]]].
      * rewrite <- Htrim, Eb in Hp.
        rewrite (proj1 (parse_unsigned_signed b)) in Hp. discriminate.
      * rewrite <- Htrim, Eb in Hp.
        rewrite (proj2 (parse_unsigned_signed b)) in Hp. discriminate.
      * rewrite Htrim, Hp. replace (n <? 2 ^ (bits - 1)) with false; [reflexivity |].
        symmetry. apply Z.ltb_ge. lia.
    + rewrite Htrim.
      change (parse_signed "ParseInt" ("+" +:+ body) bits)
        with (match parse_unsigned body with
              | None => inr (ErrSyntax "ParseInt" ("+" +:+ body))
              | Some un => if un <? 2 ^ (bits - 1) then inl un
                           else inr (ErrRange "ParseInt" ("+" +:+ body))
              end).
      rewrite Hp. replace (n <? 2 ^ (bits - 1)) with false; [reflexivity |].
      symmetry. apply Z.ltb_ge. lia.
    + rewrite Htrim.
      change (parse_signed "ParseInt" ("-" +:+ body) bits)
        with (match parse_unsigned body with
              | None => inr (ErrSyntax "ParseInt" ("-" +:+ body))
              | Some un => if un <=? 2 ^ (bits - 1) then inl (- un)
                           else inr (ErrRange "ParseInt" ("-" +:+ body))
              end).
      rewrite Hp. replace (n <=? 2 ^ (bits - 1)) with false; [reflexivity |].
      symmetry. apply Z.leb_gt. lia.
Qed.

Lemma update_path_same (p : path) (f : value -> value) (dst old : value) :
  lookup_path p dst = Some old -> f old = old -> update_path p f dst = dst.
Proof.
  revert dst; induction p as [|[i|] p IH]; intros dst; cbn.
  - intros [= ->]. auto.
  - destruct dst as [| | | | | | | | |vs|]; try discriminate.
    destruct (vs !! i) as [w|] eqn:Ew; [| discriminate]. intros Hl Hf. f_equal.
    apply list_eq. intros j. destruct (Nat.eq_dec i j) as [<- | Hne].
    + rewrite list_lookup_alter_eq, Ew. cbn. f_equal. now apply IH.
    + now rewrite list_lookup_alter_ne.
  - destruct dst as [| | | | | | | |w| |]; try discriminate.
    intros Hl Hf. f_equal. now apply IH.
Qed.

Lemma update_path_missing (p : path) (f : value -> value) (dst : value) :
  lookup_path p dst = None -> update_path p f dst = dst.
Proof.
  revert dst; induction p as [|[i|] p IH]; intros dst; cbn.
  - discriminate.
  - destruct dst as [| | | | | | | | |vs|]; try reflexivity.
    destruct (vs !! i) as [w|] eqn:Ew.
    + intros Hl. f_equal. apply list_eq. intros j. destruct (Nat.eq_dec i j) as [<- | Hne].
      * rewrite list_lookup_alter_eq, Ew. cbn. f_equal. now apply IH.
      * now rewrite list_lookup_alter_ne.
    + intros _. f_equal. apply list_eq. intros j. destruct (Nat.eq_dec i j) as [<- | Hne].
      * now rewrite list_lookup_alter_eq, Ew.
      * now rewrite list_lookup_alter_ne.
  - destruct dst as [| | | | | | | |w| |]; try reflexivity.
    intros Hl. f_equal. now apply IH.
Qed.

Lemma setField_failure_keeps (ft : gotype) :
  forall fv name raw v e,
    unmarshals_text ft = false ->
    setField ft fv name raw = (v, Some e) -> v = fv.
Proof.
  destruct ft as [ | |b| |b|b| |el|n|el|n fs|n]; intros fv name raw v e Hn;
    cbn [setField]; cbn [unmarshals_text] in Hn.
  - discriminate.
  - destruct (ParseBool _); intros [= <- _]; reflexivity.
  - destruct (ParseInt _ _); intros [= <- _]; reflexivity.
  - destruct (ParseDuration _); intros [= <- _]; reflexivity.
  - destruct (ParseUint _ _); intros [= <- _]; reflexivity.
  - destruct (ParseFloat _ _); intros [= <- _]; reflexivity.
  - discriminate.
  - intros [= <- _]. reflexivity.
  - discriminate Hn.
  - destruct (setField el (zero el) name raw) as [w [err|]]; intros [= <- _]; reflexivity.
  - rewrite Hn. intros [= <- _]. reflexivity.
  - intros [= <- _]. reflexivity.
Qed.

(** A conversion that fails writes nothing: unless the field's type is a
    text unmarshaler (whose [UnmarshalText] has run on the field itself),
    the record after the failed [setField] is the record before it. *)
Theorem failed_conversion_keeps_record
        (dst : value) (p : path) (ft : gotype) (name raw : string)
        (dst' : value) (e : error) :
  unmarshals_text ft = false ->
  set_at dst p ft name raw = (dst', Some e) ->
  dst' = dst.
Proof.
  intros Hn. unfold set_at.
  destruct (setField ft (default (zero ft) (lookup_path p dst)) name raw) as [new err] eqn:E.
  intros [= <- ->]. apply (setField_failure_keeps _ _ _ _ _ _ Hn) in E. subst new.
  destruct (lookup_path p dst) as [old|] eqn:El; cbn.
  - now apply (update_path_same _ _ _ old).
  - now apply update_path_missing.
Qed.

Lemma setField_by_support
        (ft : gotype) (fv : value) (name raw : string) :
  (isSupportedType ft = true ->
   forall v e, setField ft fv name raw = (v, Some e) ->
               exists tn cause, e = ErrConversion name tn raw cause) /\
  (isSupportedType ft = false -> is_pointer (walked_type ft) = false ->
   exists tn, setField ft fv name raw = (fv, Some (ErrUnsupportedType name tn))).
Proof.
  assert (Hbase : forall t fv', is_pointer t = false ->
            (isSupportedType t = true ->
             forall v e, setField t fv' name raw = (v, Some e) ->
                         exists tn cause, e = ErrConversion name tn raw cause) /\
            (isSupportedType t = false ->
             exists tn, setField t fv' name raw = (fv', Some (ErrUnsupportedType name tn)))).
  { intros t fv' Hp. destruct t as [ | |b| |b|b| |el|n|el|n fs|n]; try discriminate;
      cbn [setField isSupportedType]; (split; [intros Hs v e | intros Hs]);
      try discriminate Hs; try (eexists; reflexivity); try discriminate.
    - destruct (ParseBool _); intros [= _ <-]; eauto.
    - destruct (ParseInt _ _); intros [= _ <-]; eauto.
    - destruct (ParseDuration _); intros [= _ <-]; eauto.
    - destruct (ParseUint _ _); intros [= _ <-]; eauto.
    - destruct (ParseFloat _ _); intros [= _ <-]; eauto.
    - destruct (UnmarshalText _ _ _) as [st' [err|]]; intros [= _ <-]; eauto.
    - rewrite Hs. destruct (UnmarshalText _ _ _) as [st' [err|]]; intros [= _ <-]; eauto.
    - rewrite Hs. eexists; reflexivity. }
  destruct ft as [ | |b| |b|b| |el|n|el|n fs|n];
    try (match goal with |- (isSupportedType ?t = _ -> _) /\ _ =>
           destruct (Hbase t fv eq_refl) as [A B];
           split; [exact A | intros Hs _; exact (B Hs)]
         end).
  cbn [walked_type]. split.
  - intros Hs v e. cbn [setField].
    destruct (setField el (zero el) name raw) as [w [err|]] eqn:E; intros [= _ <-].
    assert (Hel : is_pointer el = false) by (destruct el; try reflexivity; discriminate).
    apply (proj1 (Hbase el (zero el) Hel)) in E; [exact E |].
    destruct el; try discriminate; first [reflexivity | exact Hs].
  - intros Hs Hp. cbn [setField].
    destruct (proj2 (Hbase el (zero el) Hp)) as [tn ->].
    + destruct el; try discriminate; first [reflexivity | exact Hs].
    + now exists tn.
Qed.

(** [isSupportedType] agrees with [setField] on every type that is not a
    pointer to a pointer: a supported type only ever fails with a
    conversion error for the field and the raw text, and an unsupported
    one always fails with the unsupported-type error, writing nothing. *)
Theorem supported_types_convert
        (ft : gotype) (fv : value) (name raw : string) :
  (isSupportedType ft = true ->
   forall v e, setField ft fv name raw = (v, Some e) ->
               exists tn cause, e = ErrConversion name tn raw cause) /\
  (isSupportedType ft = false -> is_pointer (walked_type ft) = false ->
   exists tn, setField ft fv name raw = (fv, Some (ErrUnsupportedType name tn))).
Proof. apply setField_by_support. Qed.

End ConversionFacts.

Lemma integer_fields_within_width_witness :
  exists n, VInt 127 = VInt n /\ - 2 ^ (8 - 1) <= n < 2 ^ (8 - 1).
Proof.
  apply (integer_fields_within_width 8 (VInt 0) "Port" " 127 " (VInt 127)); [lia |].
  reflexivity.
Defined.

Lemma failed_conversion_keeps_record_witness :
  (set_at (VStruct [VString "x"; VBool true]) [Fld 1%nat] TBool "Debug" "maybe").1
  = VStruct [VString "x"; VBool true].
Proof.
  apply (failed_conversion_keeps_record
           (VStruct [VString "x"; VBool true]) [Fld 1%nat] TBool "Debug" "maybe" _
           (ErrConversion "Debug" "bool" "maybe" (ErrSyntax "ParseBool" "maybe"))).
  - reflexivity.
  - reflexivity.
Defined.

(* ================================================================= *)
(** ** The options and [NewResolver] *)

Section OptionFacts.

Lemma fold_options_parallelism (opts : list Option) :
  forall c,
    Forall package_option opts ->
    parallelism c = 0 \/ 1 <= parallelism c ->
    parallelism (fold_left (fun c opt => opt c) opts c) = 0 \/
    1 <= parallelism (fold_left (fun c opt => opt c) opts c).
Proof.
  induction opts as [|o opts IH]; intros c Hall Hc; cbn [fold_left]; [exact Hc |].
  inversion Hall as [|? ? Ho Hrest]; subst. apply IH; [exact Hrest |].
  destruct Ho; cbn; try exact Hc. right. destruct (Z.ltb_spec n 1); lia.
Qed.

Lemma fold_options_keep_parallelism (opts : list Option) :
  forall c,
    Forall leaves_parallelism opts ->
    parallelism (fold_left (fun c opt => opt c) opts c) = parallelism c.
Proof.
  induction opts as [|o opts IH]; intros c Hall; cbn [fold_left]; [reflexivity |].
  inversion Hall as [|? ? Ho Hrest]; subst. rewrite IH by exact Hrest.
  destruct Ho as [[p ->] | [s [p ->]]]; reflexivity.
Qed.

Lemma NewResolver_parallelism_eq (opts : list Option) :
  parallelism (NewResolver opts) =
  if parallelism (fold_left (fun c opt => opt c) opts (mkConfig None ∅ 0)) =? 0 then 10
  else parallelism (fold_left (fun c opt => opt c) opts (mkConfig None ∅ 0)).
Proof. unfold NewResolver. cbv zeta. now destruct (_ =? 0). Qed.

(** A resolver never has a parallelism below one: without a parallelism
    option it is 10, and otherwise the last parallelism option decides,
    a number below one counting as one. *)
Theorem NewResolver_parallelism (opts : list Option) :
  Forall package_option opts ->
  1 <= parallelism (NewResolver opts) /\
  (Forall leaves_parallelism opts -> parallelism (NewResolver opts) = 10) /\
  (forall before n rest,
     opts = before ++ WithParallelism n :: rest -> Forall leaves_parallelism rest ->
     parallelism (NewResolver opts) = Z.max 1 n).
Proof.
  intros Hall. rewrite NewResolver_parallelism_eq. split; [| split].
  - destruct (fold_options_parallelism opts (mkConfig None ∅ 0) Hall (or_introl eq_refl))
      as [E | E].
    + rewrite E. cbn. lia.
    + destruct (Z.eqb_spec (parallelism (fold_left (fun c opt => opt c) opts
                                                   (mkConfig None ∅ 0))) 0); lia.
  - intros Hno. rewrite (fold_options_keep_parallelism opts _ Hno). reflexivity.
  - intros before n rest -> Hrest. rewrite fold_left_app. cbn [fold_left].
    rewrite (fold_options_keep_parallelism rest _ Hrest).
    cbn [WithParallelism parallelism].
    destruct (Z.ltb_spec n 1).
    + cbn. lia.
    + destruct (Z.eqb_spec n 0); lia.
Qed.

Lemma fold_options_keep_scheme (scheme : string) (opts : list Option) :
  forall c,
    Forall (leaves_scheme scheme) opts ->
    providers (fold_left (fun c opt => opt c) opts c) !! scheme = providers c !! scheme.
Proof.
  induction opts as [|o opts IH]; intros c Hall; cbn [fold_left]; [reflexivity |].
  inversion Hall as [|? ? Ho Hrest]; subst. rewrite IH by exact Hrest.
  destruct Ho as [[p ->] | [[s [p [-> Hne]]] | [n ->]]]; cbn; try reflexivity.
  now apply lookup_insert_ne.
Qed.

Lemma fold_options_keep_default (opts : list Option) :
  forall c,
    Forall leaves_default opts ->
    defaultProvider (fold_left (fun c opt => opt c) opts c) = defaultProvider c.
Proof.
  induction opts as [|o opts IH]; intros c Hall; cbn [fold_left]; [reflexivity |].
  inversion Hall as [|? ? Ho Hrest]; subst. rewrite IH by exact Hrest.
  destruct Ho as [[s [p ->]] | [n ->]]; reflexivity.
Qed.

Lemma NewResolver_providers (opts : list Option) :
  providers (NewResolver opts) = providers (fold_left (fun c opt => opt c) opts (mkConfig None ∅ 0))
  /\ defaultProvider (NewResolver opts)
     = defaultProvider (fold_left (fun c opt => opt c) opts (mkConfig None ∅ 0)).
Proof. unfold NewResolver. now destruct (_ =? 0). Qed.

(** The provider a resolver uses for a scheme is the one of the last
    [WithProvider] for that scheme, and there is none when no option
    registers the scheme; its default provider is the one of the last
    [WithDefault], and there is none without such an option. *)
Theorem NewResolver_last_registration_wins (opts : list Option) (scheme : string) :
  (Forall (leaves_scheme scheme) opts -> providers (NewResolver opts) !! scheme = None) /\
  (forall before p rest,
     opts = before ++ WithProvider scheme p :: rest -> Forall (leaves_scheme scheme) rest ->
     providers (NewResolver opts) !! scheme = Some p) /\
  (Forall leaves_default opts -> defaultProvider (NewResolver opts) = None) /\
  (forall before p rest,
     opts = before ++ WithDefault p :: rest -> Forall leaves_default rest ->
     defaultProvider (NewResolver opts) = Some p).
Proof.
  destruct (NewResolver_providers opts) as [-> ->].
  split; [| split; [| split]].
  - intros Hno. now rewrite (fold_options_keep_scheme scheme opts _ Hno).
  - intros before p rest -> Hrest. rewrite fold_left_app. cbn [fold_left].
    rewrite (fold_options_keep_scheme scheme rest _ Hrest). cbn.
    apply lookup_insert_eq.
  - intros Hno. now rewrite (fold_options_keep_default opts _ Hno).
  - intros before p rest -> Hrest. rewrite fold_left_app. cbn [fold_left].
    now rewrite (fold_options_keep_default rest _ Hrest).
Qed.

End OptionFacts.

Lemma NewResolver_parallelism_witness :
  1 <= parallelism (NewResolver [WithDefault (plain_provider []); WithParallelism 0;
                                 WithProvider "env" (plain_provider [])]).
Proof.
  apply (NewResolver_parallelism
           [WithDefault (plain_provider []); WithParallelism 0;
            WithProvider "env" (plain_provider [])]).
  repeat constructor.
Defined.

(* ================================================================= *)
(** ** The fetch plan and the result map *)

Section FetchFacts.
Context `{JSONLib} `{text : !TextLib}.

(** What [plan] records about each fetch it schedules. *)
Lemma plan_key_origin (P : fetchSpec -> Prop) (k : fetchKey) (fi : fieldInfo) (v : string)
      (st : gset string * list fetchSpec) :
  Forall P st.2 -> P (mkSpec k fi v) -> Forall P (plan_key k fi v st).2.
Proof.
  intros Hst Hnew. unfold plan_key. destruct (decide _); [exact Hst |].
  cbn [snd]. apply Forall_app. split; [exact Hst | now constructor].
Qed.

Lemma plan_fold_origin (P : fetchSpec -> Prop) (fields : list fieldInfo) :
  (forall fi v, In fi fields ->
                v = (if isVersioned fi then "" else Version (tag fi)) \/
                (isVersioned fi = true /\ v = "previous") ->
                P (mkSpec (mkKey (URI (tag fi)) v) fi v)) ->
  forall st, Forall P st.2 -> Forall P (fold_left plan_field fields st).2.
Proof.
  induction fields as [|fi fields IH]; intros HP st Hst; cbn [fold_left]; [exact Hst |].
  apply IH; [intros fj v Hj; apply HP; now right |].
  unfold plan_field. destruct (isVersioned fi) eqn:Ev.
  - apply plan_key_origin; [apply plan_key_origin; [exact Hst |] |].
    + apply HP; [now left |]. left. now rewrite Ev.
    + apply HP; [now left |]. right. auto.
  - apply plan_key_origin; [exact Hst |]. apply HP; [now left |]. left. now rewrite Ev.
Qed.

Lemma fetch_all_snoc (specs : list fetchSpec) (s : fetchSpec) :
  fetch_all (specs ++ [s]) = <[spec_key s := fetch s]> (fetch_all specs).
Proof. unfold fetch_all. now rewrite fold_left_app. Qed.

Lemma fetch_all_lookup (specs : list fetchSpec) :
  List.NoDup (List.map spec_key specs) ->
  forall s, In s specs -> fetch_all specs !! spec_key s = Some (fetch s).
Proof.
  induction specs as [|s0 specs IH] using rev_ind; intros Hnd s Hin; [destruct Hin |].
  rewrite fetch_all_snoc. rewrite List.map_app in Hnd. cbn [List.map] in Hnd.
  apply in_app_iff in Hin as [Hin | [<- | []]].
  - assert (Hne : spec_key s0 <> spec_key s).
    { intros E. apply NoDup_remove_2 in Hnd. apply Hnd. rewrite app_nil_r, E.
      now apply in_map. }
    rewrite lookup_insert_ne by exact Hne. apply IH; [| exact Hin].
    apply NoDup_remove_1 in Hnd. now rewrite app_nil_r in Hnd.
  - apply lookup_insert_eq.
Qed.

(** Deduplication: no key of the result map is fetched twice, every key
    the assignment loop reads is fetched, every fetch is for the key
    [(uri, version)] of a task with the version the task asks for, and
    the result map holds for each planned key the outcome of its fetch.
    There are at most two fetches per task. *)
Theorem plan_fetches_each_key_once (fields : list fieldInfo) :
  List.NoDup (List.map spec_key (plan fields).2) /\
  (forall fi k, In fi fields -> In k (needed_keys fi) ->
                In k (List.map spec_key (plan fields).2)) /\
  (forall spec, In spec (plan fields).2 ->
     In (fi spec) fields /\
     key spec = mkKey (URI (tag (fi spec))) (spec_version spec) /\
     In (spec_key spec) (needed_keys (fi spec)) /\
     fetch_all (plan fields).2 !! spec_key spec = Some (fetch spec)) /\
  (length (plan fields).2 <= 2 * length fields)%nat.
Proof.
  destruct (plan_covers fields) as [Hnd Hcov].
  split; [exact Hnd |]. split; [exact Hcov |]. split.
  - intros spec Hin.
    assert (Horigin : Forall (fun spec =>
              In (fi spec) fields /\
              key spec = mkKey (URI (tag (fi spec))) (spec_version spec) /\
              In (spec_key spec) (needed_keys (fi spec))) (plan fields).2).
    { apply plan_fold_origin; [| constructor].
      intros fj v Hj Hv. cbn [fi key spec_version]. split; [exact Hj |].
      split; [reflexivity |]. unfold spec_key, needed_keys. cbn [key].
      destruct Hv as [-> | [Ev ->]].
      - destruct (isVersioned fj); now left.
      - rewrite Ev. right. now left. }
    rewrite Forall_forall in Horigin.
    destruct (Horigin spec) as [H1 [H2 H3]]; [now apply list_elem_of_In |].
    split; [exact H1 |]. split; [exact H2 |]. split; [exact H3 |].
    now apply fetch_all_lookup.
  - unfold plan.
    assert (Hlen : forall fs st,
              (length (fold_left plan_field fs st).2 <= length st.2 + 2 * length fs)%nat).
    { induction fs as [|fj fs IH]; intros st; cbn [fold_left length]; [lia |].
      etransitivity; [apply IH |].
      assert (Hk : forall k f v st0, (length (plan_key k f v st0).2 <= S (length st0.2))%nat).
      { intros k f v st0. unfold plan_key. destruct (decide _); cbn [snd]; [lia |].
        rewrite length_app. cbn. lia. }
      unfold plan_field. destruct (isVersioned fj).
      - pose proof (Hk (mkKey (URI (tag fj)) "previous") fj "previous"
                       (plan_key (mkKey (URI (tag fj)) "") fj "" st)).
        pose proof (Hk (mkKey (URI (tag fj)) "") fj "" st). lia.
      - pose proof (Hk (mkKey (URI (tag fj)) (Version (tag fj))) fj (Version (tag fj)) st).
        lia. }
    specialize (Hlen fields (∅, [])). cbn [snd length] in Hlen. lia.
Qed.

(** The assignment loop dereferences the result it reads from the map
    without testing it: on a map that lacks the key of a task it has no
    outcome ([None], the nil dereference).  On the map that the fetch
    phase fills from the plan of the same tasks, every key a task needs
    is present, so the loop reads no missing result and runs to its
    end, whatever the record and the errors it starts from. *)
Theorem Resolve_reads_fetched_results (fields : list fieldInfo) (st : value * list error) :
  (forall fi k, In fi fields -> In k (needed_keys fi) ->
                is_Some (fetch_all (plan fields).2 !! k)) /\
  is_Some (assign (fetch_all (plan fields).2) fields st) /\
  (forall fi, assign ∅ [fi] st = None).
Proof.
  split; [apply planned_results |]. split.
  - apply assign_total, planned_results.
  - intros fi. destruct st as [dst errs]. cbn [assign]. unfold assign_field.
    destruct (isVersioned fi); now rewrite lookup_empty.
Qed.

End FetchFacts.

(* ================================================================= *)
(** ** Resolve: one field at a time *)

Section FieldOutcomes.
Context `{JSONLib} `{text : !TextLib}.

(** A field that is not a versioned pair, whose fetch succeeded and whose
    bytes, after fragment extraction, convert to its type: after
    [Resolve] the field holds the converted value, and no error of the
    assignment phase names it (unless another task bears its name). *)
Theorem plain_field_resolved
        (cfg : resolverConfig) (elemType : gotype) (elem elem1 : value)
        (before after : list fieldInfo) (collectErrs : list error)
        (fi : fieldInfo) (data bytes : string) (newval : value) :
  is_struct elemType = true ->
  collectFields cfg elemType [] elem ([], []) = (elem1, (before ++ fi :: after, collectErrs)) ->
  isVersioned fi = false ->
  fetch_all (plan (before ++ fi :: after)).2 !! current_key fi = Some (inl data) ->
  extracted (tag fi) data = inl bytes ->
  setField (fieldType fi)
           (default (zero (fieldType fi)) (lookup_path (fieldValue fi) elem1))
           (fieldName fi) bytes = (newval, None) ->
  exists elem2 assignErrs,
    Resolve cfg (TPtr elemType) (VPtr elem) = Some (VPtr elem2, collectErrs ++ assignErrs) /\
    lookup_path (fieldValue fi) elem2
      = (fun _ => newval) <$> lookup_path (fieldValue fi) elem1 /\
    ((forall fj, In fj (before ++ after) -> ~ In (fieldName fi) (task_names fj)) ->
     forall e, In e assignErrs -> error_field e <> Some (fieldName fi)).
Proof.
  intros Hs Hc Hv Hres Hex Hset.
  set (results := fetch_all (plan (before ++ fi :: after)).2) in *.
  assert (Hall : forall fj k, In fj (before ++ fi :: after) -> In k (needed_keys fj) ->
                              is_Some (results !! k)) by apply planned_results.
  destruct (assign_total results before) with (st := (elem1, @nil error)) as [st1 E1].
  { intros fj k Hj. apply Hall. apply in_app_iff. now left. }
  destruct (walk_tasks_apart _ _ _ _ _ _ _ _ Hc) as [Hb Ha].
  destruct (assign_effect _ _ _ _ E1) as [[n1 [Hn1 A1]] [F1 _]]. cbn [fst snd] in *.
  set (dst2 := update_path (fieldValue fi) (fun _ => newval) st1.1).
  assert (Estep : assign_field results st1 fi = Some (dst2, st1.2)).
  { unfold assign_field. destruct st1 as [dst errs]. unfold current_key in Hres.
    rewrite Hv in *. rewrite Hres, Hex. unfold set_at. cbn [fst snd] in *.
    now rewrite (F1 _ Hb), Hset. }
  destruct (assign_total results after) with (st := (dst2, st1.2)) as [[elem2 aerrs] E2].
  { intros fj k Hj. apply Hall. apply in_app_iff. right. now right. }
  destruct (assign_effect _ _ _ _ E2) as [[n2 [Hn2 A2]] [F2 _]]. cbn [fst snd] in *.
  exists elem2, aerrs. split; [| split].
  - rewrite (Resolve_phases _ _ _ _ _ _ Hs Hc). fold results.
    rewrite assign_app, E1. cbn [assign]. rewrite Estep, E2. reflexivity.
  - rewrite (F2 _ Ha). unfold dst2. rewrite lookup_update_same. now rewrite (F1 _ Hb).
  - intros Hnames e He Hfield. rewrite Hn2, Hn1 in He. cbn in He. rewrite in_app_iff in He.
    assert (Hattr : exists fj, In fj (before ++ after) /\ attributed fj e).
    { destruct He as [He | He].
      - rewrite Forall_forall in A1. destruct (A1 e) as [fj [Hj Hat]].
        + now apply list_elem_of_In.
        + exists fj. split; [apply in_app_iff; now left | exact Hat].
      - rewrite Forall_forall in A2. destruct (A2 e) as [fj [Hj Hat]].
        + now apply list_elem_of_In.
        + exists fj. split; [apply in_app_iff; now right | exact Hat]. }
    destruct Hattr as [fj [Hj [name [Hn Hin]]]].
    apply (Hnames fj Hj). congruence.
Qed.

(** A field whose current-value fetch failed, unless it is optional and
    the failure is not-found: [Resolve] reports the failure wrapped with
    the field's name and does not write the field. *)
Theorem failed_fetch_reported
        (cfg : resolverConfig) (elemType : gotype) (elem elem1 : value)
        (before after : list fieldInfo) (collectErrs : list error)
        (fi : fieldInfo) (err : error) :
  is_struct elemType = true ->
  collectFields cfg elemType [] elem ([], []) = (elem1, (before ++ fi :: after, collectErrs)) ->
  fetch_all (plan (before ++ fi :: after)).2 !! current_key fi = Some (inr err) ->
  Optional (tag fi) && is_not_found err = false ->
  exists elem2 assignErrs,
    Resolve cfg (TPtr elemType) (VPtr elem) = Some (VPtr elem2, collectErrs ++ assignErrs) /\
    In (ErrField (fieldName fi) err) assignErrs /\
    lookup_path (fieldValue fi) elem2 = lookup_path (fieldValue fi) elem1.
Proof.
  intros Hs Hc Hres Hreq.
  set (results := fetch_all (plan (before ++ fi :: after)).2) in *.
  assert (Hall : forall fj k, In fj (before ++ fi :: after) -> In k (needed_keys fj) ->
                              is_Some (results !! k)) by apply planned_results.
  destruct (assign_total results before) with (st := (elem1, @nil error)) as [st1 E1].
  { intros fj k Hj. apply Hall. apply in_app_iff. now left. }
  pose proof (current_result_step results st1 fi err Hres) as Estep.
  rewrite Hreq in Estep.
  destruct (assign_total results after)
    with (st := (st1.1, st1.2 ++ [ErrField (fieldName fi) err])) as [[elem2 aerrs] E2].
  { intros fj k Hj. apply Hall. apply in_app_iff. right. now right. }
  destruct (walk_tasks_apart _ _ _ _ _ _ _ _ Hc) as [Hb Ha].
  destruct (assign_effect _ _ _ _ E1) as [_ [F1 _]].
  destruct (assign_effect _ _ _ _ E2) as [[n2 [Hn2 _]] [F2 _]]. cbn [fst snd] in *.
  exists elem2, aerrs. split; [| split].
  - rewrite (Resolve_phases _ _ _ _ _ _ Hs Hc). fold results.
    rewrite assign_app, E1. cbn [assign]. rewrite Estep, E2. reflexivity.
  - rewrite Hn2, !in_app_iff. left. right. now left.
  - rewrite (F2 _ Ha). apply F1, Hb.
Qed.

End FieldOutcomes.

(* ================================================================= *)
(** ** The walk, one iteration at a time *)

Section WalkStepFacts.
Context `{StdLib}.
Variable cfg : resolverConfig.

(** *** Properties of the accumulator that every iteration preserves *)

Lemma first_pass_preserves (I : walk_acc -> Prop)
      (rec : gotype -> path -> value -> walk_acc -> value * walk_acc)
      (here : path) (fs : list (sfield gotype)) :
  (forall h i f acc, I acc -> I (collect_tagged cfg h i f acc)) ->
  Forall (fun f => preserves I (rec (ftype f))) fs ->
  forall i vs acc vs' acc',
    first_pass cfg rec here fs i vs acc = (vs', acc') -> I acc -> I acc'.
Proof.
  intros Hct. induction 1 as [|f fs Hf Hfs IH]; intros i vs acc vs' acc'.
  - cbn. now intros [= _ <-].
  - destruct (first_pass_cases cfg rec here f fs i vs acc) as [vs1 [acc1 [-> Hstep]]].
    intros Hrest Hacc. apply (IH _ _ _ _ _ Hrest).
    destruct Hstep as [fv fv' acc1 _ _ Er | |]; auto. eapply Hf; eassumption.
Qed.

Lemma second_pass_preserves (I : walk_acc -> Prop)
      (rec : gotype -> path -> value -> walk_acc -> value * walk_acc)
      (here : path) (fs : list (sfield gotype)) :
  Forall (fun f => preserves I (rec (ftype f)) /\
                   forall e, ftype f = TPtr e -> preserves I (rec e)) fs ->
  forall i vs acc vs' acc',
    second_pass rec here fs i vs acc = (vs', acc') -> I acc -> I acc'.
Proof.
  induction 1 as [|f fs [Hf Hfp] Hfs IH]; intros i vs acc vs' acc'.
  - cbn. now intros [= _ <-].
  - destruct (second_pass_cases rec here f fs i vs acc) as [vs1 [acc1 [-> Hstep]]].
    intros Hrest Hacc. apply (IH _ _ _ _ _ Hrest).
    destruct Hstep as [| |e w acc1 _ Et _ _ _ Er|e a w acc1 _ Et _ _ _ Er|a w acc1 _ _ _ _ Er];
      auto.
    + eapply (Hfp e Et); eassumption.
    + eapply (Hfp e Et); eassumption.
    + eapply Hf; eassumption.
Qed.

Lemma collectFields_preserves (I : walk_acc -> Prop) :
  (forall h i f acc, I acc -> I (collect_tagged cfg h i f acc)) ->
  forall t, preserves I (collectFields cfg t).
Proof.
  intros Hct t.
  enough (Hboth : preserves I (collectFields cfg t) /\
                  forall e, t = TPtr e -> preserves I (collectFields cfg e))
    by exact (proj1 Hboth).
  assert (Hid : forall t', (forall here sv acc, collectFields cfg t' here sv acc = (sv, acc)) ->
                           preserves I (collectFields cfg t')).
  { intros t' E here sv acc sv' acc'. rewrite E. now intros [= _ <-]. }
  induction t as [t Hs Hp | e IH | n fs IH2] using gotype_nested_ind.
  - split.
    + apply Hid. intros. destruct t; try reflexivity; discriminate.
    + intros e ->. discriminate.
  - split; [apply Hid; intros; reflexivity |]. intros e' [= <-]. exact (proj1 IH).
  - split; [| discriminate].
    intros here sv acc sv' acc'. cbn [collectFields].
    destruct sv as [| | | | | | | | |vs|]; try (now intros [= _ <-]).
    destruct (first_pass cfg (collectFields cfg) here fs 0 vs acc) as [vs1 acc1] eqn:E1.
    destruct (second_pass (collectFields cfg) here fs 0 vs1 acc1) as [vs2 acc2] eqn:E2.
    intros [= _ <-] Hacc.
    apply (second_pass_preserves I _ _ _ IH2 _ _ _ _ _ E2).
    eapply (first_pass_preserves I); [exact Hct | | exact E1 | exact Hacc].
    eapply Forall_impl; [exact IH2 |]. intros f Hf. exact (proj1 Hf).
Qed.

(** *** Tasks are bound to the configuration *)

Lemma parseTag_components (raw : string) (t : parsedTag) :
  parseTag raw = inl t ->
  Tag.Key t <> "" /\
  exists uri opts, Split raw "," = uri :: opts /\
                   uri_components uri = (Scheme t, Tag.Key t, Fragment t).
Proof.
  destruct (String.eqb_spec raw "") as [-> | Hne]; [discriminate |].
  assert (HS : exists uri opts, Split raw "," = uri :: opts).
  { unfold Split. destruct (split_at "," raw) as [h tl]. now exists h, tl. }
  destruct HS as [uri [opts HS]]. rewrite (parseTag_unfold raw uri opts Hne HS).
  destruct (parseOptions opts emptyTag) as [o|]; [| discriminate].
  destruct (uri_components uri) as [[sc k] fr] eqn:Eu.
  destruct (String.eqb_spec k "") as [-> | Hk]; [discriminate |].
  intros [= <-]. cbn. split; [exact Hk |]. now exists uri, opts.
Qed.

Lemma collect_tagged_bound (here : path) (i : nat) (f : sfield gotype) (acc : walk_acc) :
  Forall (bound_task cfg) acc.1 -> Forall (bound_task cfg) (collect_tagged cfg here i f acc).1.
Proof.
  intros Hacc. unfold collect_tagged.
  destruct (fexported f); cbn [negb]; [| exact Hacc].
  destruct (ftag f) as [tagStr|]; [| exact Hacc].
  destruct (parseTag tagStr) as [tag|err] eqn:Ep; [| exact Hacc].
  apply parseTag_components in Ep as [Hkey _].
  assert (Hgo : forall p pn,
            (if String.eqb (Scheme tag) ""
             then defaultProvider cfg = Some p /\ pn = "default"
             else providers cfg !! Scheme tag = Some p /\ pn = Scheme tag) ->
            Forall (bound_task cfg)
              (if isVersionedType (ftype f) && negb (is_versioned_provider p)
               then (acc.1, acc.2 ++ [ErrVersioningNotSupported (fname f) pn])
               else (acc.1 ++ [mkFieldInfo (fname f) (here ++ [Fld i]) (ftype f) tag p pn
                                           (isVersionedType (ftype f))], acc.2)).1).
  { intros p pn Hb.
    destruct (isVersionedType (ftype f) && negb (is_versioned_provider p)) eqn:Ev;
      [exact Hacc |].
    cbn [fst]. apply Forall_app. split; [exact Hacc |]. constructor; [| constructor].
    unfold bound_task. cbn. split; [exact Hkey |]. split; [exact Hb |].
    split; [reflexivity |]. intros Hv. rewrite Hv in Ev. cbn in Ev.
    now apply negb_false_iff in Ev. }
  destruct (String.eqb (Scheme tag) "") eqn:Es; cbn [negb].
  - destruct (defaultProvider cfg) as [p|] eqn:Ed; [| exact Hacc].
    apply Hgo. rewrite ?Es. split; [first [exact Ed | reflexivity] | reflexivity].
  - destruct (providers cfg !! Scheme tag) as [p|] eqn:Ed; [| exact Hacc].
    apply Hgo. rewrite ?Es. split; [first [exact Ed | reflexivity] | reflexivity].
Qed.

(** Every task of a walk carries a tag with a key that is not empty, and
    the provider the configuration gives for its scheme (the default
    provider, named "default", for a bare key, and the provider registered
    under the scheme, named by the scheme, otherwise); a task is marked
    versioned exactly when its field is a versioned pair, and then its
    provider implements [GetVersion], so that the fetch of its previous
    version is a call of [GetVersion]. *)
Theorem tasks_bound_to_configuration
        (t : gotype) (here : path) (sv sv' : value)
        (fields : list fieldInfo) (errs : list error) :
  collectFields cfg t here sv ([], []) = (sv', (fields, errs)) ->
  Forall (bound_task cfg) fields /\
  (forall fi k, In fi fields -> isVersioned fi = true ->
     exists getVersion,
       GetVersion (Resolver.provider fi) = Some getVersion /\
       fetch (mkSpec k fi "previous") = getVersion (Tag.Key (tag fi)) "previous" /\
       fetch (mkSpec k fi "") = Get (Resolver.provider fi) (Tag.Key (tag fi))).
Proof.
  intros Hc.
  assert (Hb : Forall (bound_task cfg) fields).
  { apply (collectFields_preserves (fun acc => Forall (bound_task cfg) acc.1)
             collect_tagged_bound t _ _ _ _ _ Hc). constructor. }
  split; [exact Hb |]. intros fi k Hin Hv. rewrite Forall_forall in Hb.
  destruct (Hb fi) as [_ [_ [_ Hvp]]]; [now apply list_elem_of_In |].
  specialize (Hvp Hv). unfold is_versioned_provider in Hvp. unfold fetch. cbn.
  destruct (GetVersion (Resolver.provider fi)) as [gv|]; [| discriminate].
  exists gv. auto.
Qed.

(** *** A struct type without tagged fields *)

Lemma hasSecretTags_fields (n : string) (fs : list (sfield gotype)) :
  hasSecretTags (TStruct n fs) = existsb field_has_tags fs.
Proof. reflexivity. Qed.

Lemma first_pass_nothing
      (rec : gotype -> path -> value -> walk_acc -> value * walk_acc)
      (here : path) (fs : list (sfield gotype)) :
  Forall (fun f => hasSecretTags (ftype f) = false -> collects_nothing (rec (ftype f))) fs ->
  existsb field_has_tags fs = false ->
  forall i vs acc vs' acc',
    first_pass cfg rec here fs i vs acc = (vs', acc') -> acc' = acc.
Proof.
  induction 1 as [|f fs Hf Hfs IH]; intros Hno i vs acc vs' acc'.
  - cbn. now intros [= _ <-].
  - cbn [existsb] in Hno. apply orb_false_iff in Hno as [Hf0 Hrest0].
    destruct (first_pass_cases cfg rec here f fs i vs acc) as [vs1 [acc1 [-> Hstep]]].
    intros Hrest. rewrite (IH Hrest0 _ _ _ _ _ Hrest).
    unfold field_has_tags in Hf0.
    destruct Hstep as [fv fv' acc1 Ha _ Er | |Ha]; [| reflexivity |].
    + apply andb_true_iff in Ha as [_ Hs]. destruct (ftag f); [discriminate |].
      eapply Hf; [| exact Er].
      destruct (ftype f); try discriminate. exact Hf0.
    + unfold collect_tagged. destruct (ftag f); [discriminate |].
      now destruct (negb (fexported f)).
Qed.

Lemma second_pass_nothing
      (rec : gotype -> path -> value -> walk_acc -> value * walk_acc)
      (here : path) (fs : list (sfield gotype)) :
  existsb field_has_tags fs = false ->
  forall i vs acc vs' acc',
    second_pass rec here fs i vs acc = (vs', acc') -> acc' = acc.
Proof.
  induction fs as [|f fs IH]; intros Hno i vs acc vs' acc'.
  - cbn. now intros [= _ <-].
  - cbn [existsb] in Hno. apply orb_false_iff in Hno as [Hf0 Hrest0].
    destruct (second_pass_cases rec here f fs i vs acc) as [vs1 [acc1 [-> Hstep]]].
    intros Hrest. rewrite (IH Hrest0 _ _ _ _ _ Hrest).
    unfold field_has_tags in Hf0.
    destruct Hstep as [| |e w acc1 [_ [_ Hu]] Et Hs Hh|e a w acc1 [_ [_ Hu]] Et Hs Hh
                       |a w acc1 [_ [_ Hu]] Hs Hh]; try reflexivity; exfalso;
      rewrite Hu in Hf0.
    + rewrite Et, Hs, Hh in Hf0. discriminate.
    + rewrite Et, Hs, Hh in Hf0. discriminate.
    + destruct (ftype f); try discriminate. rewrite Hh in Hf0. discriminate.
Qed.

Lemma collectFields_nothing (t : gotype) :
  hasSecretTags t = false -> collects_nothing (collectFields cfg t).
Proof.
  induction t as [t Hs Hp | e IH | n fs IH2] using gotype_nested_ind.
  - intros _ here sv acc sv' acc'. destruct t; try discriminate; cbn; now intros [= _ <-].
  - intros _ here sv acc sv' acc'. cbn. now intros [= _ <-].
  - rewrite hasSecretTags_fields. intros Hno here sv acc sv' acc'. cbn [collectFields].
    destruct sv as [| | | | | | | | |vs|]; try (now intros [= _ <-]).
    destruct (first_pass cfg (collectFields cfg) here fs 0 vs acc) as [vs1 acc1] eqn:E1.
    destruct (second_pass (collectFields cfg) here fs 0 vs1 acc1) as [vs2 acc2] eqn:E2.
    intros [= _ <-].
    rewrite (second_pass_nothing _ _ _ Hno _ _ _ _ _ E2).
    exact (first_pass_nothing _ _ _ IH2 Hno _ _ _ _ _ E1).
Qed.

(** The test the second loop makes before it walks a nested struct loses
    nothing: the walk of a struct type for which [hasSecretTags] is false
    collects no task and no error. *)
Theorem untagged_struct_collects_nothing (t : gotype) :
  hasSecretTags t = false -> collects_nothing (collectFields cfg t).
Proof. apply collectFields_nothing. Qed.

End WalkStepFacts.

(* ================================================================= *)
(** ** What [Resolve] and the watcher leave alone *)

Section ScalarFacts.
Context `{JSONLib} `{text : !TextLib}.

Lemma keeps_scalars_refl (sv : value) : keeps_scalars sv sv.
Proof. intros q v Hl _. exact Hl. Qed.

Lemma keeps_scalars_trans (a b c : value) :
  keeps_scalars a b -> keeps_scalars b c -> keeps_scalars a c.
Proof. intros H1 H2 q v Hl Hs. apply H2; [| exact Hs]. now apply H1. Qed.

Lemma keeps_scalars_field (vs : list value) (i : nat) (fv fv' : value) :
  vs !! i = Some fv -> keeps_scalars fv fv' ->
  keeps_scalars (VStruct vs) (VStruct (<[i := fv']> vs)).
Proof.
  intros Hi Hk [|[j|] r] v; cbn.
  - intros [= <-]. discriminate.
  - destruct (Nat.eq_dec i j) as [<- | Hne].
    + rewrite Hi, list_lookup_insert_eq by (eapply lookup_lt_Some; exact Hi). apply Hk.
    + now rewrite list_lookup_insert_ne.
  - discriminate.
Qed.

Lemma keeps_scalars_nil (w : value) : keeps_scalars VNil (VPtr w).
Proof. intros [|[j|] r] v; cbn; try discriminate. intros [= <-]. discriminate. Qed.

Lemma keeps_scalars_pointee (a w : value) :
  keeps_scalars a w -> keeps_scalars (VPtr a) (VPtr w).
Proof.
  intros Hk [|[j|] r] v; cbn; try discriminate.
  - intros [= <-]. discriminate.
  - apply Hk.
Qed.

Lemma first_pass_scalars (cfg : resolverConfig)
      (rec : gotype -> path -> value -> walk_acc -> value * walk_acc)
      (here : path) (fs : list (sfield gotype)) :
  Forall (fun f => walk_keeps_scalars (rec (ftype f))) fs ->
  forall i vs acc vs' acc',
    first_pass cfg rec here fs i vs acc = (vs', acc') ->
    keeps_scalars (VStruct vs) (VStruct vs').
Proof.
  induction 1 as [|f fs Hf Hfs IH]; intros i vs acc vs' acc'.
  - cbn. intros [= <- _]. apply keeps_scalars_refl.
  - destruct (first_pass_cases cfg rec here f fs i vs acc) as [vs1 [acc1 [-> Hstep]]].
    intros Hrest. eapply keeps_scalars_trans; [| exact (IH _ _ _ _ _ Hrest)].
    destruct Hstep as [fv fv' acc1 _ Ev Er | |]; try apply keeps_scalars_refl.
    apply (keeps_scalars_field _ _ fv); [exact Ev |]. eapply Hf. exact Er.
Qed.

Lemma second_pass_scalars
      (rec : gotype -> path -> value -> walk_acc -> value * walk_acc)
      (here : path) (fs : list (sfield gotype)) :
  Forall (fun f => walk_keeps_scalars (rec (ftype f)) /\
                   forall e, ftype f = TPtr e -> walk_keeps_scalars (rec e)) fs ->
  forall i vs acc vs' acc',
    second_pass rec here fs i vs acc = (vs', acc') ->
    keeps_scalars (VStruct vs) (VStruct vs').
Proof.
  induction 1 as [|f fs [Hf Hfp] Hfs IH]; intros i vs acc vs' acc'.
  - cbn. intros [= <- _]. apply keeps_scalars_refl.
  - destruct (second_pass_cases rec here f fs i vs acc) as [vs1 [acc1 [-> Hstep]]].
    intros Hrest. eapply keeps_scalars_trans; [| exact (IH _ _ _ _ _ Hrest)].
    destruct Hstep as [|e _ _ _ _ Ev|e w acc1 _ Et _ _ Ev Er|e a w acc1 _ Et _ _ Ev Er
                       |a w acc1 _ _ _ Ev Er].
    + apply keeps_scalars_refl.
    + apply (keeps_scalars_field _ _ VNil); [exact Ev | apply keeps_scalars_nil].
    + apply (keeps_scalars_field _ _ VNil); [exact Ev | apply keeps_scalars_nil].
    + apply (keeps_scalars_field _ _ (VPtr a)); [exact Ev |].
      apply keeps_scalars_pointee. eapply (Hfp e Et). exact Er.
    + apply (keeps_scalars_field _ _ a); [exact Ev |]. eapply Hf. exact Er.
Qed.

Lemma collectFields_scalars (cfg : resolverConfig) (t : gotype) :
  walk_keeps_scalars (collectFields cfg t).
Proof.
  enough (Hboth : walk_keeps_scalars (collectFields cfg t) /\
                  forall e, t = TPtr e -> walk_keeps_scalars (collectFields cfg e))
    by exact (proj1 Hboth).
  assert (Hid : forall t', (forall here sv acc, collectFields cfg t' here sv acc = (sv, acc)) ->
                           walk_keeps_scalars (collectFields cfg t')).
  { intros t' E here sv acc sv' acc'. rewrite E. intros [= <- _]. apply keeps_scalars_refl. }
  induction t as [t Hs Hp | e IH | n fs IH2] using gotype_nested_ind.
  - split.
    + apply Hid. intros. destruct t; try reflexivity; discriminate.
    + intros e ->. discriminate.
  - split; [apply Hid; intros; reflexivity |]. intros e' [= <-]. exact (proj1 IH).
  - split; [| discriminate].
    intros here sv acc sv' acc'. cbn [collectFields].
    destruct sv as [| | | | | | | | |vs|];
      try (intros [= <- _]; apply keeps_scalars_refl).
    destruct (first_pass cfg (collectFields cfg) here fs 0 vs acc) as [vs1 acc1] eqn:E1.
    destruct (second_pass (collectFields cfg) here fs 0 vs1 acc1) as [vs2 acc2] eqn:E2.
    intros [= <- _]. eapply keeps_scalars_trans.
    + eapply first_pass_scalars; [| exact E1].
      eapply Forall_impl; [exact IH2 |]. intros f Hf. exact (proj1 Hf).
    + eapply second_pass_scalars; [exact IH2 | exact E2].
Qed.

(** Writing at [p] keeps every scalar that is not stored at or below [p]. *)
Lemma lookup_update_scalar (p q : path) (f : value -> value) (dst v : value) :
  lookup_path q dst = Some v -> scalar v = true -> ~ prefix_of p q ->
  lookup_path q (update_path p f dst) = Some v.
Proof.
  revert q dst; induction p as [|s p IH]; intros q dst Hl Hs Hn.
  - exfalso. apply Hn, prefix_of_nil.
  - destruct q as [|s' q].
    + cbn in Hl. injection Hl as ->. destruct s, v; cbn; try reflexivity; discriminate.
    + rewrite prefix_of_cons in Hn.
      destruct s as [i|], s' as [j|]; cbn in *; destruct dst as [| | | | | | | |u|vs|];
        try discriminate; try exact Hl.
      * destruct (Nat.eq_dec i j) as [-> | Hne].
        -- rewrite list_lookup_alter_eq. destruct (vs !! j) as [u|]; cbn; [| discriminate].
           apply IH; [exact Hl | exact Hs | tauto].
        -- now rewrite list_lookup_alter_ne.
      * apply IH; [exact Hl | exact Hs | tauto].
Qed.

Lemma set_at_scalar (dst : value) (p q : path) (ft : gotype) (name raw : string) (v : value) :
  lookup_path q dst = Some v -> scalar v = true -> ~ prefix_of p q ->
  lookup_path q (set_at dst p ft name raw).1 = Some v.
Proof.
  intros Hl Hs Hn. rewrite (proj1 (set_at_update _ _ _ _ _)).
  now apply lookup_update_scalar.
Qed.

Lemma not_prefix_extend (p r q : path) : ~ prefix_of p q -> ~ prefix_of (p ++ r) q.
Proof. intros Hn [x Hx]. apply Hn. exists (r ++ x). now rewrite app_assoc. Qed.

Lemma assign_field_scalar (results : gmap string (string + error))
      (dst : value) (errs : list error) (fi : fieldInfo) (st' : value * list error)
      (q : path) (v : value) :
  assign_field results (dst, errs) fi = Some st' ->
  lookup_path q dst = Some v -> scalar v = true -> ~ prefix_of (fieldValue fi) q ->
  lookup_path q st'.1 = Some v.
Proof.
  intros Ha Hl Hs Hn. unfold assign_field in Ha. destruct (isVersioned fi).
  - destruct (results !! _) as [[data|err]|]; [| | discriminate].
    + destruct (extracted (tag fi) data) as [cur|fe]; [| now injection Ha as <-].
      destruct (set_at dst (fieldValue fi ++ [Fld 0%nat]) _ _ cur) as [dst1 e1] eqn:E1.
      assert (H1 : lookup_path q dst1 = Some v).
      { replace dst1 with (set_at dst (fieldValue fi ++ [Fld 0%nat])
                                  (field_type (fieldType fi) 0)
                                  (Resolver.fieldName fi +:+ ".Current") cur).1
          by now rewrite E1.
        apply set_at_scalar; [exact Hl | exact Hs | now apply not_prefix_extend]. }
      destruct e1 as [e1|]; [now injection Ha as <- |].
      destruct (results !! _) as [[pdata|perr]|]; [| | discriminate].
      * destruct (extracted (tag fi) pdata) as [prev|fe]; [| now injection Ha as <-].
        destruct (set_at dst1 (fieldValue fi ++ [Fld 1%nat]) _ _ prev) as [dst2 e2] eqn:E2.
        assert (H2 : lookup_path q dst2 = Some v).
        { replace dst2 with (set_at dst1 (fieldValue fi ++ [Fld 1%nat])
                                    (field_type (fieldType fi) 1)
                                    (Resolver.fieldName fi +:+ ".Previous") prev).1
            by now rewrite E2.
          apply set_at_scalar; [exact H1 | exact Hs | now apply not_prefix_extend]. }
        destruct e2; now injection Ha as <-.
      * destruct (negb (is_not_found perr)); now injection Ha as <-.
    + destruct (Optional (tag fi) && is_not_found err); now injection Ha as <-.
  - destruct (results !! _) as [[data|err]|]; [| | discriminate].
    + destruct (extracted (tag fi) data) as [val|fe]; [| now injection Ha as <-].
      destruct (set_at dst (fieldValue fi) (fieldType fi) (Resolver.fieldName fi) val)
        as [dst1 e1] eqn:E1.
      assert (H1 : lookup_path q dst1 = Some v).
      { replace dst1 with (set_at dst (fieldValue fi) (fieldType fi)
                                  (Resolver.fieldName fi) val).1 by now rewrite E1.
        now apply set_at_scalar. }
      destruct e1; now injection Ha as <-.
    + destruct (Optional (tag fi) && is_not_found err); now injection Ha as <-.
Qed.

Lemma assign_scalar (results : gmap string (string + error)) (fields : list fieldInfo)
      (q : path) (v : value) :
  scalar v = true ->
  Forall (fun fi => ~ prefix_of (fieldValue fi) q) fields ->
  forall st st',
    assign results fields st = Some st' ->
    lookup_path q st.1 = Some v -> lookup_path q st'.1 = Some v.
Proof.
  intros Hs. induction 1 as [|fi fields Hfi Hrest IH]; intros [dst errs] st'; cbn [assign].
  - now intros [= <-].
  - destruct (assign_field results (dst, errs) fi) as [st1|] eqn:E1; [| discriminate].
    intros Ha Hl. apply (IH _ _ Ha).
    eapply assign_field_scalar; [exact E1 | exact Hl | exact Hs | exact Hfi].
Qed.

(** [Resolve] changes no scalar outside the storage of its tasks: a
    string, boolean, number, byte slice or other value that is neither a
    pointer nor a struct, stored anywhere in the record but at or below
    the field of a task, is the same after [Resolve], whatever the
    providers answer. *)
Theorem Resolve_keeps_other_scalars
        (cfg : resolverConfig) (elemType : gotype) (elem elem1 : value)
        (fields : list fieldInfo) (collectErrs : list error)
        (dst' : value) (errs : list error) (q : path) (v : value) :
  collectFields cfg elemType [] elem ([], []) = (elem1, (fields, collectErrs)) ->
  Resolve cfg (TPtr elemType) (VPtr elem) = Some (dst', errs) ->
  lookup_path q elem = Some v -> scalar v = true ->
  Forall (fun fi => ~ prefix_of (fieldValue fi) q) fields ->
  lookup_path (Deref :: q) dst' = Some v.
Proof.
  intros Hc Hr Hl Hs Hq.
  destruct (is_struct elemType) eqn:Es.
  - rewrite (Resolve_phases _ _ _ _ _ _ Es Hc) in Hr.
    destruct (assign _ fields (elem1, [])) as [[elem2 aerrs]|] eqn:Ea; [| discriminate].
    injection Hr as <- _. cbn [lookup_path].
    apply (assign_scalar _ _ _ _ Hs Hq _ _ Ea). cbn [fst].
    exact (collectFields_scalars cfg elemType _ _ _ _ _ Hc q v Hl Hs).
  - unfold Resolve in Hr. rewrite Es in Hr. cbn in Hr. injection Hr as <- _. exact Hl.
Qed.

Section Poll.
Import Watcher.

Lemma copy_fields_scalar (tmp : value) (q : path) (v : value) :
  scalar v = true ->
  forall dstFields tmpFields dst,
    Forall (fun fi => ~ prefix_of (fieldValue fi) q) dstFields ->
    lookup_path q dst = Some v ->
    lookup_path q (copy_fields tmp dstFields tmpFields dst) = Some v.
Proof.
  intros Hs. induction dstFields as [|d dstFields IH]; intros [|t tmpFields] dst Hq Hl;
    cbn [copy_fields]; try exact Hl.
  inversion Hq as [|? ? Hd Hrest]; subst. apply IH; [exact Hrest |].
  destruct (lookup_path (fieldValue t) tmp); [| exact Hl].
  now apply lookup_update_scalar.
Qed.

(** A polling cycle changes no scalar of the live record outside the
    storage of the record's tasks: the fields without a [secret] tag are
    not overwritten by the shadow record's zero values. *)
Theorem poll_keeps_other_scalars
        (cfg : resolverConfig) (t : gotype) (dst dst1 : value)
        (dstFields : list fieldInfo) (dstErrs : list error)
        (oldSnapshot : list fieldSnapshot) (changes : list ChangeEvent)
        (dst' : value) (changes' : list ChangeEvent) (newSnapshot : list fieldSnapshot)
        (q : path) (v : value) :
  collectFields cfg t [] dst ([], []) = (dst1, (dstFields, dstErrs)) ->
  poll cfg t dst oldSnapshot changes = Some (dst', changes', newSnapshot) ->
  lookup_path q dst = Some v -> scalar v = true ->
  Forall (fun fi => ~ prefix_of (fieldValue fi) q) dstFields ->
  lookup_path q dst' = Some v.
Proof.
  intros Hc Hp Hl Hs Hq. unfold poll in Hp.
  destruct (Resolve cfg (TPtr t) (VPtr (zero t))) as [[tmp1 [|e es]]|];
    [| now injection Hp as <- _ _ | discriminate].
  destruct (takeSnapshot cfg t _) as [tmp2 snap].
  destruct (diff oldSnapshot snap) as [|ev evs]; [now injection Hp as <- _ _ |].
  destruct (collectFields cfg t [] tmp2 ([], [])) as [tmp3 [tmpFields tmpErrs]].
  rewrite Hc in Hp. injection Hp as <- _ _.
  apply copy_fields_scalar; [exact Hs | exact Hq |].
  exact (collectFields_scalars cfg t _ _ _ _ _ Hc q v Hl Hs).
Qed.

End Poll.

End ScalarFacts.

(* ================================================================= *)
(** ** [Validate] and the walk of [Resolve] *)

Section ValidateFacts.
Context `{JSONLib} `{text : !TextLib}.
Variable cfg : resolverConfig.

Ltac split_ifs :=
  repeat match goal with |- context [if ?b then _ else _] => destruct b end.

Lemma validate_tagged_app (f : sfield gotype) (tagStr : string) (errs : list error) :
  validate_tagged cfg f tagStr errs = errs ++ validate_tagged cfg f tagStr [].
Proof.
  unfold validate_tagged. destruct (parseTag tagStr) as [tag|err]; [| reflexivity].
  cbv zeta. destruct (negb (String.eqb (Scheme tag) "")).
  - destruct (providers cfg !! Scheme tag); split_ifs; cbn;
      rewrite ?app_nil_r, <- ?app_assoc; reflexivity.
  - destruct (defaultProvider cfg); split_ifs; cbn;
      rewrite ?app_nil_r, <- ?app_assoc; reflexivity.
Qed.

Lemma validate_fields_app (rec : gotype -> list error -> list error)
      (fs : list (sfield gotype)) :
  Forall (fun f => (forall errs, rec (ftype f) errs = errs ++ rec (ftype f) []) /\
                   forall e, ftype f = TPtr e ->
                             forall errs, rec e errs = errs ++ rec e []) fs ->
  forall errs, validate_fields cfg rec fs errs = errs ++ validate_fields cfg rec fs [].
Proof.
  induction 1 as [|f fs [Hf Hfp] Hfs IH]; intros errs; cbn [validate_fields].
  - now rewrite app_nil_r.
  - assert (Hrec : forall t, (forall errs, rec t errs = errs ++ rec t []) ->
              validate_fields cfg rec fs (rec t errs)
              = errs ++ validate_fields cfg rec fs (rec t [])).
    { intros t Ht. rewrite IH, Ht, <- app_assoc. now rewrite <- IH. }
    destruct (fanon f).
    + destruct (ftype f) as [ | |b| |b|b| |e|n|e|n gs|n] eqn:Eft; cbn [is_struct];
        try apply IH.
      * destruct (is_struct e); [apply Hrec, (Hfp e eq_refl) | apply IH].
      * apply Hrec. exact Hf.
    + destruct (negb (fexported f)); [apply IH |]. destruct (ftag f) as [tagStr|].
      * rewrite IH, validate_tagged_app, <- app_assoc. now rewrite <- IH.
      * destruct (ftype f) as [ | |b| |b|b| |e|n|e|n gs|n] eqn:Eft; cbn [is_struct andb];
          try apply IH.
        -- destruct (is_struct e && hasSecretTags e); [apply Hrec, (Hfp e eq_refl) | apply IH].
        -- destruct (hasSecretTags (TStruct n gs)); [| apply IH]. apply Hrec. exact Hf.
Qed.

Lemma validateStruct_app (t : gotype) :
  (forall errs, validateStruct cfg t errs = errs ++ validateStruct cfg t []) /\
  forall e, t = TPtr e ->
            forall errs, validateStruct cfg e errs = errs ++ validateStruct cfg e [].
Proof.
  induction t as [t Hs Hp | e IH | n fs IH2] using gotype_nested_ind.
  - split.
    + intros errs. destruct t; try discriminate; cbn; now rewrite app_nil_r.
    + intros e ->. discriminate.
  - split; [intros errs; cbn; now rewrite app_nil_r |]. intros e' [= <-]. exact (proj1 IH).
  - split; [| discriminate]. intros errs. cbn [validateStruct].
    apply validate_fields_app. exact IH2.
Qed.

Lemma validate_fields_one (rec : gotype -> list error -> list error)
      (f : sfield gotype) (fs : list (sfield gotype)) (errs : list error) :
  validate_fields cfg rec (f :: fs) errs
  = validate_fields cfg rec fs (validate_fields cfg rec [f] errs).
Proof.
  cbn [validate_fields].
  destruct (fanon f).
  - destruct (ftype f) as [ | |b| |b|b| |e|n|e|n gs|n]; cbn [is_struct]; try reflexivity.
    now destruct (is_struct e).
  - destruct (negb (fexported f)); [reflexivity |]. destruct (ftag f); [reflexivity |].
    destruct (ftype f) as [ | |b| |b|b| |e|n|e|n gs|n]; cbn [is_struct andb]; try reflexivity.
    + now destruct (is_struct e && hasSecretTags e).
    + now destruct (hasSecretTags (TStruct n gs)).
Qed.

Lemma validate_fields_cons (f : sfield gotype) (fs : list (sfield gotype)) :
  validate_fields cfg (validateStruct cfg) (f :: fs) []
  = field_errors cfg f ++ validate_fields cfg (validateStruct cfg) fs [].
Proof.
  rewrite validate_fields_one. fold (field_errors cfg f). apply validate_fields_app.
  apply Forall_forall. intros g _.
  split; [exact (proj1 (validateStruct_app (ftype g))) |].
  intros e _. exact (proj1 (validateStruct_app e)).
Qed.

Lemma field_errors_incl (f : sfield gotype) (fs : list (sfield gotype)) (e : error) :
  In f fs -> In e (field_errors cfg f) ->
  In e (validate_fields cfg (validateStruct cfg) fs []).
Proof.
  induction fs as [|g fs IH]; intros Hin He; [destruct Hin |].
  rewrite validate_fields_cons, in_app_iff. destruct Hin as [-> | Hin]; auto.
Qed.

Lemma field_errors_embedded (f : sfield gotype) :
  fanon f && is_struct (ftype f) = true ->
  field_errors cfg f = validateStruct cfg (ftype f) [].
Proof.
  intros Ha. apply andb_true_iff in Ha as [Ha Hs].
  unfold field_errors. cbn [validate_fields]. rewrite Ha.
  destruct (ftype f); try discriminate. reflexivity.
Qed.

Lemma field_errors_tagged (f : sfield gotype) (tagStr : string) :
  fanon f = false -> fexported f = true -> ftag f = Some tagStr ->
  field_errors cfg f = validate_tagged cfg f tagStr [].
Proof.
  intros Ha He Ht. unfold field_errors. cbn [validate_fields]. now rewrite Ha, He, Ht.
Qed.

Lemma field_errors_nested (f : sfield gotype) :
  plain_untagged f -> is_struct (walked_type (ftype f)) = true ->
  hasSecretTags (walked_type (ftype f)) = true ->
  field_errors cfg f = validateStruct cfg (walked_type (ftype f)) [].
Proof.
  intros [Ha [He Ht]] Hs Hh. unfold field_errors. cbn [validate_fields].
  rewrite Ha, He, Ht. cbn [negb].
  destruct (ftype f) as [ | |b| |b|b| |e|n|e|n gs|n]; try discriminate; cbn [walked_type] in *.
  - now rewrite Hs, Hh.
  - cbn [is_struct andb]. now rewrite Hh.
Qed.

Lemma collect_tagged_within (S : error -> Prop) (here : path) (i : nat)
      (f : sfield gotype) (acc : walk_acc) :
  fanon f = false ->
  (forall e, In e (field_errors cfg f) -> S e) ->
  (forall e, is_versioning_error e = true -> S e) ->
  within S acc -> within S (collect_tagged cfg here i f acc).
Proof.
  intros Ha HV Hver [He Ht]. unfold collect_tagged.
  destruct (fexported f) eqn:Ee; cbn [negb]; [| split; assumption].
  destruct (ftag f) as [tagStr|] eqn:Etag; [| split; assumption].
  rewrite (field_errors_tagged f tagStr Ha Ee Etag) in HV. unfold validate_tagged in HV.
  assert (Hadd : forall e, S e -> within S (acc.1, acc.2 ++ [e])).
  { intros e HSe. split; cbn [fst snd]; [| exact Ht].
    apply Forall_app. split; [exact He | now repeat constructor]. }
  destruct (parseTag tagStr) as [tag|err].
  - cbv zeta in HV.
    assert (Hbound : forall p pn,
              (forall e, In e (if isVersionedType (ftype f)
                               then if negb (isSupportedType (field_type (ftype f) 0))
                                    then [ErrUnsupportedType (fname f) (type_name (ftype f))]
                                    else []
                               else if negb (isSupportedType (ftype f))
                                    then [ErrUnsupportedType (fname f) (type_name (ftype f))]
                                    else []) -> S e) ->
              within S
                (if isVersionedType (ftype f) && negb (is_versioned_provider p)
                 then (acc.1, acc.2 ++ [ErrVersioningNotSupported (fname f) pn])
                 else (acc.1 ++ [mkFieldInfo (fname f) (here ++ [Fld i]) (ftype f) tag p pn
                                             (isVersionedType (ftype f))], acc.2))).
    { intros p pn Hty.
      destruct (isVersionedType (ftype f) && negb (is_versioned_provider p)).
      - apply Hadd, Hver. reflexivity.
      - split; cbn [fst snd]; [exact He |]. apply Forall_app. split; [exact Ht |].
        constructor; [| constructor]. intros e Hin. apply Hty. exact Hin. }
    destruct (negb (String.eqb (Scheme tag) "")).
    + destruct (providers cfg !! Scheme tag) as [p|].
      * apply Hbound. exact HV.
      * apply Hadd, HV. split_ifs; cbn; auto.
    + destruct (defaultProvider cfg) as [p|].
      * apply Hbound. exact HV.
      * apply Hadd, HV. split_ifs; cbn; auto.
  - apply Hadd, HV. now left.
Qed.

Lemma first_pass_within (S : error -> Prop)
      (rec : gotype -> path -> value -> walk_acc -> value * walk_acc)
      (here : path) (fs : list (sfield gotype)) :
  (forall e, is_versioning_error e = true -> S e) ->
  Forall (fun f => negb (fanon f) || is_struct (ftype f) = true /\
                   (forall e, In e (field_errors cfg f) -> S e) /\
                   (fanon f && is_struct (ftype f) = true ->
                    preserves (within S) (rec (ftype f)))) fs ->
  forall i vs acc vs' acc',
    first_pass cfg rec here fs i vs acc = (vs', acc') -> within S acc -> within S acc'.
Proof.
  intros Hver. induction 1 as [|f fs [Hemb [HV Hrec]] Hfs IH]; intros i vs acc vs' acc'.
  - cbn. now intros [= _ <-].
  - destruct (first_pass_cases cfg rec here f fs i vs acc) as [vs1 [acc1 [-> Hstep]]].
    intros Hrest Hacc. apply (IH _ _ _ _ _ Hrest).
    destruct Hstep as [fv fv' acc1 Ha _ Er | |Ha]; [| exact Hacc |].
    + eapply (Hrec Ha); eassumption.
    + apply collect_tagged_within; try assumption.
      destruct (fanon f); [| reflexivity]. cbn in Hemb, Ha. congruence.
Qed.

Lemma second_pass_within (S : error -> Prop)
      (rec : gotype -> path -> value -> walk_acc -> value * walk_acc)
      (here : path) (fs : list (sfield gotype)) :
  Forall (fun f => plain_untagged f -> is_struct (walked_type (ftype f)) = true ->
                   hasSecretTags (walked_type (ftype f)) = true ->
                   preserves (within S) (rec (walked_type (ftype f)))) fs ->
  forall i vs acc vs' acc',
    second_pass rec here fs i vs acc = (vs', acc') -> within S acc -> within S acc'.
Proof.
  induction 1 as [|f fs Hrec Hfs IH]; intros i vs acc vs' acc'.
  - cbn. now intros [= _ <-].
  - destruct (second_pass_cases rec here f fs i vs acc) as [vs1 [acc1 [-> Hstep]]].
    intros Hrest Hacc. apply (IH _ _ _ _ _ Hrest).
    destruct Hstep as [| |e w acc1 Hp Et Hs Hh _ Er|e a w acc1 Hp Et Hs Hh _ Er
                       |a w acc1 Hp Hs Hh _ Er]; try exact Hacc.
    + rewrite Et in Hrec. eapply (Hrec Hp Hs Hh); eassumption.
    + rewrite Et in Hrec. eapply (Hrec Hp Hs Hh); eassumption.
    + assert (Hw : walked_type (ftype f) = ftype f)
        by (destruct (ftype f); try discriminate; reflexivity).
      rewrite Hw in Hrec. eapply (Hrec Hp Hs Hh); eassumption.
Qed.

Lemma collectFields_within (t : gotype) :
  (embeds_structs_only t = true ->
   forall S : error -> Prop,
     (forall e, In e (validateStruct cfg t []) -> S e) ->
     (forall e, is_versioning_error e = true -> S e) ->
     preserves (within S) (collectFields cfg t)) /\
  (forall el, t = TPtr el ->
     embeds_structs_only el = true ->
     forall S : error -> Prop,
       (forall e, In e (validateStruct cfg el []) -> S e) ->
       (forall e, is_versioning_error e = true -> S e) ->
       preserves (within S) (collectFields cfg el)).
Proof.
  induction t as [t Hs Hp | el IH | n fs IH2] using gotype_nested_ind.
  - split.
    + intros _ S _ _ here sv acc sv' acc'. destruct t; try discriminate; cbn;
        now intros [= _ <-].
    + intros el ->. discriminate.
  - split.
    + intros _ S _ _ here sv acc sv' acc'. cbn. now intros [= _ <-].
    + intros el' [= <-]. exact (proj1 IH).
  - split; [| discriminate]. intros Hemb S HV Hver here sv acc sv' acc'.
    cbn [collectFields].
    destruct sv as [| | | | | | | | |vs|]; try (now intros [= _ <-]).
    destruct (first_pass cfg (collectFields cfg) here fs 0 vs acc) as [vs1 acc1] eqn:E1.
    destruct (second_pass (collectFields cfg) here fs 0 vs1 acc1) as [vs2 acc2] eqn:E2.
    intros [= _ <-] Hacc. cbn [embeds_structs_only] in Hemb.
    rewrite forallb_forall in Hemb. cbn [validateStruct] in HV.
    rewrite Forall_forall in IH2.
    eapply (second_pass_within S); [| exact E2 |].
    + apply Forall_forall. intros f Hf Hpl Hst Hh.
      apply list_elem_of_In in Hf as Hf'.
      specialize (Hemb f Hf'). apply andb_true_iff in Hemb as [_ Hemb].
      assert (HVf : forall e, In e (validateStruct cfg (walked_type (ftype f)) []) -> S e).
      { intros e He. apply HV. apply (field_errors_incl f); [exact Hf' |].
        now rewrite field_errors_nested. }
      destruct (IH2 f Hf) as [IHf IHp].
      destruct (ftype f) as [ | |b| |b|b| |e|m|e|m gs|m] eqn:Eft; try discriminate;
        cbn [walked_type] in *.
      * apply (IHp e eq_refl); assumption.
      * apply IHf; assumption.
    + eapply (first_pass_within S); [exact Hver | | exact E1 | exact Hacc].
      apply Forall_forall. intros f Hf. apply list_elem_of_In in Hf as Hf'.
      specialize (Hemb f Hf'). apply andb_true_iff in Hemb as [Hemb1 Hemb2].
      split; [exact Hemb1 |]. split.
      * intros e He. apply HV. now apply (field_errors_incl f).
      * intros Ha. apply (proj1 (IH2 f Hf)); [exact Hemb2 | | exact Hver].
        intros e He. apply HV. apply (field_errors_incl f); [exact Hf' |].
        now rewrite field_errors_embedded.
Qed.

(** When every embedded field of the record type is a struct, each error
    of the walk of [Resolve] is an error [Validate] reports for the
    record, or says that a provider does not support versioning (which
    [Validate] does not check). *)
Theorem Validate_covers_walk_errors
        (elemType : gotype) (elem elem1 : value)
        (fields : list fieldInfo) (collectErrs : list error) :
  is_struct elemType = true ->
  embeds_structs_only elemType = true ->
  collectFields cfg elemType [] elem ([], []) = (elem1, (fields, collectErrs)) ->
  forall e, In e collectErrs ->
            is_versioning_error e = true \/
            In e (Validate cfg (TPtr elemType) (VPtr elem)).
Proof.
  intros Hs Hemb Hc. unfold Validate. rewrite Hs. cbn [negb].
  destruct (proj1 (collectFields_within elemType) Hemb
              (fun e => is_versioning_error e = true \/
                        In e (validateStruct cfg elemType []))
              (fun e He => or_intror He) (fun e He => or_introl He)
              _ _ _ _ _ Hc) as [Herrs _].
  - split; constructor.
  - intros e He. rewrite Forall_forall in Herrs. apply Herrs. now apply list_elem_of_In.
Qed.

Lemma supported_eqb (a b : gotype) :
  gotype_eqb a b = true -> isSupportedType a = isSupportedType b.
Proof.
  assert (Hstruct : forall n fs m gs,
            gotype_eqb (TStruct n fs) (TStruct m gs) = true -> n = m).
  { intros n fs m gs He. cbn [gotype_eqb] in He.
    apply andb_true_iff in He as [Hn _]. now apply String.eqb_eq. }
  intros He. destruct a, b; try (cbn in He; discriminate He); try reflexivity.
  - cbn [gotype_eqb] in He.
    match goal with x : gotype, y : gotype |- _ =>
      destruct x, y; try (cbn in He; discriminate He); try reflexivity end.
    cbn [isSupportedType]. now rewrite (Hstruct _ _ _ _ He).
  - cbn [isSupportedType]. now rewrite (Hstruct _ _ _ _ He).
Qed.

Lemma versioned_fields_supported (t : gotype) :
  isVersionedType t = true ->
  isSupportedType (field_type t 1) = isSupportedType (field_type t 0).
Proof.
  destruct t as [ | |b| |b|b| |e|n|e|n fs|n]; try discriminate.
  destruct fs as [|f0 [|f1 [|f2 fs]]]; try discriminate. cbn.
  intros Hv. apply andb_true_iff in Hv as [_ Hv]. symmetry. now apply supported_eqb.
Qed.

Lemma set_at_supported (dst : value) (p : path) (ft : gotype) (name raw : string)
      (dst' : value) (e : error) :
  isSupportedType ft = true -> set_at dst p ft name raw = (dst', Some e) ->
  is_configuration_error e = false.
Proof.
  intros Hs. unfold set_at. destruct (setField _ _ _ _) as [new err] eqn:E.
  intros [= _ ->].
  destruct (proj1 (setField_by_support _ _ _ _) Hs _ _ E) as [tn [cause ->]]. reflexivity.
Qed.

(** A task whose field [validateStruct] finds convertible adds no
    unknown-provider, no-default-provider or unsupported-type error in
    the assignment loop. *)
Lemma assign_field_supported (results : gmap string (string + error))
      (dst : value) (errs : list error) (fi : fieldInfo) (st' : value * list error) :
  task_type_errors fi = [] -> isVersioned fi = isVersionedType (fieldType fi) ->
  assign_field results (dst, errs) fi = Some st' ->
  exists new, st'.2 = errs ++ new /\
              Forall (fun e => is_configuration_error e = false) new.
Proof.
  intros Hty Hv.
  assert (Hnone : exists new : list error,
            errs = errs ++ new /\ Forall (fun e => is_configuration_error e = false) new).
  { exists []. rewrite app_nil_r. split; [reflexivity | constructor]. }
  assert (Hone : forall e, is_configuration_error e = false ->
            exists new : list error,
              errs ++ [e] = errs ++ new /\
              Forall (fun e => is_configuration_error e = false) new).
  { intros e He. exists [e]. split; [reflexivity | now repeat constructor]. }
  unfold task_type_errors in Hty. unfold assign_field. destruct (isVersioned fi).
  - assert (Hsup0 : isSupportedType (field_type (fieldType fi) 0) = true).
    { destruct (isSupportedType (field_type (fieldType fi) 0)); [reflexivity | discriminate]. }
    assert (Hsup1 : isSupportedType (field_type (fieldType fi) 1) = true).
    { rewrite versioned_fields_supported; [exact Hsup0 | now symmetry]. }
    destruct (results !! _) as [[data|err]|]; [| | discriminate].
    + destruct (extracted (tag fi) data) as [cur|fe]; [| intros [= <-]; now apply Hone].
      destruct (set_at dst (fieldValue fi ++ [Fld 0%nat]) _ _ cur) as [dst1 [e1|]] eqn:E1.
      { intros [= <-]. apply Hone. eapply set_at_supported; [exact Hsup0 | exact E1]. }
      destruct (results !! _) as [[pdata|perr]|]; [| | discriminate].
      * destruct (extracted (tag fi) pdata) as [prev|fe]; [| intros [= <-]; now apply Hone].
        destruct (set_at dst1 (fieldValue fi ++ [Fld 1%nat]) _ _ prev) as [dst2 [e2|]] eqn:E2;
          intros [= <-]; [| exact Hnone].
        apply Hone. eapply set_at_supported; [exact Hsup1 | exact E2].
      * destruct (negb (is_not_found perr)); intros [= <-]; [now apply Hone | exact Hnone].
    + destruct (Optional (tag fi) && is_not_found err); intros [= <-];
        [exact Hnone | now apply Hone].
  - assert (Hsup0 : isSupportedType (fieldType fi) = true).
    { destruct (isSupportedType (fieldType fi)); [reflexivity | discriminate]. }
    destruct (results !! _) as [[data|err]|]; [| | discriminate].
    + destruct (extracted (tag fi) data) as [val|fe]; [| intros [= <-]; now apply Hone].
      destruct (set_at dst (fieldValue fi) (fieldType fi) (Resolver.fieldName fi) val)
        as [dst1 [e1|]] eqn:E1; intros [= <-]; [| exact Hnone].
      apply Hone. eapply set_at_supported; [exact Hsup0 | exact E1].
    + destruct (Optional (tag fi) && is_not_found err); intros [= <-];
        [exact Hnone | now apply Hone].
Qed.

Lemma assign_supported (results : gmap string (string + error)) (fields : list fieldInfo) :
  Forall (fun fi => task_type_errors fi = [] /\
                    isVersioned fi = isVersionedType (fieldType fi)) fields ->
  forall st st',
    assign results fields st = Some st' ->
    exists new, st'.2 = st.2 ++ new /\
                Forall (fun e => is_configuration_error e = false) new.
Proof.
  induction 1 as [|fi fields [Hty Hv] Hrest IH]; intros [dst errs] st'; cbn [assign].
  - intros [= <-]. exists []. rewrite app_nil_r. split; [reflexivity | constructor].
  - destruct (assign_field results (dst, errs) fi) as [[dst1 errs1]|] eqn:E1; [| discriminate].
    intros Ha. destruct (assign_field_supported _ _ _ _ _ Hty Hv E1) as [n1 [Hn1 F1]].
    destruct (IH _ _ Ha) as [n2 [Hn2 F2]]. cbn [fst snd] in *.
    exists (n1 ++ n2). split; [now rewrite Hn2, Hn1, app_assoc |].
    apply Forall_app. auto.
Qed.

(** A record that passes [Validate] (every embedded field of its type
    being a struct) has no configuration error left for [Resolve]: the
    errors [Resolve] returns are those of its walk [collectFields], which
    can only be providers that do not support versioning, followed by
    those of the assignment phase, among which there is no unknown
    provider, no missing default provider and no unsupported type. *)
Theorem validated_record_has_no_configuration_error
        (elemType : gotype) (elem elem1 : value)
        (fields : list fieldInfo) (collectErrs : list error)
        (dst' : value) (errs : list error) :
  is_struct elemType = true ->
  embeds_structs_only elemType = true ->
  Validate cfg (TPtr elemType) (VPtr elem) = [] ->
  collectFields cfg elemType [] elem ([], []) = (elem1, (fields, collectErrs)) ->
  Resolve cfg (TPtr elemType) (VPtr elem) = Some (dst', errs) ->
  exists assignErrs,
    errs = collectErrs ++ assignErrs /\
    Forall (fun e => is_versioning_error e = true) collectErrs /\
    Forall (fun e => is_configuration_error e = false) assignErrs.
Proof.
  intros Hs Hemb Hval Hc Hr. unfold Validate in Hval. rewrite Hs in Hval. cbn [negb] in Hval.
  rewrite (Resolve_phases _ _ _ _ _ _ Hs Hc) in Hr.
  destruct (assign _ fields (elem1, [])) as [[elem2 assignErrs]|] eqn:Ea; [| discriminate].
  injection Hr as _ <-. exists assignErrs. split; [reflexivity |].
  destruct (proj1 (collectFields_within elemType) Hemb
              (fun e => is_versioning_error e = true)
              (fun e He => match eq_ind _ (fun l => In e l) He _ Hval with end)
              (fun e He => He) _ _ _ _ _ Hc) as [Herrs Htasks].
  { split; constructor. }
  cbn [fst snd] in *. split; [exact Herrs |].
  assert (Hbound : Forall (bound_task cfg) fields).
  { apply (collectFields_preserves cfg (fun acc => Forall (bound_task cfg) acc.1)
             (collect_tagged_bound cfg) elemType _ _ _ _ _ Hc). constructor. }
  destruct (assign_supported (fetch_all (plan fields).2) fields)
    with (st := (elem1, @nil error)) (st' := (elem2, assignErrs))
    as [new [Hnew Hok]]; [| exact Ea | cbn in Hnew; now subst new].
  rewrite Forall_forall in Htasks, Hbound. apply Forall_forall. intros fi Hfi.
  split; [| exact (proj1 (proj2 (proj2 (Hbound fi Hfi))))].
  specialize (Htasks fi Hfi). unfold task_type_errors in *.
  destruct (isVersioned fi).
  - destruct (negb (isSupportedType (field_type (fieldType fi) 0))); [| reflexivity].
    specialize (Htasks _ (or_introl eq_refl)). discriminate.
  - destruct (negb (isSupportedType (fieldType fi))); [| reflexivity].
    specialize (Htasks _ (or_introl eq_refl)). discriminate.
Qed.

End ValidateFacts.

(* ================================================================= *)
(** ** The canonical URI of a tag *)

Section URIFacts.

Lemma HasPrefix_app (s r p : string) : HasPrefix s p = true -> HasPrefix (s +:+ r) p = true.
Proof.
  rewrite !HasPrefix_iff. intros [x ->]. exists (x +:+ r). now rewrite sapp_assoc.
Qed.

Lemma HasPrefix_take (n : nat) (s p : string) :
  HasPrefix (str_take n s) p = true -> HasPrefix s p = true.
Proof. intros Hp. rewrite <- (str_take_drop n s). now apply HasPrefix_app. Qed.

Lemma HasPrefix_split_head (c : ascii) (s p : string) :
  HasPrefix (fst (split_at c s)) p = true -> HasPrefix s p = true.
Proof.
  intros Hp. rewrite <- (split_at_join c s).
  destruct (snd (split_at c s)) as [|x t]; [exact Hp |].
  change (Join (fst (split_at c s) :: x :: t) (String c ""))
    with (fst (split_at c s) +:+ String c "" +:+ Join (x :: t) (String c "")).
  now apply HasPrefix_app.
Qed.

(** The text before the first occurrence of a separator holds none. *)
Lemma Index_take_None (s : string) :
  forall i, Index s "://" = Some i -> Index (str_take i s) "://" = None.
Proof.
  induction s as [|a s IH]; intros i; cbn [Index].
  - cbn. discriminate.
  - destruct (HasPrefix (String a s) "://") eqn:E.
    + intros [= <-]. reflexivity.
    + destruct (Index s "://") as [j|] eqn:Ej; [| discriminate]. intros [= <-].
      cbn [str_take Index]. rewrite (IH j eq_refl).
      destruct (HasPrefix (String a (str_take j s)) "://") eqn:E'; [| reflexivity].
      apply (HasPrefix_take (S j) (String a s)) in E'. congruence.
Qed.

(** After a text that holds no separator, the first separator is the one
    that follows it. *)
Lemma Index_after (s k : string) :
  Index s "://" = None -> Index (s +:+ "://" +:+ k) "://" = Some (String.length s).
Proof.
  induction s as [|a s IH]; [reflexivity |].
  cbn [Index]. destruct (HasPrefix (String a s) "://") eqn:E; [discriminate |].
  destruct (Index s "://") eqn:Ei; [discriminate |]. intros _.
  change (String a s +:+ "://" +:+ k) with (String a (s +:+ "://" +:+ k)).
  cbn [Index]. rewrite (IH eq_refl). cbn [fmap option_fmap option_map String.length].
  destruct (HasPrefix (String a (s +:+ "://" +:+ k)) "://") eqn:E'; [| reflexivity].
  exfalso. destruct s as [|b [|c s]]; cbn in E, E';
    destruct (Ascii.eqb a ":"); cbn in E, E'; try discriminate;
    destruct (Ascii.eqb b "/"); cbn in E, E'; try discriminate;
    destruct (Ascii.eqb c "/"); cbn in E, E'; discriminate.
Qed.

(** The scheme of a parsed tag holds no [://], and the key of a tag
    without a scheme holds none either, unless the tag begins with it. *)
Lemma parsed_tag_separators (raw : string) (t : parsedTag) :
  parseTag raw = inl t -> HasPrefix raw "://" = false ->
  Index (Scheme t) "://" = None /\ (Scheme t = "" -> Index (Tag.Key t) "://" = None).
Proof.
  intros Hp Hraw. apply parseTag_components in Hp as [_ [uri [opts [HS Hu]]]].
  assert (Huri : HasPrefix uri "://" = false).
  { destruct (HasPrefix uri "://") eqn:E; [| reflexivity].
    unfold Split in HS. destruct (split_at "," raw) as [h tl] eqn:Es.
    injection HS as -> _. rewrite <- Hraw. symmetry.
    apply (HasPrefix_split_head ","). now rewrite Es. }
  unfold uri_components, Cut in Hu.
  assert (Hbody : forall body, HasPrefix body "://" = false ->
            (let '(scheme, key) :=
               match (match Index body "://" with
                      | Some i => (str_take i body, str_drop (i + String.length "://") body, true)
                      | None => (body, "", false)
                      end) with
               | (scheme, rest, true) => (scheme, rest)
               | (_, _, false) => ("", body)
               end in
             Index scheme "://" = None /\ (scheme = "" -> Index key "://" = None))).
  { intros body Hb. destruct (Index body "://") as [i|] eqn:Ei.
    - split; [now apply Index_take_None |]. intros Hempty. exfalso.
      apply Index_Some in Ei as [Hd _]. rewrite Hempty in Hd.
      assert (Ht : HasPrefix body "://" = true) by (apply HasPrefix_iff; eauto).
      congruence.
    - split; [reflexivity | intros _; exact Ei]. }
  destruct (LastIndex uri "#") as [idx|].
  - specialize (Hbody (str_take idx uri)).
    destruct (Index (str_take idx uri) "://") as [i|]; injection Hu as <- <- _;
      apply Hbody;
      (destruct (HasPrefix (str_take idx uri) "://") eqn:E; [| reflexivity];
       apply HasPrefix_take in E; congruence).
  - specialize (Hbody uri Huri).
    destruct (Index uri "://") as [i|]; injection Hu as <- <- _; exact Hbody.
Qed.

Lemma URI_with_scheme (t : parsedTag) :
  Scheme t <> "" -> URI t = Scheme t +:+ "://" +:+ Tag.Key t.
Proof. intros Hs. unfold URI. now destruct (String.eqb_spec (Scheme t) ""). Qed.

Lemma URI_bare (t : parsedTag) : Scheme t = "" -> URI t = Tag.Key t.
Proof. intros Hs. unfold URI. now rewrite Hs. Qed.

(** The scheme of a parsed tag holds no [://], whatever the tag. *)
Lemma parsed_scheme_clean (raw : string) (t : parsedTag) :
  parseTag raw = inl t -> Index (Scheme t) "://" = None.
Proof.
  intros Hp. apply parseTag_components in Hp as [_ [uri [opts [_ Hu]]]].
  unfold uri_components, Cut in Hu.
  assert (Hbody : forall body,
            Index (match (match Index body "://" with
                          | Some i => (str_take i body,
                                       str_drop (i + String.length "://") body, true)
                          | None => (body, "", false)
                          end) with
                   | (scheme, rest, true) => (scheme, rest)
                   | (_, _, false) => ("", body)
                   end).1 "://" = None).
  { intros body. destruct (Index body "://") as [i|] eqn:Ei; cbn [fst].
    - now apply Index_take_None.
    - reflexivity. }
  destruct (LastIndex uri "#") as [idx|].
  - specialize (Hbody (str_take idx uri)).
    destruct (Index (str_take idx uri) "://") as [i|]; injection Hu as <- _ _; exact Hbody.
  - specialize (Hbody uri).
    destruct (Index uri "://") as [i|]; injection Hu as <- _ _; exact Hbody.
Qed.

(** Tags whose schemes hold no [://], and whose keys hold none when the
    scheme is empty, have the same URI only if they have the same scheme
    and key. *)
Lemma URI_inj (t1 t2 : parsedTag) :
  Index (Scheme t1) "://" = None -> Index (Scheme t2) "://" = None ->
  (Scheme t1 = "" -> Index (Tag.Key t1) "://" = None) ->
  (Scheme t2 = "" -> Index (Tag.Key t2) "://" = None) ->
  URI t1 = URI t2 ->
  Scheme t1 = Scheme t2 /\ Tag.Key t1 = Tag.Key t2.
Proof.
  intros Hs1 Hs2 Hk1 Hk2 Huri.
  destruct (String.eqb_spec (Scheme t1) "") as [E1 | N1];
    destruct (String.eqb_spec (Scheme t2) "") as [E2 | N2].
  - rewrite (URI_bare _ E1), (URI_bare _ E2) in Huri. split; congruence.
  - exfalso. rewrite (URI_bare _ E1), (URI_with_scheme _ N2) in Huri.
    specialize (Hk1 E1). rewrite Huri, (Index_after _ _ Hs2) in Hk1. discriminate.
  - exfalso. rewrite (URI_with_scheme _ N1), (URI_bare _ E2) in Huri.
    specialize (Hk2 E2). rewrite <- Huri, (Index_after _ _ Hs1) in Hk2. discriminate.
  - rewrite (URI_with_scheme _ N1), (URI_with_scheme _ N2) in Huri.
    assert (Hlen : String.length (Scheme t1) = String.length (Scheme t2)).
    { pose proof (Index_after _ (Tag.Key t1) Hs1) as I1.
      pose proof (Index_after _ (Tag.Key t2) Hs2) as I2.
      rewrite Huri in I1. congruence. }
    destruct (sapp_same_length _ _ _ _ Huri Hlen) as [Es Ek].
    split; [exact Es |]. now injection Ek.
Qed.

(** Deduplication by URI merges only fetches of the same key from the same
    scheme: two tags, neither beginning with [://], that have the same
    canonical URI have the same scheme and the same key. *)
Theorem URI_identifies_scheme_and_key (raw1 raw2 : string) (t1 t2 : parsedTag) :
  parseTag raw1 = inl t1 -> parseTag raw2 = inl t2 ->
  HasPrefix raw1 "://" = false -> HasPrefix raw2 "://" = false ->
  URI t1 = URI t2 ->
  Scheme t1 = Scheme t2 /\ Tag.Key t1 = Tag.Key t2.
Proof.
  intros Hp1 Hp2 Hr1 Hr2 Huri.
  destruct (parsed_tag_separators _ _ Hp1 Hr1) as [Hs1 Hk1].
  destruct (parsed_tag_separators _ _ Hp2 Hr2) as [Hs2 Hk2].
  now apply URI_inj.
Qed.

End URIFacts.

Lemma URI_identifies_scheme_and_key_witness :
  Scheme (mkTag "awssm" "prod/db" "host" false "")
  = Scheme (mkTag "awssm" "prod/db" "password" true "") /\
  Tag.Key (mkTag "awssm" "prod/db" "host" false "")
  = Tag.Key (mkTag "awssm" "prod/db" "password" true "").
Proof.
  apply (URI_identifies_scheme_and_key
           "awssm://prod/db#host" "awssm://prod/db#password,optional");
    reflexivity.
Defined.

(* ================================================================= *)
(** ** Numbers and their text: the snapshot bytes convert back *)

Section RoundTripFacts.
Context `{JSONLib} `{text : !TextLib}.

Ltac eval_digit :=
  match goal with
  | |- context [digit_of ?c] =>
      let v := eval vm_compute in (digit_of c) in change (digit_of c) with v
  end; cbv iota.

Lemma parse_digits_acc (d : Decimal.uint) :
  forall p : positive,
    parse_digits (NilEmpty.string_of_uint d) (Z.pos p)
    = Some (Z.pos (Pos.of_uint_acc d p)).
Proof.
  induction d as [|d IH|d IH|d IH|d IH|d IH|d IH|d IH|d IH|d IH|d IH]; intros p;
    cbn [NilEmpty.string_of_uint parse_digits Pos.of_uint_acc]; [reflexivity | ..];
    eval_digit; (symmetry; etransitivity; [symmetry; apply IH | f_equal; lia]).
Qed.

Lemma parse_digits_uint (d : Decimal.uint) :
  parse_digits (NilEmpty.string_of_uint d) 0 = Some (Z.of_N (Pos.of_uint d)).
Proof.
  induction d as [|d IH|d IH|d IH|d IH|d IH|d IH|d IH|d IH|d IH|d IH];
    cbn [NilEmpty.string_of_uint parse_digits Pos.of_uint]; [reflexivity | ..];
    eval_digit; [exact IH | ..]; apply parse_digits_acc.
Qed.

Lemma to_uint_not_nil (p : positive) : Pos.to_uint p <> Decimal.Nil.
Proof.
  intros E. pose proof (DecimalPos.Unsigned.of_to p) as Hp. rewrite E in Hp. discriminate.
Qed.

Lemma FormatInt_pos (p : positive) :
  FormatInt (Z.pos p) = NilEmpty.string_of_uint (Pos.to_uint p) /\
  FormatInt (Z.neg p) = String "-" (NilEmpty.string_of_uint (Pos.to_uint p)).
Proof.
  unfold FormatInt. cbn [Z.to_int NilZero.string_of_int]. unfold NilZero.string_of_uint.
  pose proof (to_uint_not_nil p). now destruct (Pos.to_uint p).
Qed.

Lemma parse_unsigned_pos (p : positive) :
  parse_unsigned (NilEmpty.string_of_uint (Pos.to_uint p)) = Some (Z.pos p).
Proof.
  pose proof (parse_digits_uint (Pos.to_uint p)) as Hd.
  rewrite DecimalPos.Unsigned.of_to in Hd. pose proof (to_uint_not_nil p) as Hn.
  unfold parse_unsigned. destruct (Pos.to_uint p); try exact Hd. contradiction.
Qed.

Lemma all_digits_uint (d : Decimal.uint) : all_digits (NilEmpty.string_of_uint d) = true.
Proof.
  induction d; cbn [NilEmpty.string_of_uint all_digits]; [reflexivity | ..];
    eval_digit; assumption.
Qed.

Lemma digit_plain (a : ascii) : digit_of a <> None -> plain_byte a = true.
Proof.
  unfold digit_of, plain_byte, is_space1, byte_is. cbn [existsb].
  destruct (_ && _) eqn:E; [intros _ | congruence].
  apply andb_true_iff in E as [E1 E2]. apply Z.leb_le in E1, E2.
  assert (Hlo : (48 <= nat_of_ascii a)%nat) by lia.
  assert (Hhi : (nat_of_ascii a <= 57)%nat) by lia.
  apply andb_true_iff. split; [apply Nat.ltb_lt; lia |].
  repeat match goal with
         | |- context [Nat.eqb ?x ?y] => destruct (Nat.eqb_spec x y); [lia |]
         end.
  reflexivity.
Qed.

Lemma all_digits_app (a b : string) :
  all_digits (a +:+ b) = all_digits a && all_digits b.
Proof.
  induction a as [|x a IH]; cbn [append all_digits]; [reflexivity |].
  now destruct (digit_of x).
Qed.

Lemma all_digits_rev (s : string) : all_digits (str_rev s) = all_digits s.
Proof.
  induction s as [|x s IH]; cbn [str_rev all_digits]; [reflexivity |].
  rewrite all_digits_app, IH. cbn [all_digits].
  destruct (digit_of x); [now rewrite andb_true_r | now rewrite andb_false_r].
Qed.

(** Text made of a plain byte followed by digits is what [TrimSpace]
    leaves of it with white space around. *)
Lemma TrimSpace_number (pre post : string) (a : ascii) (m : string) :
  all_space1 pre = true -> all_space1 post = true ->
  plain_byte a = true -> all_digits m = true ->
  TrimSpace (pre +:+ String a m +:+ post) = String a m.
Proof.
  intros Hpre Hpost Ha Hm.
  assert (Hend : exists z r, str_rev (String a m) = String z r /\ plain_byte z = true).
  { cbn [str_rev]. destruct (str_rev m) as [|z r] eqn:Er.
    - exists a, "". auto.
    - exists z, (r +:+ String a ""). split; [reflexivity |].
      assert (Hd : all_digits (String z r) = true) by (rewrite <- Er, all_digits_rev; exact Hm).
      cbn [all_digits] in Hd. apply digit_plain. now destruct (digit_of z). }
  destruct Hend as [z [r [Hrev Hz]]].
  eapply TrimSpace_padded; eassumption.
Qed.

Lemma FormatInt_shape (n : Z) :
  exists a m, FormatInt n = String a m /\ plain_byte a = true /\ all_digits m = true.
Proof.
  destruct n as [|p|p].
  - exists "0"%char, "". auto.
  - rewrite (proj1 (FormatInt_pos p)).
    pose proof (all_digits_uint (Pos.to_uint p)) as Hd. pose proof (to_uint_not_nil p) as Hn.
    destruct (NilEmpty.string_of_uint (Pos.to_uint p)) as [|a m] eqn:E.
    + destruct (Pos.to_uint p); try discriminate. contradiction.
    + exists a, m. cbn [all_digits] in Hd. split; [reflexivity |].
      destruct (digit_of a) eqn:Ea; [| discriminate].
      split; [apply digit_plain; congruence | exact Hd].
  - rewrite (proj2 (FormatInt_pos p)). exists "-"%char, (NilEmpty.string_of_uint (Pos.to_uint p)).
    split; [reflexivity |]. split; [reflexivity | apply all_digits_uint].
Qed.

Lemma ParseInt_FormatInt (bits n : Z) :
  0 < bits -> - 2 ^ (bits - 1) <= n < 2 ^ (bits - 1) ->
  ParseInt (FormatInt n) bits = inl n.
Proof.
  intros Hbits Hr. assert (Hpow : 0 < 2 ^ (bits - 1)) by (apply Z.pow_pos_nonneg; lia).
  unfold ParseInt. destruct n as [|p|p].
  - change (FormatInt 0) with "0". unfold parse_signed. cbv iota beta.
    change (parse_unsigned "0") with (Some 0). cbv iota beta.
    destruct (Z.ltb_spec 0 (2 ^ (bits - 1))); [reflexivity | lia].
  - rewrite (proj1 (FormatInt_pos p)). pose proof (parse_unsigned_pos p) as Hu.
    pose proof (to_uint_not_nil p) as Hn. unfold parse_signed.
    destruct (Pos.to_uint p); [contradiction | ..];
      cbn [NilEmpty.string_of_uint] in *; cbv iota beta; rewrite Hu; cbv iota beta;
      (destruct (Z.ltb_spec (Z.pos p) (2 ^ (bits - 1))); [reflexivity | lia]).
  - rewrite (proj2 (FormatInt_pos p)). pose proof (parse_unsigned_pos p) as Hu.
    unfold parse_signed. cbv iota beta. rewrite Hu. cbv iota beta.
    destruct (Z.leb_spec (Z.pos p) (2 ^ (bits - 1))); [reflexivity | lia].
Qed.

Lemma ParseUint_FormatUint (bits n : Z) :
  0 <= n < 2 ^ bits -> ParseUint (FormatUint n) bits = inl n.
Proof.
  intros Hr. unfold ParseUint. destruct n as [|p|p]; [| | lia].
  - change (FormatUint 0) with "0". change (parse_unsigned "0") with (Some 0). cbv iota beta.
    destruct (Z.ltb_spec 0 (2 ^ bits)); [reflexivity | lia].
  - change (FormatUint (Z.pos p)) with (FormatInt (Z.pos p)).
    rewrite (proj1 (FormatInt_pos p)), parse_unsigned_pos. cbv iota beta.
    destruct (Z.ltb_spec (Z.pos p) (2 ^ bits)); [reflexivity | lia].
Qed.

(** Decoding undoes encoding: the bytes the watcher records for a field
    holding a string, a byte slice, a boolean or an integer within the
    width of its type convert back, by [setField], to the value the field
    holds, directly and behind one pointer; for an integer also with white
    space around the digits. *)
Theorem snapshot_bytes_convert_back
        (ft : gotype) (v fv : value) (name : string) :
  fits ft v ->
  setField ft fv name (Watcher.valueToBytes ft v) = (v, None) /\
  setField (TPtr ft) fv name (Watcher.valueToBytes (TPtr ft) (VPtr v)) = (VPtr v, None) /\
  (forall bits n pre post,
     ft = TInt bits -> v = VInt n -> all_space1 pre = true -> all_space1 post = true ->
     setField ft fv name (pre +:+ FormatInt n +:+ post) = (v, None)).
Proof.
  intros Hfit.
  assert (Hint : forall bits n pre post fv',
            0 < bits -> - 2 ^ (bits - 1) <= n < 2 ^ (bits - 1) ->
            all_space1 pre = true -> all_space1 post = true ->
            setField (TInt bits) fv' name (pre +:+ FormatInt n +:+ post) = (VInt n, None)).
  { intros bits n pre post fv' Hb Hr Hpre Hpost. cbn [setField].
    destruct (FormatInt_shape n) as [a [m [E [Ha Hm]]]].
    rewrite E, (TrimSpace_number _ _ _ _ Hpre Hpost Ha Hm), <- E.
    now rewrite (ParseInt_FormatInt _ _ Hb Hr). }
  assert (Huint : forall bits n fv',
            0 <= n < 2 ^ bits ->
            setField (TUint bits) fv' name (FormatUint n) = (VUint n, None)).
  { intros bits n fv' Hr. cbn [setField].
    assert (Ht : TrimSpace (FormatUint n) = FormatUint n).
    { change (FormatUint n) with (FormatInt n).
      destruct (FormatInt_shape n) as [a [m [E [Ha Hm]]]]. rewrite E.
      pose proof (TrimSpace_number "" "" a m eq_refl eq_refl Ha Hm) as Ht.
      cbn [append] in Ht. now rewrite sapp_nil_r in Ht. }
    rewrite Ht. now rewrite (ParseUint_FormatUint _ _ Hr). }
  assert (Hbase : forall fv', setField ft fv' name (Watcher.kindToBytes ft v) = (v, None)).
  { intros fv'.
    destruct ft as [ | |b| |b|b| |el|n|el|n fs|n], v as [s|b'|z|z|x|s|s| |w|vs|];
      cbn [fits] in Hfit; try contradiction; cbn [Watcher.kindToBytes].
    - reflexivity.
    - destruct b'; reflexivity.
    - destruct Hfit as [Hb Hr].
      pose proof (Hint b z "" "" fv' Hb Hr eq_refl eq_refl) as Hi.
      cbn [append] in Hi. now rewrite sapp_nil_r in Hi.
    - now apply Huint.
    - reflexivity. }
  split; [| split].
  - destruct ft; try exact (Hbase fv). destruct v; contradiction.
  - cbn [Watcher.valueToBytes setField]. now rewrite Hbase.
  - intros bits n pre post -> -> Hpre Hpost. destruct Hfit as [Hb Hr]. now apply Hint.
Qed.

End RoundTripFacts.

Lemma snapshot_bytes_convert_back_witness :
  setField (TInt 16) (VInt 0) "Port" "-300" = (VInt (-300), None).
Proof.
  apply (snapshot_bytes_convert_back (TInt 16) (VInt (-300)) (VInt 0) "Port").
  cbn. lia.
Defined.

(* ================================================================= *)
(** ** Deduplication merges equal fetches only *)

Section DedupSoundness.
Context `{JSONLib} `{text : !TextLib}.

Lemma collect_tagged_scheme (cfg : resolverConfig) (here : path) (i : nat)
      (f : sfield gotype) (acc : walk_acc) :
  Forall (fun fi => Index (Scheme (tag fi)) "://" = None) acc.1 ->
  Forall (fun fi => Index (Scheme (tag fi)) "://" = None) (collect_tagged cfg here i f acc).1.
Proof.
  intros Hacc. unfold collect_tagged.
  destruct (fexported f); cbn [negb]; [| exact Hacc].
  destruct (ftag f) as [tagStr|]; [| exact Hacc].
  destruct (parseTag tagStr) as [tag|err] eqn:Ep; [| exact Hacc].
  apply parsed_scheme_clean in Ep.
  assert (Hgo : forall p pn,
            Forall (fun fi => Index (Scheme (Resolver.tag fi)) "://" = None)
              (if isVersionedType (ftype f) && negb (is_versioned_provider p)
               then (acc.1, acc.2 ++ [ErrVersioningNotSupported (fname f) pn])
               else (acc.1 ++ [mkFieldInfo (fname f) (here ++ [Fld i]) (ftype f) tag p pn
                                           (isVersionedType (ftype f))], acc.2)).1).
  { intros p pn. destruct (_ && _); [exact Hacc |]. cbn [fst].
    apply Forall_app. split; [exact Hacc | now repeat constructor]. }
  destruct (negb (String.eqb (Scheme tag) "")).
  - destruct (providers cfg !! Scheme tag); [apply Hgo | exact Hacc].
  - destruct (defaultProvider cfg); [apply Hgo | exact Hacc].
Qed.

(** Where no URI holds an [@] and no bare key holds [://], two tasks of a
    walk that share an entry of the result map ask for the same fetch:
    the same version of the same key from the same provider.  The fetch
    made for the one is the fetch the other would make, and gives the
    same result unless it is refused for want of versioning (the refusal
    names the field it was made for). *)
Theorem dedup_merges_only_equal_fetches
        (cfg : resolverConfig) (t : gotype) (here : path) (sv sv' : value)
        (fields : list fieldInfo) (errs : list error)
        (fi fj : fieldInfo) (vi vj : string) (ki kj : fetchKey) :
  collectFields cfg t here sv ([], []) = (sv', (fields, errs)) ->
  In fi fields -> In fj fields ->
  ~ has_byte "@" (URI (tag fi)) -> ~ has_byte "@" (URI (tag fj)) ->
  (Scheme (tag fi) = "" -> Index (Tag.Key (tag fi)) "://" = None) ->
  (Scheme (tag fj) = "" -> Index (Tag.Key (tag fj)) "://" = None) ->
  fetchKey_String (mkKey (URI (tag fi)) vi) = fetchKey_String (mkKey (URI (tag fj)) vj) ->
  vi = vj /\
  Resolver.provider fi = Resolver.provider fj /\
  Tag.Key (tag fi) = Tag.Key (tag fj) /\
  fetch_call (mkSpec ki fi vi) = fetch_call (mkSpec kj fj vj) /\
  (vi = "" \/ GetVersion (Resolver.provider fi) <> None ->
   fetch (mkSpec ki fi vi) = fetch (mkSpec kj fj vj)).
Proof.
  intros Hc Hi Hj Ni Nj Ki Kj Hkey.
  assert (Hb : Forall (bound_task cfg) fields).
  { apply (collectFields_preserves cfg (fun acc => Forall (bound_task cfg) acc.1)
             (collect_tagged_bound cfg) t _ _ _ _ _ Hc). constructor. }
  assert (Hs : Forall (fun fi => Index (Scheme (tag fi)) "://" = None) fields).
  { apply (collectFields_preserves cfg
             (fun acc => Forall (fun fi => Index (Scheme (tag fi)) "://" = None) acc.1)
             (collect_tagged_scheme cfg) t _ _ _ _ _ Hc). constructor. }
  rewrite Forall_forall in Hb, Hs. apply list_elem_of_In in Hi, Hj.
  apply fetchKey_String_inj in Hkey; [| exact Ni | exact Nj]. injection Hkey as Huri Hv.
  destruct (URI_inj (tag fi) (tag fj) (Hs _ Hi) (Hs _ Hj) Ki Kj Huri) as [Esch Ekey].
  assert (Eprov : Resolver.provider fi = Resolver.provider fj).
  { destruct (Hb _ Hi) as [_ [Bi _]], (Hb _ Hj) as [_ [Bj _]]. rewrite <- Esch in Bj.
    destruct (String.eqb (Scheme (tag fi)) ""); destruct Bi as [Bi _], Bj as [Bj _];
      congruence. }
  split; [exact Hv |]. split; [exact Eprov |]. split; [exact Ekey |].
  unfold fetch_call, fetch. cbn [spec_version Resolver.fi]. subst vj.
  rewrite <- Eprov, <- Ekey. split; [reflexivity |].
  intros [-> | Hgv]; [reflexivity |].
  destruct (negb (String.eqb vi "")); [| reflexivity].
  destruct (GetVersion (Resolver.provider fi)); [reflexivity | contradiction].
Qed.

(** A record type without tagged fields: [Resolve] fetches nothing and
    reports nothing, and the record keeps its scalars (its nil pointers
    to structs may have been allocated). *)
Theorem Resolve_untagged_record
        (cfg : resolverConfig) (elemType : gotype) (elem : value) :
  is_struct elemType = true -> hasSecretTags elemType = false ->
  exists elem1,
    collectFields cfg elemType [] elem ([], []) = (elem1, ([], [])) /\
    Resolve cfg (TPtr elemType) (VPtr elem) = Some (VPtr elem1, []) /\
    keeps_scalars elem elem1.
Proof.
  intros Hs Hno.
  destruct (collectFields cfg elemType [] elem ([], [])) as [elem1 acc] eqn:Hc.
  pose proof (collectFields_nothing cfg elemType Hno _ _ _ _ _ Hc) as ->.
  exists elem1. split; [reflexivity |]. split.
  - now rewrite (Resolve_phases _ _ _ _ _ _ Hs Hc).
  - exact (collectFields_scalars cfg elemType _ _ _ _ _ Hc).
Qed.

End DedupSoundness.

(* ================================================================= *)
(** ** Errors name fields; a cycle without change is silent *)

Section ErrorsAndCycles.
Context `{JSONLib} `{text : !TextLib}.

Lemma collect_tagged_named (cfg : resolverConfig) (here : path) (i : nat)
      (f : sfield gotype) (acc : walk_acc) :
  Forall (fun e => error_field e = Some (fname f) \/ In e acc.2) (collect_tagged cfg here i f acc).2.
Proof.
  assert (Hsame : Forall (fun e => error_field e = Some (fname f) \/ In e acc.2) acc.2).
  { apply Forall_forall. intros e He. right. now apply list_elem_of_In. }
  assert (Hadd : forall e, error_field e = Some (fname f) ->
            Forall (fun e => error_field e = Some (fname f) \/ In e acc.2) (acc.2 ++ [e])).
  { intros e He. apply Forall_app. split; [exact Hsame | constructor; [now left | constructor]]. }
  unfold collect_tagged.
  destruct (fexported f); cbn [negb]; [| exact Hsame].
  destruct (ftag f) as [tagStr|]; [| exact Hsame].
  destruct (parseTag tagStr) as [tag|err]; [| now apply Hadd].
  assert (Hgo : forall p pn,
            Forall (fun e => error_field e = Some (fname f) \/ In e acc.2)
              (if isVersionedType (ftype f) && negb (is_versioned_provider p)
               then (acc.1, acc.2 ++ [ErrVersioningNotSupported (fname f) pn])
               else (acc.1 ++ [mkFieldInfo (fname f) (here ++ [Fld i]) (ftype f) tag p pn
                                           (isVersionedType (ftype f))], acc.2)).2).
  { intros p pn. destruct (_ && _); [now apply Hadd | exact Hsame]. }
  destruct (negb (String.eqb (Scheme tag) "")).
  - destruct (providers cfg !! Scheme tag); [apply Hgo | now apply Hadd].
  - destruct (defaultProvider cfg); [apply Hgo | now apply Hadd].
Qed.

Lemma collect_tagged_names (cfg : resolverConfig) (here : path) (i : nat)
      (f : sfield gotype) (acc : walk_acc) :
  Forall (fun e => is_Some (error_field e)) acc.2 ->
  Forall (fun e => is_Some (error_field e)) (collect_tagged cfg here i f acc).2.
Proof.
  intros Hacc. eapply Forall_impl; [apply collect_tagged_named |].
  intros e [He | He]; [rewrite He; eauto |].
  rewrite Forall_forall in Hacc. apply Hacc. now apply list_elem_of_In.
Qed.

(** Every error [Resolve] returns for a pointer to a struct names a
    field: the errors of the walk each blame an exported field with a
    [secret] tag, of a struct the walk enters, for what is at fault
    there (its tag, its scheme, the missing default provider, or a
    provider without versions), under that field's name, which is the
    name of a secret-tagged field that the walk visits, as are the names
    of the tasks; the errors of the assignment phase bear the name of a
    task, or that name followed by [.Current] or [.Previous]. *)
Theorem Resolve_errors_name_fields
        (cfg : resolverConfig) (elemType : gotype) (elem elem1 : value)
        (fields : list fieldInfo) (collectErrs : list error)
        (dst' : value) (errs : list error) :
  is_struct elemType = true ->
  collectFields cfg elemType [] elem ([], []) = (elem1, (fields, collectErrs)) ->
  Resolve cfg (TPtr elemType) (VPtr elem) = Some (dst', errs) ->
  exists assignErrs,
    errs = collectErrs ++ assignErrs /\
    Forall (blames cfg elemType) collectErrs /\
    Forall (fun e => exists name, error_field e = Some name /\
                                  In name (tagged_names elemType)) collectErrs /\
    Forall (fun fi => In (fieldName fi) (tagged_names elemType)) fields /\
    Forall (fun e => exists fi, In fi fields /\ attributed fi e) assignErrs.
Proof.
  intros Hs Hc Hr. rewrite (Resolve_phases _ _ _ _ _ _ Hs Hc) in Hr.
  destruct (assign _ fields (elem1, [])) as [[elem2 assignErrs]|] eqn:Ea; [| discriminate].
  injection Hr as _ <-. exists assignErrs. split; [reflexivity |].
  destruct (walk_reports_tagged_names cfg _ _ _ _ _ Hc) as [Htasks Herrs].
  split; [exact (walk_errors_blame cfg _ _ _ _ _ Hc) |].
  split; [| split].
  - assert (Hnamed : Forall (fun e => is_Some (error_field e)) collectErrs).
    { apply (collectFields_preserves cfg
               (fun acc => Forall (fun e => is_Some (error_field e)) acc.2)
               (collect_tagged_names cfg) elemType _ _ _ _ _ Hc). constructor. }
    rewrite Forall_forall in Hnamed. apply Forall_forall. intros e He.
    destruct (Hnamed e He) as [name Hn]. exists name. split; [exact Hn |].
    apply (Herrs e name); [now apply list_elem_of_In | exact Hn].
  - apply Forall_forall. intros fi Hfi. apply Htasks. now apply list_elem_of_In.
  - destruct (assign_effect _ _ _ _ Ea) as [[new [Hnew Hattr]] _]. cbn in Hnew. now subst new.
Qed.

Section Cycle.
Import Watcher.

Lemma diff_unchanged (oldSnapshot newSnapshot : list fieldSnapshot) :
  (forall i old new_, oldSnapshot !! i = Some old -> newSnapshot !! i = Some new_ ->
                      raw old = raw new_) ->
  diff oldSnapshot newSnapshot = [].
Proof.
  revert oldSnapshot; induction newSnapshot as [|n newS IH]; intros [|o oldS] Hsame;
    try reflexivity.
  cbn [diff]. rewrite (Hsame 0%nat o n eq_refl eq_refl), String.eqb_refl.
  apply IH. intros i old new_ Ho Hn. exact (Hsame (S i) old new_ Ho Hn).
Qed.

(** A cycle that resolves without error and finds the raw bytes of every
    field as they were in the old snapshot touches neither the live
    record nor the channel, and returns the new snapshot. *)
Theorem unchanged_cycle_is_silent
        (cfg : resolverConfig) (t : gotype) (dst : value)
        (oldSnapshot : list fieldSnapshot) (changes : list ChangeEvent)
        (shadow shadow' : value) (newSnapshot : list fieldSnapshot) :
  Resolve cfg (TPtr t) (VPtr (zero t)) = Some (VPtr shadow, []) ->
  takeSnapshot cfg t shadow = (shadow', newSnapshot) ->
  (forall i old new_, oldSnapshot !! i = Some old -> newSnapshot !! i = Some new_ ->
                      raw old = raw new_) ->
  poll cfg t dst oldSnapshot changes = Some (dst, changes, newSnapshot) /\
  (newSnapshot <> [] ->
   tick cfg t (dst, oldSnapshot, changes) = Some (dst, newSnapshot, changes)).
Proof.
  intros Hr Ht Hsame.
  assert (Hp : poll cfg t dst oldSnapshot changes = Some (dst, changes, newSnapshot)).
  { unfold poll. rewrite Hr, Ht. now rewrite (diff_unchanged _ _ Hsame). }
  split; [exact Hp |]. intros Hne. unfold tick. rewrite Hp.
  destruct newSnapshot; [contradiction | reflexivity].
Qed.

End Cycle.

End ErrorsAndCycles.

(* ================================================================= *)
(** ** More theorems at concrete records *)

(** The name is fetched and stored; the nested struct is only allocated. *)
Lemma plain_field_resolved_witness :
  exists elem2 assignErrs,
    Resolve name_config (TPtr nested_record) (VPtr (VStruct [VString ""; VNil]))
      = Some (VPtr elem2, [] ++ assignErrs) /\
    lookup_path [Fld 0%nat] elem2 = Some (VString "n").
Proof.
  destruct (plain_field_resolved
              name_config nested_record (VStruct [VString ""; VNil])
              (VStruct [VString ""; VPtr (VStruct [VString ""])])
              [] [] [] name_task "n" "n" (VString "n"))
    as [elem2 [assignErrs [HR [HL _]]]].
  - reflexivity.
  - vm_compute. reflexivity.
  - reflexivity.
  - vm_compute. reflexivity.
  - reflexivity.
  - reflexivity.
  - exists elem2, assignErrs. split; [exact HR | exact HL].
Defined.

(** A required secret that the backend does not have. *)
Lemma failed_fetch_reported_witness :
  exists elem2 assignErrs,
    Resolve empty_config (TPtr required_record) (VPtr (VStruct [VString ""]))
      = Some (VPtr elem2, [] ++ assignErrs) /\
    In (ErrField "Alpha" (ErrProviderWrap "key-a" ErrNotFound)) assignErrs.
Proof.
  destruct (failed_fetch_reported
              empty_config required_record (VStruct [VString ""]) (VStruct [VString ""])
              [] [] [] alpha_task (ErrProviderWrap "key-a" ErrNotFound))
    as [elem2 [assignErrs [HR [HE _]]]].
  - reflexivity.
  - vm_compute. reflexivity.
  - vm_compute. reflexivity.
  - reflexivity.
  - exists elem2, assignErrs. split; [exact HR | exact HE].
Defined.

Lemma tasks_bound_to_configuration_witness :
  Forall (bound_task (pair_config "c")) [pair_task TString "c"].
Proof.
  apply (tasks_bound_to_configuration
           (pair_config "c") (pair_record TString) []
           (VStruct [VStruct [VString ""; VString ""]])
           (VStruct [VStruct [VString ""; VString ""]])
           [pair_task TString "c"] []).
  vm_compute. reflexivity.
Defined.

Lemma untagged_struct_collects_nothing_witness :
  (collectFields empty_config (TStruct "Sub" [untagged "X" TString]) []
                 (VStruct [VString "x"]) ([], [])).2 = ([], []).
Proof.
  apply (untagged_struct_collects_nothing
           empty_config (TStruct "Sub" [untagged "X" TString]) eq_refl
           [] (VStruct [VString "x"]) ([], []) (VStruct [VString "x"])).
  reflexivity.
Defined.

(** The port beside an optional secret. *)
Lemma Resolve_keeps_other_scalars_witness :
  lookup_path [Deref; Fld 0%nat] (VPtr (VStruct [VInt 8080; VNil])) = Some (VInt 8080).
Proof.
  apply (Resolve_keeps_other_scalars
           empty_config optional_record (VStruct [VInt 8080; VNil])
           (VStruct [VInt 8080; VNil]) [missing_task] []
           (VPtr (VStruct [VInt 8080; VNil])) [] [Fld 0%nat] (VInt 8080)).
  - vm_compute. reflexivity.
  - vm_compute. reflexivity.
  - reflexivity.
  - reflexivity.
  - repeat constructor. intros [r Hr]. discriminate.
Defined.

(** A cycle that finds the name changed copies the name and keeps the
    port. *)
Lemma poll_keeps_other_scalars_witness :
  lookup_path [Fld 0%nat] (VStruct [VInt 8080; VString "n"]) = Some (VInt 8080).
Proof.
  apply (poll_keeps_other_scalars
           name_config watched_record (VStruct [VInt 8080; VString "old"])
           (VStruct [VInt 8080; VString "old"]) [watched_task] []
           [Watcher.mkSnapshot "Name" "name" "default" "old"] []
           (VStruct [VInt 8080; VString "n"])
           [Watcher.mkEvent "Name" "name" "default" "old" "n"]
           [Watcher.mkSnapshot "Name" "name" "default" "n"]
           [Fld 0%nat] (VInt 8080)).
  - vm_compute. reflexivity.
  - vm_compute. reflexivity.
  - reflexivity.
  - reflexivity.
  - repeat constructor. intros [r Hr]. discriminate.
Defined.

Lemma Validate_covers_walk_errors_witness :
  is_versioning_error (ErrUnknownProvider "Token" "vault" "vault://token") = true \/
  In (ErrUnknownProvider "Token" "vault" "vault://token")
     (Validate empty_config (TPtr unknown_scheme_record) (VPtr (VStruct [VString ""]))).
Proof.
  apply (Validate_covers_walk_errors
           empty_config unknown_scheme_record (VStruct [VString ""]) (VStruct [VString ""])
           [] [ErrUnknownProvider "Token" "vault" "vault://token"]).
  - reflexivity.
  - reflexivity.
  - vm_compute. reflexivity.
  - now left.
Defined.

Lemma validated_record_has_no_configuration_error_witness :
  exists assignErrs : list error,
    [] = [] ++ assignErrs /\
    Forall (fun e => is_versioning_error e = true) [] /\
    Forall (fun e => is_configuration_error e = false) assignErrs.
Proof.
  apply (validated_record_has_no_configuration_error
           name_config nested_record (VStruct [VString ""; VNil])
           (VStruct [VString ""; VPtr (VStruct [VString ""])])
           [mkFieldInfo "Name" [Fld 0%nat] TString (mkTag "" "name" "" false "")
                        (plain_provider [("name", "n")]) "default" false]
           []
           (VPtr (VStruct [VString "n"; VPtr (VStruct [VString ""])])) []).
  - reflexivity.
  - reflexivity.
  - vm_compute. reflexivity.
  - vm_compute. reflexivity.
  - vm_compute. reflexivity.
Defined.

(** Two fields that name the same secret share one fetch. *)
Lemma dedup_merges_only_equal_fetches_witness :
  fetch_call (mkSpec (mkKey "name" "") name_task "")
  = fetch_call (mkSpec (mkKey "name" "") alias_task "").
Proof.
  destruct (dedup_merges_only_equal_fetches
              name_config alias_record
              [] (VStruct [VString ""; VString ""]) (VStruct [VString ""; VString ""])
              [name_task; alias_task] [] name_task alias_task "" ""
              (mkKey "name" "") (mkKey "name" "")) as [_ [_ [_ [Hcall _]]]].
  - vm_compute. reflexivity.
  - now left.
  - right. now left.
  - cbn. rewrite !has_byte_cons. intros [? | [? | [? | [? | Hn]]]]; try discriminate.
    now apply has_byte_nil in Hn.
  - cbn. rewrite !has_byte_cons. intros [? | [? | [? | [? | Hn]]]]; try discriminate.
    now apply has_byte_nil in Hn.
  - reflexivity.
  - reflexivity.
  - reflexivity.
  - exact Hcall.
Defined.

Lemma Resolve_untagged_record_witness :
  exists elem1,
    collectFields empty_config (TStruct "Sub" [untagged "X" TString]) []
                  (VStruct [VString "x"]) ([], []) = (elem1, ([], [])) /\
    Resolve empty_config (TPtr (TStruct "Sub" [untagged "X" TString]))
            (VPtr (VStruct [VString "x"])) = Some (VPtr elem1, []) /\
    keeps_scalars (VStruct [VString "x"]) elem1.
Proof.
  apply (Resolve_untagged_record
           empty_config (TStruct "Sub" [untagged "X" TString]) (VStruct [VString "x"]));
    reflexivity.
Defined.

(** The walk error of the nested [Token], whose tag does not parse. *)
Lemma Resolve_errors_name_fields_witness :
  exists assignErrs,
    [ErrField "Token" (ErrUnknownOption "required")]
    = [ErrField "Token" (ErrUnknownOption "required")] ++ assignErrs /\
    Forall (blames empty_config shared_name_record)
           [ErrField "Token" (ErrUnknownOption "required")] /\
    Forall (fun e => exists name, error_field e = Some name /\
                                  In name (tagged_names shared_name_record))
           [ErrField "Token" (ErrUnknownOption "required")] /\
    Forall (fun fi => In (fieldName fi) (tagged_names shared_name_record))
           [mkFieldInfo "Token" [Fld 0%nat] TString (mkTag "" "token" "" true "")
                        (plain_provider []) "default" false] /\
    Forall (fun e => exists fi,
                       In fi [mkFieldInfo "Token" [Fld 0%nat] TString
                                          (mkTag "" "token" "" true "")
                                          (plain_provider []) "default" false] /\
                       attributed fi e) assignErrs.
Proof.
  apply (Resolve_errors_name_fields
           empty_config shared_name_record (zero shared_name_record)
           (zero shared_name_record)
           [mkFieldInfo "Token" [Fld 0%nat] TString (mkTag "" "token" "" true "")
                        (plain_provider []) "default" false]
           [ErrField "Token" (ErrUnknownOption "required")]
           (VPtr (zero shared_name_record))
           [ErrField "Token" (ErrUnknownOption "required")]).
  - reflexivity.
  - vm_compute. reflexivity.
  - vm_compute. reflexivity.
Defined.

(** The name is still [n]: nothing is copied, nothing is sent. *)
Lemma unchanged_cycle_is_silent_witness :
  Watcher.poll name_config watched_record (VStruct [VInt 8080; VString "n"])
               [Watcher.mkSnapshot "Name" "name" "default" "n"] []
  = Some (VStruct [VInt 8080; VString "n"], [],
          [Watcher.mkSnapshot "Name" "name" "default" "n"]).
Proof.
  apply (unchanged_cycle_is_silent
           name_config watched_record (VStruct [VInt 8080; VString "n"])
           [Watcher.mkSnapshot "Name" "name" "default" "n"] []
           (VStruct [VInt 0; VString "n"]) (VStruct [VInt 0; VString "n"])
           [Watcher.mkSnapshot "Name" "name" "default" "n"]).
  - vm_compute. reflexivity.
  - vm_compute. reflexivity.
  - intros [|i] old new_ Ho Hn; [| destruct i; discriminate].
    injection Ho as <-. injection Hn as <-. reflexivity.
Defined.
